(** * rx-entity: the event-to-entity pipeline

    A shallow embedding of [entityEventHandler], [entityServiceFactory],
    [filterPreviouslySeenIds], [subjectFactory], [eventFactory] and
    [commandFactory], and of the calculator and shop domains of the test
    suite.

    Two variants of the handler exist in the sources: the one with
    coordination ("side") handlers, whose creation event type is ['add'], and
    the packaged one with an optional handler wrapper, whose creation event
    type is ['new'].  They live in the modules [SideHandlers] and [Package],
    where a table is read by its own entries and a function of a table returns
    an entity; the module [Literal] has the two handlers on tables written as
    object literals, under whose inherited names a property read finds the
    members of [Object.prototype], and on entities that may be [null] or
    [undefined]. *)

From Stdlib Require Import ZArith String List Lia.
From stdpp Require Import base option list functions gmap strings fin_maps.

(** ** Promise outcomes and thrown values *)

Inductive exn : Type :=
| Error (message : string)
| TypeError (message : string).

Inductive outcome (A : Type) : Type :=
| Resolved (value : A)
| Rejected (reason : exn).
Arguments Resolved {A} value.
Arguments Rejected {A} reason.

(** ** JavaScript truthiness, by type *)

Class Truthy (A : Type) := truthy : A → bool.

#[global] Instance truthy_boolean : Truthy bool := λ b, b.
#[global] Instance truthy_string : Truthy string :=
  λ s, match s with EmptyString => false | String _ _ => true end.
#[global] Instance truthy_number : Truthy Z := λ n, negb (n =? 0)%Z.
(** An optional value: [None] is [undefined]. *)
#[global] Instance truthy_optional {A} `{Truthy A} : Truthy (option A) :=
  λ o, match o with Some a => truthy a | None => false end.

(** ** Routing metadata *)

Record Meta (E : Type) : Type := { entity : E; eventType : string }.
Arguments entity {E} m.
Arguments eventType {E} m.

(** [Persistable]: a value carrying a string [id]. *)
Class Persistable (T : Type) := id_of : T → string.
(** A value carrying [meta]. *)
Class Tagged (T : Type) := meta_of : T → Meta string.
(** The view [EntityType & { deleted?: boolean; id?: string }]. *)
Class Handled (T : Type) := {
  deleted : T → option bool;
  entity_id : T → option string }.

(** [{ ...value, meta }] *)
Record WithMeta (T E : Type) : Type := { value_of : T; meta : Meta E }.
Arguments value_of {T E} w.
Arguments meta {T E} w.

(** [EventType | [EventType, ...any]] *)
Inductive EventOrCluster (EventType Any : Type) : Type :=
| Single (event : EventType)
| Cluster (first : EventType) (rest : list Any).
Arguments Single {EventType Any} event.
Arguments Cluster {EventType Any} first rest.

(** ** The persistence interface and asynchronous computations *)

(** A persistence object is identified by a handle; its contents live in the
    world. *)
Abbreviation handle := nat.

Section Asynchronous.
Context {EntityType PersistenceEntityType : Type}.

(** Modelled from the spec: the interface [Persistence] of the package
    [@taterer/persist], which the sources import.  [get] resolves with the
    record, resolves with [undefined] ([None]), or rejects; [put] and [remove]
    are atomic single-record operations: they resolve with the updated store
    or reject and leave it as it was. *)
Class Persistence (Store : Type) := {
  get : Store → PersistenceEntityType → string → outcome (option EntityType);
  put : Store → PersistenceEntityType → string → EntityType → outcome Store;
  remove : Store → PersistenceEntityType → string → outcome Store }.

(** The calls a cycle suspends on. *)
Inductive Op : Type :=
| Get (persistence : handle) (c : PersistenceEntityType) (id : string)
| Put (persistence : handle) (c : PersistenceEntityType) (id : string)
      (e : EntityType)
| Remove (persistence : handle) (c : PersistenceEntityType) (id : string).

(** What a store call answers. *)
Local Abbreviation reply := (outcome (option EntityType)).

(** An async function: it returns, throws, or awaits a store call and
    resumes with its outcome. *)
Inductive Async (A : Type) : Type :=
| Return (a : A)
| Raise (e : exn)
| Await (op : Op) (k : reply → Async A).
Arguments Return {A} a.
Arguments Raise {A} e.
Arguments Await {A} op k.

Fixpoint bind {A B} (f : A → Async B) (m : Async A) : Async B :=
  match m with
  | Return a => f a
  | Raise e => Raise e
  | Await op k => Await op (λ r, bind f (k r))
  end.

(** [try { m } catch (err) { h err }] *)
Fixpoint try_catch {A} (m : Async A) (h : exn → Async A) : Async A :=
  match m with
  | Return a => Return a
  | Raise e => h e
  | Await op k => Await op (λ r, try_catch (k r) h)
  end.

(** [await persistence.op(...)] *)
Definition await (op : Op) : Async (option EntityType) :=
  Await op (λ r, match r with
                 | Resolved v => Return v
                 | Rejected err => Raise err
                 end).

(** The outcome of a synchronous call inside an async function. *)
Definition lift {A} (o : outcome A) : Async A :=
  match o with Resolved a => Return a | Rejected err => Raise err end.

(** Feeding the outcome of the pending call to a suspended computation. *)
Definition resume {A} (m : Async A) (r : reply) : Async A :=
  match m with Await _ k => k r | _ => m end.

Inductive is_write : Op → Prop :=
| write_put h c i e : is_write (Put h c i e)
| write_remove h c i : is_write (Remove h c i).

(** A computation that only reads the stores. *)
Inductive ReadOnly {A} : Async A → Prop :=
| ro_return a : ReadOnly (Return a)
| ro_raise e : ReadOnly (Raise e)
| ro_get h c i k : (∀ r, ReadOnly (k r)) → ReadOnly (Await (Get h c i) k).

Context {Store : Type} `{!Persistence Store}.

(** The contents of every persistence object. *)
Local Abbreviation World := (handle → Store).

Definition perform (op : Op) (w : World) : reply * World :=
  match op with
  | Get h c i => (get (w h) c i, w)
  | Put h c i e =>
      match put (w h) c i e with
      | Resolved s => (Resolved None, <[h := s]> w)
      | Rejected err => (Rejected err, w)
      end
  | Remove h c i =>
      match remove (w h) c i with
      | Resolved s => (Resolved None, <[h := s]> w)
      | Rejected err => (Rejected err, w)
      end
  end.

(** Running a computation to its end with nothing interleaved: the outcome,
    the world afterwards and the calls made with their outcomes. *)
Fixpoint run {A} (m : Async A) (w : World)
  : outcome A * World * list (Op * reply) :=
  match m with
  | Return a => (Resolved a, w, [])
  | Raise e => (Rejected e, w, [])
  | Await op k =>
      let '(r, w1) := perform op w in
      let '(o, w2, j) := run (k r) w1 in
      (o, w2, (op, r) :: j)
  end.

(** The store calls of a journal that took effect. *)
Definition took_effect (entry : Op * reply) : bool :=
  match entry with
  | (Put _ _ _ _, Resolved _) | (Remove _ _ _, Resolved _) => true
  | _ => false
  end.

Definition writes (j : list (Op * reply)) : list (Op * reply) :=
  filter (λ entry, took_effect entry = true) j.
End Asynchronous.

Arguments Op : clear implicits.
Abbreviation reply EntityType := (outcome (option EntityType)).
Arguments Async : clear implicits.
Abbreviation World Store := (handle → Store).
Arguments Persistence : clear implicits.
Arguments Return {EntityType PersistenceEntityType A} a.
Arguments Raise {EntityType PersistenceEntityType A} e.
Arguments Await {EntityType PersistenceEntityType A} op k.
Arguments perform {EntityType PersistenceEntityType Store _} op w : simpl never.

#[global] Instance async_ret {E P} : MRet (Async E P) := λ A, Return.
#[global] Instance async_bind {E P} : MBind (Async E P) := λ A B, bind.

(** ** Stream operators

    One subscription of [pipe(withLatestFrom(persistence$), concatMap(project),
    share())].  The operators belong to the package [rxjs], which the sources
    import.  The source and [persistence$] push values at any time, and the
    promise of an inner subscription advances by one store call at a time;
    a schedule is any sequence of these three kinds of happenings.  [share]
    multicasts the notifications of this one upstream subscription and takes no
    part in the cycles. *)

Section Streams.
Context {Input R EntityType PersistenceEntityType Store : Type}.
Context `{!Persistence EntityType PersistenceEntityType Store}.

Local Abbreviation Task := (Async EntityType PersistenceEntityType).
Local Abbreviation Op' := (Op EntityType PersistenceEntityType).
Local Abbreviation reply' := (reply EntityType).

Inductive Action : Type :=
| PersistenceEmits (persistence : handle)
| EventArrives (event : Input)
| PromiseAdvances (n : nat).

(** What happened, in order; [n] numbers the inner subscriptions. *)
Inductive Mark : Type :=
| Started (n : nat)
| Performed (n : nat) (op : Op') (r : reply')
| Emitted (n : nat)
| Aborted (n : nat) (e : exn).

Record Pipe : Type := mkPipe {
  latest : option handle;                (* withLatestFrom: last store seen *)
  buffer : list (Input * handle);        (* mergeMap: values waiting *)
  active : gmap nat (Task R);            (* mergeMap: promises in flight *)
  subscribed : nat;                      (* inner subscriptions made so far *)
  out : list R;                          (* next notifications *)
  failure : option exn;                  (* the error notification *)
  world : World Store;
  journal : list Mark }.

Definition subscribed_pipe (w : World Store) : Pipe :=
  {| latest := None; buffer := []; active := ∅; subscribed := 0; out := [];
     failure := None; world := w; journal := [] |}.

Variable project : Input * handle → Task R.

(** Modelled from the spec: [withLatestFrom] of [rxjs].  A source value is
    combined with the most recently emitted store, and dropped while no store
    has been emitted. *)
Definition withLatestFrom (event : Input) (p : Pipe)
  : option (Input * handle) :=
  match latest p with
  | Some persistence => Some (event, persistence)
  | None => None
  end.

(** [doInnerSub]: call [project] and subscribe to its promise. *)
Definition doInnerSub (x : Input * handle) (p : Pipe) : Pipe :=
  {| latest := latest p; buffer := buffer p;
     active := <[subscribed p := project x]> (active p);
     subscribed := S (subscribed p); out := out p; failure := failure p;
     world := world p; journal := journal p ++ [Started (subscribed p)] |}.

(** [while (buffer.length && active < concurrent) doInnerSub(buffer.shift())] *)
Fixpoint drain (concurrent : nat) (waiting : list (Input * handle))
    (p : Pipe) : Pipe :=
  match waiting with
  | [] =>
      {| latest := latest p; buffer := []; active := active p;
         subscribed := subscribed p; out := out p; failure := failure p;
         world := world p; journal := journal p |}
  | x :: rest =>
      if size (active p) <? concurrent then
        drain concurrent rest (doInnerSub x p)
      else
        {| latest := latest p; buffer := x :: rest; active := active p;
           subscribed := subscribed p; out := out p; failure := failure p;
           world := world p; journal := journal p |}
  end.

(** Modelled from the spec: [mergeMap(project, concurrent)] of [rxjs], seen
    from its three inputs.  A value starts a cycle when fewer than
    [concurrent] are in flight and waits in the queue otherwise; a promise
    that resolves emits and lets the queue go on; a promise that rejects is
    the error of the output stream, after which nothing is started. *)
Definition mergeMap (concurrent : nat) (a : Action) (p : Pipe) : Pipe :=
  match a with
  | PersistenceEmits persistence =>
      {| latest := Some persistence; buffer := buffer p; active := active p;
         subscribed := subscribed p; out := out p; failure := failure p;
         world := world p; journal := journal p |}
  | EventArrives event =>
      match failure p, withLatestFrom event p with
      | None, Some x =>
          if size (active p) <? concurrent then doInnerSub x p
          else
            {| latest := latest p; buffer := buffer p ++ [x];
               active := active p; subscribed := subscribed p; out := out p;
               failure := failure p; world := world p; journal := journal p |}
      | _, _ => p
      end
  | PromiseAdvances n =>
      match active p !! n with
      | None => p
      | Some (Await op k) =>
          let '(r, w) := perform op (world p) in
          {| latest := latest p; buffer := buffer p;
             active := <[n := k r]> (active p);
             subscribed := subscribed p; out := out p; failure := failure p;
             world := w; journal := journal p ++ [Performed n op r] |}
      | Some (Return a) =>
          match failure p with
          | None =>
              drain concurrent (buffer p)
                {| latest := latest p; buffer := buffer p;
                   active := delete n (active p);
                   subscribed := subscribed p; out := out p ++ [a];
                   failure := None; world := world p;
                   journal := journal p ++ [Emitted n] |}
          | Some _ =>
              {| latest := latest p; buffer := buffer p;
                 active := delete n (active p);
                 subscribed := subscribed p; out := out p;
                 failure := failure p; world := world p;
                 journal := journal p |}
          end
      | Some (Raise e) =>
          match failure p with
          | None =>
              {| latest := latest p; buffer := [];
                 active := delete n (active p);
                 subscribed := subscribed p; out := out p;
                 failure := Some e; world := world p;
                 journal := journal p ++ [Aborted n e] |}
          | Some _ =>
              {| latest := latest p; buffer := buffer p;
                 active := delete n (active p);
                 subscribed := subscribed p; out := out p;
                 failure := failure p; world := world p;
                 journal := journal p |}
          end
      end
  end.

(** [concatMap(project)] is [mergeMap(project, 1)]. *)
Definition concatMap : Action → Pipe → Pipe := mergeMap 1.

(** A whole schedule, from the moment of subscription. *)
Definition schedule (operator : Action → Pipe → Pipe) (acts : list Action)
    (p : Pipe) : Pipe :=
  fold_left (λ q a, operator a q) acts p.

(** The source values that [withLatestFrom] lets through, with the store
    each is paired with. *)
Fixpoint accepted (seen : option handle) (acts : list Action)
  : list (Input * handle) :=
  match acts with
  | [] => []
  | PersistenceEmits persistence :: rest => accepted (Some persistence) rest
  | EventArrives event :: rest =>
      match seen with
      | Some persistence => (event, persistence) :: accepted seen rest
      | None => accepted seen rest
      end
  | PromiseAdvances _ :: rest => accepted seen rest
  end.

Definition marks (n : nat) (j : list (Op' * reply')) : list Mark :=
  (λ entry, Performed n entry.1 entry.2) <$> j.

(** The reference behaviour: one cycle after the other, each run to its end
    on the world the previous one left, stopping at the first rejection. *)
Fixpoint sequentially (n : nat) (xs : list (Input * handle)) (w : World Store)
  : list Mark * World Store * list R * option exn :=
  match xs with
  | [] => ([], w, [], None)
  | x :: rest =>
      let '(o, w1, j) := run (project x) w in
      match o with
      | Resolved a =>
          let '(js, w2, outs, err) := sequentially (S n) rest w1 in
          (Started n :: marks n j ++ Emitted n :: js, w2, a :: outs, err)
      | Rejected e =>
          (Started n :: marks n j ++ [Aborted n e], w1, [], Some e)
      end
  end.

Definition cycle_of (m : Mark) : nat :=
  match m with
  | Started n | Performed n _ _ | Emitted n | Aborted n _ => n
  end.

Definition quiescent (p : Pipe) : Prop := active p = ∅ ∧ buffer p = [].

(** What a step adds to the accepted inputs. *)
Definition accepts (a : Action) (p : Pipe) : list (Input * handle) :=
  match a with
  | EventArrives event =>
      match latest p with Some h => [(event, h)] | None => [] end
  | _ => []
  end.

(** How a subscription that has accepted the inputs [xs] stands with respect
    to the reference: idle with all of them done, busy with one of them and
    the later ones waiting, or failed. *)
Inductive Serial (w0 : World Store) (xs : list (Input * handle)) (p : Pipe)
  : Prop :=
| serial_idle :
    failure p = None → active p = ∅ → buffer p = [] →
    subscribed p = length xs →
    sequentially 0 xs w0 = (journal p, world p, out p, None) →
    Serial w0 xs p
| serial_busy pre x m j0 wk jdone jrest o w' :
    failure p = None → active p = {[length pre := m]} →
    subscribed p = S (length pre) →
    xs = pre ++ x :: buffer p →
    sequentially 0 pre w0 = (j0, wk, out p, None) →
    run (project x) wk = (o, w', jdone ++ jrest) →
    run m (world p) = (o, w', jrest) →
    journal p = j0 ++ Started (length pre) :: marks (length pre) jdone →
    Serial w0 xs p
| serial_failed e :
    failure p = Some e → active p = ∅ → buffer p = [] →
    sequentially 0 xs w0 = (journal p, world p, out p, Some e) →
    Serial w0 xs p.

End Streams.

Arguments Action : clear implicits.
Arguments Mark : clear implicits.
Arguments Pipe : clear implicits.
Arguments serial_idle {Input R EntityType PersistenceEntityType Store _ project
  w0 xs p}.
Arguments serial_busy {Input R EntityType PersistenceEntityType Store _ project
  w0 xs p}.
Arguments serial_failed {Input R EntityType PersistenceEntityType Store _
  project w0 xs p}.

(** ** Handler tables *)

(** [(entity: EntityType | undefined, event) => EntityType], which may
    throw. *)
Abbreviation EntityEventHandler EventType Any EntityType :=
  (option EntityType → EventOrCluster EventType Any → outcome EntityType).

(** [(originalEntity, event, updatedEntity) => Promise<EntityType> |
    EntityType] *)
Abbreviation SideEventHandler EventType Any EntityType PersistenceEntityType :=
  (option EntityType → EventOrCluster EventType Any → EntityType
   → Async EntityType PersistenceEntityType EntityType).

(** [new Error('Cannot save entity without an id. ...')] *)
Definition cannot_save : exn :=
  Error "Cannot save entity without an id. Consider putting id explicitly in the event handler.".

(** [eventHandlers[eventType](...)] when the table has no such property. *)
Definition not_a_function : exn :=
  TypeError "eventHandlers[eventType] is not a function".

(** * The handler with coordination handlers (creation type ['add']) *)

Module SideHandlers.
Section Handler.
Context {EventType EntityType PersistenceEntityType Any : Type}.
Context `{!Persistable EventType, !Tagged EventType, !Handled EntityType}.

Local Abbreviation Event := (EventOrCluster EventType Any).
Local Abbreviation Task := (Async EntityType PersistenceEntityType).
Local Abbreviation EntityEventHandler :=
  (EntityEventHandler EventType Any EntityType).
Local Abbreviation SideEventHandler :=
  (SideEventHandler EventType Any EntityType PersistenceEntityType).

(** [entityEventHandler], the tables read by their own entries and the
    functions of the tables returning entities, as their types say. *)
Definition entityEventHandler
    (persistence : handle)
    (entityPersistence : PersistenceEntityType)
    (eventHandlers : gmap string EntityEventHandler)
    (event : Event)
    (sideHandlers : option (gmap string SideEventHandler))
  : Task (WithMeta EntityType PersistenceEntityType) :=
  let eventId :=
    match event with Cluster e0 _ => id_of e0 | Single e => id_of e end in
  let eventType :=
    match event with
    | Cluster e0 _ => eventType (meta_of e0)
    | Single e => eventType (meta_of e)
    end in
  currentEntity ←
    try_catch (await (Get persistence entityPersistence eventId))
      (λ err,
        (* continue if it's an add, otherwise throw *)
        if negb (eventType =? "add")%string then Raise err else Return None);
  updatedEntity ←
    match eventHandlers !! eventType with
    | Some handler => lift (handler currentEntity event)
    | None => Raise not_a_function
    end;
  handledEntity ←
    match sideHandlers ≫= (λ table, table !! eventType) with
    | Some side => side currentEntity event updatedEntity
    | None => Return updatedEntity
    end;
  if truthy (deleted handledEntity) then
    _ ← await (Remove persistence entityPersistence eventId);
    Return {| value_of := handledEntity;
              meta := {| entity := entityPersistence;
                         eventType := eventType |} |}
  else
    match entity_id handledEntity with
    | Some id =>
        if negb (truthy id) then Raise cannot_save
        else
          _ ← await (Put persistence entityPersistence id handledEntity);
          Return {| value_of := handledEntity;
                    meta := {| entity := entityPersistence;
                               eventType := eventType |} |}
    | None => Raise cannot_save
    end.

(** [pipe(withLatestFrom(persistence$), concatMap(([event, persistence]) =>
    from(entityEventHandler(persistence, entityPersistence, eventHandlers,
    event, sideHandlers))), share())]; the values of [persistence$] reach the
    operator as [PersistenceEmits] happenings. *)
Definition entityServiceFactory {Store : Type}
    `{!Persistence EntityType PersistenceEntityType Store}
    (entityPersistence : PersistenceEntityType)
    (eventHandlers : gmap string EntityEventHandler)
    (sideHandlers : option (gmap string SideEventHandler))
  : Action Event → Pipe Event _ EntityType PersistenceEntityType Store
    → Pipe Event _ EntityType PersistenceEntityType Store :=
  concatMap (λ '(event, persistence),
    entityEventHandler persistence entityPersistence eventHandlers event
      sideHandlers).
End Handler.
End SideHandlers.

(** * The packaged handler with a handler wrapper (creation type ['new']) *)

Module Package.
Section Handler.
Context {EventType EntityType PersistenceEntityType Any : Type}.
Context `{!Persistable EventType, !Tagged EventType, !Handled EntityType}.

Local Abbreviation Event := (EventOrCluster EventType Any).
Local Abbreviation Task := (Async EntityType PersistenceEntityType).

Local Abbreviation EntityEventHandler :=
  (EntityEventHandler EventType Any EntityType).

(** [entityEventHandler], the table read by its own entries and its functions
    returning entities, as their type says. *)
Definition entityEventHandler
    (persistence : handle)
    (entityPersistence : PersistenceEntityType)
    (eventHandlers : gmap string EntityEventHandler)
    (event : Event)
  : Task (WithMeta EntityType PersistenceEntityType) :=
  let eventId :=
    match event with Cluster e0 _ => id_of e0 | Single e => id_of e end in
  let eventType :=
    match event with
    | Cluster e0 _ => eventType (meta_of e0)
    | Single e => eventType (meta_of e)
    end in
  currentEntity ←
    try_catch (await (Get persistence entityPersistence eventId))
      (λ err,
        (* continue if it's new, otherwise throw *)
        if negb (eventType =? "new")%string then Raise err else Return None);
  updatedEntity ←
    match eventHandlers !! eventType with
    | Some handler => lift (handler currentEntity event)
    | None => Raise not_a_function
    end;
  let handledEntity := updatedEntity in
  if truthy (deleted handledEntity) then
    _ ← await (Remove persistence entityPersistence eventId);
    Return {| value_of := handledEntity;
              meta := {| entity := entityPersistence;
                         eventType := eventType |} |}
  else
    match entity_id handledEntity with
    | Some id =>
        if negb (truthy id) then Raise cannot_save
        else
          _ ← await (Put persistence entityPersistence id handledEntity);
          Return {| value_of := handledEntity;
                    meta := {| entity := entityPersistence;
                               eventType := eventType |} |}
    | None => Raise cannot_save
    end.

(** [Object.keys(eventHandlers).reduce((acc, key) => { acc[key] =
    eventHandlerWrapper(() => eventHandlers[key]); return acc }, {})] *)
Definition wrappedEventHandlers
    (eventHandlerWrapper : (unit → EntityEventHandler) → EntityEventHandler)
    (eventHandlers : gmap string EntityEventHandler)
  : gmap string EntityEventHandler :=
  (λ handler, eventHandlerWrapper (λ _, handler)) <$> eventHandlers.

Definition entityServiceFactory {Store : Type}
    `{!Persistence EntityType PersistenceEntityType Store}
    (entityPersistence : PersistenceEntityType)
    (eventHandlers : gmap string EntityEventHandler)
    (eventHandlerWrapper :
       option ((unit → EntityEventHandler) → EntityEventHandler))
  : Action Event → Pipe Event _ EntityType PersistenceEntityType Store
    → Pipe Event _ EntityType PersistenceEntityType Store :=
  concatMap (λ '(event, persistence),
    match eventHandlerWrapper with
    | Some wrapper =>
        entityEventHandler persistence entityPersistence
          (wrappedEventHandlers wrapper eventHandlers) event
    | None =>
        entityEventHandler persistence entityPersistence eventHandlers event
    end).
End Handler.
End Package.

(** ** Vocabulary for stating what a cycle does *)

(** The element the handler routes by. *)
Definition first_event {EventType Any} (event : EventOrCluster EventType Any)
  : EventType :=
  match event with Single e => e | Cluster e _ => e end.

(** A handler function that is handed [event] whatever event it is called
    with. *)
Definition handed {EventType Any EntityType X}
    (event : EventOrCluster EventType Any)
    (f : option EntityType → EventOrCluster EventType Any → X)
  : option EntityType → EventOrCluster EventType Any → X :=
  λ current _, f current event.

(** The settled entity with its routing stamp, when the store call
    succeeded. *)
Definition settled_as {A EntityType PersistenceEntityType}
    (c : PersistenceEntityType) (type : string) (handled : EntityType)
    (r : outcome A) : outcome (WithMeta EntityType PersistenceEntityType) :=
  match r with
  | Resolved _ =>
      Resolved {| value_of := handled;
                  meta := {| entity := c; eventType := type |} |}
  | Rejected err => Rejected err
  end.

(** The fetch answered [r] and the cycle goes on with [current] as the
    current entity: the record was found, or the fetch failed on an event of
    the creation type. *)
Definition checks_out {EntityType} (creation type : string)
    (r : reply EntityType) (current : option EntityType) : Prop :=
  r = Resolved current ∨ (∃ err, r = Rejected err ∧ type = creation ∧ current = None).

(** Stated from the specification (persist step): a settled entity marked
    deleted is removed under the event's id; otherwise it needs a non-empty
    id and is upserted under it, and without one the cycle fails with no
    store call. *)
Definition persist_step {EntityType PersistenceEntityType Store}
    `{!Handled EntityType} `{!Persistence EntityType PersistenceEntityType Store}
    (persistence : handle) (c : PersistenceEntityType) (eventId type : string)
    (handled : EntityType) (w : World Store)
  : outcome (WithMeta EntityType PersistenceEntityType) * World Store
    * list (Op EntityType PersistenceEntityType * reply EntityType) :=
  if truthy (deleted handled) then
    let '(r, w1) := perform (Remove persistence c eventId) w in
    (settled_as c type handled r, w1, [(Remove persistence c eventId, r)])
  else
    match entity_id handled with
    | Some id =>
        if truthy id then
          let '(r, w1) := perform (Put persistence c id handled) w in
          (settled_as c type handled r, w1, [(Put persistence c id handled, r)])
        else (Rejected cannot_save, w, [])
    | None => (Rejected cannot_save, w, [])
    end.

(** Stated from the specification (testable properties): the left fold of the
    transition functions over the events, from an entity that may be
    absent. *)
Definition transition {EventType Any EntityType} `{!Tagged EventType}
    (eventHandlers : gmap string (EntityEventHandler EventType Any EntityType))
    (current : outcome (option EntityType))
    (event : EventOrCluster EventType Any) : outcome (option EntityType) :=
  match current with
  | Resolved entity =>
      match eventHandlers !! eventType (meta_of (first_event event)) with
      | Some handler =>
          match handler entity event with
          | Resolved updated => Resolved (Some updated)
          | Rejected err => Rejected err
          end
      | None => Rejected not_a_function
      end
  | Rejected err => Rejected err
  end.

Definition fold_transitions {EventType Any EntityType} `{!Tagged EventType}
    (eventHandlers : gmap string (EntityEventHandler EventType Any EntityType))
    (current : option EntityType)
    (events : list (EventOrCluster EventType Any))
  : outcome (option EntityType) :=
  fold_left (transition eventHandlers) events (Resolved current).

(** An entity that a cycle upserts under [id]: not marked deleted and carrying
    that id. *)
Definition kept_under {EntityType} `{!Handled EntityType} (id : string)
    (o : outcome (option EntityType)) : Prop :=
  ∃ e, o = Resolved (Some e) ∧ truthy (deleted e) = false
       ∧ entity_id e = Some id.

(** The table a packaged service hands to the handler. *)
Definition effectiveHandlers {EventType Any EntityType}
    (eventHandlerWrapper :
       option ((unit → EntityEventHandler EventType Any EntityType)
               → EntityEventHandler EventType Any EntityType))
    (eventHandlers : gmap string (EntityEventHandler EventType Any EntityType))
  : gmap string (EntityEventHandler EventType Any EntityType) :=
  match eventHandlerWrapper with
  | Some wrapper => Package.wrappedEventHandlers wrapper eventHandlers
  | None => eventHandlers
  end.

(** What it is for the cycles of one subscription of [service], whose cycles
    are the computations [project], to run one at a time in arrival order,
    after the schedule [acts]. *)
Definition one_at_a_time
    {EventType EntityType PersistenceEntityType Any Store R : Type}
    `{!Persistable EventType}
    `{!Persistence EntityType PersistenceEntityType Store}
    (service : Action (EventOrCluster EventType Any)
               → Pipe (EventOrCluster EventType Any) R EntityType
                   PersistenceEntityType Store
               → Pipe (EventOrCluster EventType Any) R EntityType
                   PersistenceEntityType Store)
    (project : EventOrCluster EventType Any * handle
               → Async EntityType PersistenceEntityType R)
    (c : PersistenceEntityType) (w0 : World Store)
    (acts : list (Action (EventOrCluster EventType Any))) : Prop :=
  let p := schedule service acts (subscribed_pipe w0) in
  let reference := sequentially project 0 (accepted None acts) w0 in
  (* at most one cycle is in flight *)
  size (active p) ≤ 1
  (* what has happened is an initial part of the cycles run one after the
     other *)
  ∧ journal p `prefix_of` reference.1.1.1
  (* whatever cycle k+1 does comes after cycle k has emitted *)
  ∧ (∀ i m k, journal p !! i = Some m → cycle_of m = S k →
       ∃ j, j < i ∧ journal p !! j = Some (Emitted k))
  (* nothing comes after a cycle that aborted *)
  ∧ (∀ i k e, journal p !! i = Some (Aborted k e) → length (journal p) = S i)
  (* once nothing is in flight or waiting, or the stream has failed, all is
     as if the cycles had run one after the other *)
  ∧ (quiescent p ∨ failure p ≠ None →
     (journal p, world p, out p, failure p) = reference)
  (* the fetch of a cycle is answered from the world that the cycles before
     it, run one after the other, have left *)
  ∧ (∀ pre event persistence post m,
       accepted None acts = pre ++ (event, persistence) :: post →
       journal p !! (length (sequentially project 0 pre w0).1.1.1 + 1) = Some m →
       m = Performed (length pre)
             (Get persistence c (id_of (first_event event)))
             (get ((sequentially project 0 pre w0).1.1.2 persistence) c
                (id_of (first_event event)))).

(** The persistence object and the collection that a store call addresses. *)
Definition addressed {EntityType PersistenceEntityType}
    (op : Op EntityType PersistenceEntityType)
  : handle * PersistenceEntityType :=
  match op with Get h c _ | Put h c _ _ | Remove h c _ => (h, c) end.

(** The coordination step of a cycle: [sideHandlers && sideHandlers[eventType]]
    applied to the current entity, the event and the updated entity, and the
    updated entity as it is when there is no such function. *)
Definition coordination {EventType Any EntityType PersistenceEntityType}
    `{!Tagged EventType}
    (sideHandlers :
       option (gmap string
                 (SideEventHandler EventType Any EntityType
                    PersistenceEntityType)))
    (event : EventOrCluster EventType Any) (current : option EntityType)
    (updated : EntityType)
  : Async EntityType PersistenceEntityType EntityType :=
  match sideHandlers
        ≫= (λ table, table !! eventType (meta_of (first_event event))) with
  | Some side => side current event updated
  | None => Return updated
  end.

(** * Tables written as object literals

    [eventHandlers[eventType]] and [sideHandlers[eventType]] read a property
    of an object.  The handlers of [SideHandlers] and [Package] above read a
    table by its own entries: that is what the property read finds on a table
    that has no prototype, and on every table under a key that is an own entry
    of it or is not the name of a member it inherits.  A table written as an
    object literal, as the tables of the test suite are, inherits the members
    of [Object.prototype], and under their names the property read finds them
    where the table has no own entry.  The handlers of the module [Literal]
    read their tables in that way; they also follow an entity that is [null]
    or [undefined] to the property read that throws.  An entity that is
    neither is a record of data: it has no methods of its own and is no
    thenable. *)

(** The members of [Object.prototype]. *)
Inductive Member : Type :=
| member_constructor
| member_toString
| member_toLocaleString
| member_valueOf
| member_hasOwnProperty
| member_isPrototypeOf
| member_propertyIsEnumerable
| member_proto
| member_defineGetter
| member_defineSetter
| member_lookupGetter
| member_lookupSetter.

Definition Object_prototype : gmap string Member :=
  list_to_map
    [("constructor", member_constructor);
     ("toString", member_toString);
     ("toLocaleString", member_toLocaleString);
     ("valueOf", member_valueOf);
     ("hasOwnProperty", member_hasOwnProperty);
     ("isPrototypeOf", member_isPrototypeOf);
     ("propertyIsEnumerable", member_propertyIsEnumerable);
     ("__proto__", member_proto);
     ("__defineGetter__", member_defineGetter);
     ("__defineSetter__", member_defineSetter);
     ("__lookupGetter__", member_lookupGetter);
     ("__lookupSetter__", member_lookupSetter)].

(** What the property read [table[key]] finds on an object literal. *)
Inductive Property (V : Type) : Type :=
| Own (v : V)
| Inherited (m : Member)
| Missing.
Arguments Own {V} v.
Arguments Inherited {V} m.
Arguments Missing {V}.

Definition property {V} (table : gmap string V) (key : string) : Property V :=
  match table !! key with
  | Some v => Own v
  | None =>
      match Object_prototype !! key with
      | Some m => Inherited m
      | None => Missing
      end
  end.

(** [null] and [undefined]. *)
Inductive Nullish : Type := null | undefined.

(** The values of an entity type that are [null] or [undefined]: a function
    of a table may return one. *)
Class Nullable (T : Type) := nullish : T → option Nullish.

(** [value.property] where [value] is [null] or [undefined]. *)
Definition cannot_read_of (value : Nullish) (property : string) : exn :=
  TypeError ("Cannot read properties of "
             ++ match value with null => "null" | undefined => "undefined" end
             ++ " (reading '" ++ property ++ "')").

(** What the call of a function found in a table has returned, as far as the
    handler goes on to look at it: an entity; a value that is neither [null]
    nor [undefined] and has no property [deleted] or [id] (a string, a
    boolean, a new empty object); or [undefined].  [Outside] stands for what
    these sources do not determine: a function of a table called with
    arguments that are not of the types it declares, and a table handed on
    where an entity is expected although entries of it would be read as
    properties of an entity. *)
Inductive Returned (EntityType : Type) : Type :=
| AnEntity (e : EntityType)
| Bare
| Nothing
| Outside.
Arguments AnEntity {EntityType} e.
Arguments Bare {EntityType}.
Arguments Nothing {EntityType}.
Arguments Outside {EntityType}.

(** [table[key](currentEntity, event, ...)] where [table[key]] is the member
    [m] of [Object.prototype], called with the table as [this]; [callee] is
    the expression called and [read] lists the entries of the table that
    would be read should the table itself be returned. *)
Definition call_member {EntityType V} `{!Nullable EntityType}
    (m : Member) (table : gmap string V) (callee : string)
    (read : list string) (currentEntity : option EntityType)
  : outcome (Returned EntityType) :=
  match m with
  | member_constructor =>
      (* Object(currentEntity) *)
      Resolved match currentEntity with
               | Some e =>
                   match nullish e with
                   | Some _ => Bare
                   | None => AnEntity e
                   end
               | None => Bare
               end
  | member_toString =>
      (* '[object Object]' *)
      Resolved Bare
  | member_toLocaleString =>
      (* this.toString() *)
      Resolved match table !! "toString" with
               | Some _ => Outside
               | None => Bare
               end
  | member_valueOf =>
      (* this *)
      Resolved (if bool_decide (Exists (λ key, is_Some (table !! key)) read)
                then Outside else Bare)
  | member_hasOwnProperty | member_isPrototypeOf
  | member_propertyIsEnumerable =>
      (* a boolean *)
      Resolved Bare
  | member_proto =>
      (* Object.prototype, which is not a function *)
      Rejected (TypeError (callee ++ " is not a function"))
  | member_defineGetter =>
      (* the event is not a function *)
      Rejected
        (TypeError "Object.prototype.__defineGetter__: Expecting function")
  | member_defineSetter =>
      Rejected
        (TypeError "Object.prototype.__defineSetter__: Expecting function")
  | member_lookupGetter | member_lookupSetter =>
      (* no accessor under that key *)
      Resolved Nothing
  end.

Module Literal.
Module SideHandlers.
Section Handler.
Context {EventType EntityType PersistenceEntityType Any : Type}.
Context `{!Persistable EventType, !Tagged EventType, !Handled EntityType}.
Context `{!Nullable EntityType}.

Local Abbreviation Event := (EventOrCluster EventType Any).
Local Abbreviation Task := (Async EntityType PersistenceEntityType).
Local Abbreviation EntityEventHandler :=
  (EntityEventHandler EventType Any EntityType).
Local Abbreviation SideEventHandler :=
  (SideEventHandler EventType Any EntityType PersistenceEntityType).

(** The result is [None] where the cycle has gone [Outside]. *)
Definition entityEventHandler
    (persistence : handle)
    (entityPersistence : PersistenceEntityType)
    (eventHandlers : gmap string EntityEventHandler)
    (event : Event)
    (sideHandlers : option (gmap string SideEventHandler))
  : Task (option (WithMeta EntityType PersistenceEntityType)) :=
  let eventId :=
    match event with Cluster e0 _ => id_of e0 | Single e => id_of e end in
  let eventType :=
    match event with
    | Cluster e0 _ => eventType (meta_of e0)
    | Single e => eventType (meta_of e)
    end in
  currentEntity ←
    try_catch (await (Get persistence entityPersistence eventId))
      (λ err,
        (* continue if it's an add, otherwise throw *)
        if negb (eventType =? "add")%string then Raise err else Return None);
  updatedEntity ←
    match property eventHandlers eventType with
    | Own handler =>
        updated ← lift (handler currentEntity event);
        Return (AnEntity updated)
    | Inherited member =>
        lift (call_member member eventHandlers "eventHandlers[eventType]"
                ["deleted"; "id"] currentEntity)
    | Missing => Raise not_a_function
    end;
  handledEntity ←
    match sideHandlers with
    | Some table =>
        match property table eventType with
        | Own side =>
            match updatedEntity with
            | AnEntity updated =>
                handled ← side currentEntity event updated;
                Return (AnEntity handled)
            | _ => Return Outside
            end
        | Inherited member =>
            match updatedEntity with
            | Outside => Return Outside
            | _ =>
                lift (call_member member table "sideHandlers[eventType]"
                        ["deleted"; "id"; "then"] currentEntity)
            end
        | Missing => Return updatedEntity
        end
    | None => Return updatedEntity
    end;
  match handledEntity with
  | AnEntity handledEntity =>
      match nullish handledEntity with
      | Some value => Raise (cannot_read_of value "deleted")
      | None =>
          if truthy (deleted handledEntity) then
            _ ← await (Remove persistence entityPersistence eventId);
            Return (Some {| value_of := handledEntity;
                            meta := {| entity := entityPersistence;
                                       eventType := eventType |} |})
          else
            match entity_id handledEntity with
            | Some id =>
                if negb (truthy id) then Raise cannot_save
                else
                  _ ← await (Put persistence entityPersistence id
                               handledEntity);
                  Return (Some {| value_of := handledEntity;
                                  meta := {| entity := entityPersistence;
                                             eventType := eventType |} |})
            | None => Raise cannot_save
            end
      end
  | Bare => Raise cannot_save
  | Nothing => Raise (cannot_read_of undefined "deleted")
  | Outside => Return None
  end.
End Handler.
End SideHandlers.

Module Package.
Section Handler.
Context {EventType EntityType PersistenceEntityType Any : Type}.
Context `{!Persistable EventType, !Tagged EventType, !Handled EntityType}.
Context `{!Nullable EntityType}.

Local Abbreviation Event := (EventOrCluster EventType Any).
Local Abbreviation Task := (Async EntityType PersistenceEntityType).
Local Abbreviation EntityEventHandler :=
  (EntityEventHandler EventType Any EntityType).

(** The result is [None] where the cycle has gone [Outside]. *)
Definition entityEventHandler
    (persistence : handle)
    (entityPersistence : PersistenceEntityType)
    (eventHandlers : gmap string EntityEventHandler)
    (event : Event)
  : Task (option (WithMeta EntityType PersistenceEntityType)) :=
  let eventId :=
    match event with Cluster e0 _ => id_of e0 | Single e => id_of e end in
  let eventType :=
    match event with
    | Cluster e0 _ => eventType (meta_of e0)
    | Single e => eventType (meta_of e)
    end in
  currentEntity ←
    try_catch (await (Get persistence entityPersistence eventId))
      (λ err,
        (* continue if it's new, otherwise throw *)
        if negb (eventType =? "new")%string then Raise err else Return None);
  updatedEntity ←
    match property eventHandlers eventType with
    | Own handler =>
        updated ← lift (handler currentEntity event);
        Return (AnEntity updated)
    | Inherited member =>
        lift (call_member member eventHandlers "eventHandlers[eventType]"
                ["deleted"; "id"] currentEntity)
    | Missing => Raise not_a_function
    end;
  let handledEntity := updatedEntity in
  match handledEntity with
  | AnEntity handledEntity =>
      match nullish handledEntity with
      | Some value => Raise (cannot_read_of value "deleted")
      | None =>
          if truthy (deleted handledEntity) then
            _ ← await (Remove persistence entityPersistence eventId);
            Return (Some {| value_of := handledEntity;
                            meta := {| entity := entityPersistence;
                                       eventType := eventType |} |})
          else
            match entity_id handledEntity with
            | Some id =>
                if negb (truthy id) then Raise cannot_save
                else
                  _ ← await (Put persistence entityPersistence id
                               handledEntity);
                  Return (Some {| value_of := handledEntity;
                                  meta := {| entity := entityPersistence;
                                             eventType := eventType |} |})
            | None => Raise cannot_save
            end
      end
  | Bare => Raise cannot_save
  | Nothing => Raise (cannot_read_of undefined "deleted")
  | Outside => Return None
  end.
End Handler.
End Package.

(** ** Vocabulary for stating what a cycle on such tables does *)

Section Steps.
Context {EventType EntityType PersistenceEntityType Any Store : Type}.
Context `{!Tagged EventType, !Handled EntityType, !Nullable EntityType}.
Context `{!Persistence EntityType PersistenceEntityType Store}.

(** The transition step: [eventHandlers[eventType](currentEntity, event)]. *)
Definition transition
    (eventHandlers : gmap string (EntityEventHandler EventType Any EntityType))
    (event : EventOrCluster EventType Any) (current : option EntityType)
  : outcome (Returned EntityType) :=
  match property eventHandlers (eventType (meta_of (first_event event))) with
  | Own handler =>
      match handler current event with
      | Resolved updated => Resolved (AnEntity updated)
      | Rejected err => Rejected err
      end
  | Inherited member =>
      call_member member eventHandlers "eventHandlers[eventType]"
        ["deleted"; "id"] current
  | Missing => Rejected not_a_function
  end.

(** The coordination step: [sideHandlers && sideHandlers[eventType]] called
    with the current entity, the event and what the transition step
    returned. *)
Definition coordination
    (sideHandlers :
       option (gmap string
                 (SideEventHandler EventType Any EntityType
                    PersistenceEntityType)))
    (event : EventOrCluster EventType Any) (current : option EntityType)
    (updated : Returned EntityType)
  : Async EntityType PersistenceEntityType (Returned EntityType) :=
  match sideHandlers with
  | Some table =>
      match property table (eventType (meta_of (first_event event))) with
      | Own side =>
          match updated with
          | AnEntity updated =>
              handled ← side current event updated;
              Return (AnEntity handled)
          | _ => Return Outside
          end
      | Inherited member =>
          match updated with
          | Outside => Return Outside
          | _ =>
              lift (call_member member table "sideHandlers[eventType]"
                      ["deleted"; "id"; "then"] current)
          end
      | Missing => Return updated
      end
  | None => Return updated
  end.

(** The persist step on what the coordination step left: the property read
    that throws on [null] and [undefined], the missing-id error on a value
    without [deleted] and [id], and the persist step of an entity. *)
Definition persist_step
    (persistence : handle) (c : PersistenceEntityType) (eventId type : string)
    (handled : Returned EntityType) (w : World Store)
  : outcome (option (WithMeta EntityType PersistenceEntityType)) * World Store
    * list (Op EntityType PersistenceEntityType * reply EntityType) :=
  match handled with
  | AnEntity handled =>
      match nullish handled with
      | Some value => (Rejected (cannot_read_of value "deleted"), w, [])
      | None =>
          let '(o, w1, j) := persist_step persistence c eventId type handled w in
          (match o with
           | Resolved r => Resolved (Some r)
           | Rejected err => Rejected err
           end, w1, j)
      end
  | Bare => (Rejected cannot_save, w, [])
  | Nothing => (Rejected (cannot_read_of undefined "deleted"), w, [])
  | Outside => (Resolved None, w, [])
  end.
End Steps.
End Literal.

(** * Deduplication *)

Section Dedup.
Context {T : Type} `{!Persistable T}.

(** The predicate of [filter]: it reads and updates the [Map] it closes
    over. *)
Definition previouslyUnseen (map : gmap string bool) (event : T)
  : bool * gmap string bool :=
  let hasId := bool_decide (is_Some (map !! id_of event)) in
  if hasId then (false, map) else (true, <[id_of event := true]> map).

(** [filter(predicate)] over the values pushed through one instance, whose
    [Map] is in state [map] when the first of them arrives. *)
Fixpoint feed (map : gmap string bool) (events : list T)
  : list T * gmap string bool :=
  match events with
  | [] => ([], map)
  | event :: rest =>
      let '(keep, map1) := previouslyUnseen map event in
      let '(passed, map2) := feed map1 rest in
      (if keep then event :: passed else passed, map2)
  end.

(** What the predicate answers for each of the values, in order. *)
Fixpoint verdicts (map : gmap string bool) (events : list T) : list bool :=
  match events with
  | [] => []
  | event :: rest =>
      let '(keep, map1) := previouslyUnseen map event in
      keep :: verdicts map1 rest
  end.

(** [filterPreviouslySeenIds()]: a new instance, with [new Map()]. *)
Definition filterPreviouslySeenIds : gmap string bool := ∅.
End Dedup.

(** * Subjects *)

Section Subjects.
Context {T : Type}.

(** [Subject] and [BehaviorSubject] of [rxjs]: a subject with the values each
    of its observers has received so far; a [BehaviorSubject] also holds its
    current value. *)
Inductive SubjectLike : Type :=
| BehaviorSubject (current : T) (observers : list (list T))
| Subject (observers : list (list T)).

(** [subject$.subscribe(observer)]: a [BehaviorSubject] sends its current
    value at once, a [Subject] nothing. *)
Definition subscribe (subject : SubjectLike) : SubjectLike :=
  match subject with
  | BehaviorSubject current observers =>
      BehaviorSubject current (observers ++ [[current]])
  | Subject observers => Subject (observers ++ [[]])
  end.

(** [subject$.next(event)] *)
Definition next (event : T) (subject : SubjectLike) : SubjectLike :=
  match subject with
  | BehaviorSubject _ observers =>
      BehaviorSubject event ((λ seen, seen ++ [event]) <$> observers)
  | Subject observers => Subject ((λ seen, seen ++ [event]) <$> observers)
  end.

Definition received (subject : SubjectLike) : list (list T) :=
  match subject with
  | BehaviorSubject _ observers | Subject observers => observers
  end.

(** [subjectFactory(defaultValue?)]: the subject behind the returned
    observable, and [addEvent]. *)
Definition subjectFactory `{!Truthy T} (defaultValue : option T)
  : SubjectLike * (T → SubjectLike → SubjectLike) :=
  let subject := match defaultValue with
                 | Some value =>
                     if truthy defaultValue then BehaviorSubject value []
                     else Subject []
                 | None => Subject []
                 end in
  let addEvent := λ event, next event in
  (subject, addEvent).

(** [{ ...event, meta }] *)
Definition addMeta (event : T) (meta : Meta string) : WithMeta T string :=
  {| value_of := event; meta := meta |}.
End Subjects.
Arguments SubjectLike : clear implicits.

(** An object is truthy. *)
#[global] Instance truthy_object {T E} : Truthy (WithMeta T E) := λ _, true.

(** [eventFactory(meta, defaultValue?)] *)
Definition eventFactory {T : Type} (meta : Meta string)
    (defaultValue : option (WithMeta T string))
  : SubjectLike (WithMeta T string)
    * (T → SubjectLike (WithMeta T string) → SubjectLike (WithMeta T string)) :=
  let subject := match defaultValue with
                 | Some value =>
                     if truthy defaultValue then BehaviorSubject value []
                     else Subject []
                 | None => Subject []
                 end in
  let addEvent := λ event, next (addMeta event meta) in
  (subject, addEvent).

(** [commandFactory(params)]: the function [command], which sends the event,
    with the [eventType] and the [entity] of [params] as its [meta], to the
    subject [command$] of [params]. *)
Definition commandFactory {T : Type} (params : Meta string)
  : T → SubjectLike (WithMeta T string) → SubjectLike (WithMeta T string) :=
  let command := λ event,
    next (addMeta event {| eventType := eventType params;
                           entity := entity params |}) in
  command.

(** The values [events] sent one after the other with [send]. *)
Definition sent {T E} (send : E → SubjectLike T → SubjectLike T)
    (events : list E) (subject : SubjectLike T) : SubjectLike T :=
  fold_left (λ s event, send event s) events subject.

(** What a subject sends at once to an observer that subscribes. *)
Definition replayed {T} (subject : SubjectLike T) : list T :=
  match subject with
  | BehaviorSubject current _ => [current]
  | Subject _ => []
  end.

(** * A store and a domain to run the pipeline on *)

(** Modelled from the spec: the persistence store, which lives in the packages
    [@taterer/persist] and [@taterer/persist-memory].  A collection-scoped
    keyspace; [get] fails with NotFound when the record is absent, [put]
    upserts and [remove] deletes one record. *)
Definition not_found : exn := Error "NotFound".

#[global] Instance memory {EntityType : Type}
  : Persistence EntityType string (gmap (string * string) EntityType) := {|
  get store collection id :=
    match store !! (collection, id) with
    | Some e => Resolved (Some e)
    | None => Rejected not_found
    end;
  put store collection id e := Resolved (<[(collection, id) := e]> store);
  remove store collection id := Resolved (delete (collection, id) store) |}.

(** The calculator domain of the test suite, with a removal event added.  The
    tests send single events with whole amounts, and that is where the
    transition functions below are those of the tests; handed a cluster they
    read its first element, which the functions of the tests do not. *)
Module Calculator.
Record CalcEvent : Type :=
  { id : string; amount : Z; meta : Meta string }.

Record Calc : Type :=
  { calc_id : option string; calc_amount : Z; calc_deleted : option bool }.

#[global] Instance calc_event_persistable : Persistable CalcEvent := id.
#[global] Instance calc_event_tagged : Tagged CalcEvent := meta.
#[global] Instance calc_handled : Handled Calc :=
  {| deleted := calc_deleted; entity_id := calc_id |}.
(** A sum is a record, never [null] or [undefined]. *)
#[global] Instance calc_nullable : Nullable Calc := λ _, None.

Abbreviation Event := (EventOrCluster CalcEvent CalcEvent).

Definition first_of (event : Event) : CalcEvent :=
  match event with Single e => e | Cluster e _ => e end.

(** [(entity, event) => ({ ...entity, id: event.id,
      amount: (entity?.amount || 0) + event.amount })] on a single event, as
    the test suite sends them, with whole amounts. *)
Definition addition (entity : option Calc) (event : Event) : outcome Calc :=
  Resolved {| calc_id := Some (id (first_of event));
              calc_amount :=
                (match entity with Some e => calc_amount e | None => 0 end
                 + amount (first_of event))%Z;
              calc_deleted := entity ≫= calc_deleted |}.

(** [(entity) => ({ ...entity, deleted: true })] *)
Definition removal (entity : option Calc) (event : Event) : outcome Calc :=
  Resolved {| calc_id := entity ≫= calc_id;
              calc_amount :=
                match entity with Some e => calc_amount e | None => 0%Z end;
              calc_deleted := Some true |}.

Definition eventHandlers : gmap string (option Calc → Event → outcome Calc) :=
  <["add" := addition]> (<["new" := addition]> (<["remove" := removal]> ∅)).

Definition calcEntity : string := "calc".
Definition memoryCalcTable : string := "line".

Definition event_of (type : string) (n : Z) : Event :=
  Single {| id := "test-1"; amount := n;
            meta := {| entity := calcEntity; eventType := type |} |}.

Definition memoryDB : World (gmap (string * string) Calc) := λ _, ∅.

(** A coordination function in the manner of the stock check of the test
    suite: it looks another record up and rejects sums above five. *)
Definition stockCheck : SideEventHandler CalcEvent CalcEvent Calc string :=
  λ _ _ updatedEntity,
    Await (Get 0 "shape" "sku1")
      (λ _, if (5 <? calc_amount updatedEntity)%Z
            then Raise (Error "Invalid stock")
            else Return updatedEntity).

Definition sideHandlers
  : gmap string (SideEventHandler CalcEvent CalcEvent Calc string) :=
  {["add" := stockCheck]}.

(** A coordination function that does not reject but halves the sum. *)
Definition halve : SideEventHandler CalcEvent CalcEvent Calc string :=
  λ _ _ updatedEntity,
    Return {| calc_id := calc_id updatedEntity;
              calc_amount := (calc_amount updatedEntity / 2)%Z;
              calc_deleted := calc_deleted updatedEntity |}.

(** [(entity) => ({ ...entity, id: 'elsewhere', deleted: true })] *)
Definition discard (entity : option Calc) (event : Event) : outcome Calc :=
  Resolved {| calc_id := Some "elsewhere";
              calc_amount :=
                match entity with Some e => calc_amount e | None => 0%Z end;
              calc_deleted := Some true |}.

(** A store that holds the sum 1 under the id of the events. *)
Definition memoryDB1 : World (gmap (string * string) Calc) :=
  λ _, {[ (memoryCalcTable, "test-1")
          := {| calc_id := Some "test-1"; calc_amount := 1%Z;
                calc_deleted := None |} ]}.

(** The store is there, both events arrive before any promise has advanced,
    then the promises advance until nothing is left to do. *)
Definition back_to_back (first second : Event) : list (Action Event) :=
  [PersistenceEmits 0; EventArrives first; EventArrives second;
   PromiseAdvances 0; PromiseAdvances 0; PromiseAdvances 0;
   PromiseAdvances 1; PromiseAdvances 1; PromiseAdvances 1].
End Calculator.

(** * The shop of the test suite: items, carts and the stock check

    The transition functions [setStock] and [decrementStock] of the item
    table, the cart table with [addItem] and [removeItem], and the aggregate
    handler that checks the stock.  Entities and events are [any] in the
    sources; they are typed here by the properties the tests give them.  The
    third entry of the item table, [changePrice], copies every property of its
    event into the entity; the tests send no such event and it is left out. *)

Module Shop.
(** A number of the domain: the test suite uses integers; arithmetic with
    [undefined] gives [NaN]. *)
Inductive number : Type :=
| Num (n : Z)
| NaN.

(** [{ id, quantity }] *)
Record CartItem : Type := { item_id : string; quantity : Z }.

(** An entity of either table, [any] in the sources: the properties the
    handlers read and write, each of which may be missing. *)
Record Row : Type := {
  row_id : option string;
  row_name : option string;
  row_stock : option number;
  row_items : option (list (option CartItem));
  row_deleted : option bool }.

(** The events the test suite sends to the item service and to the cart
    service. *)
Record ItemEvent : Type := {
  item_event_id : string;
  item_event_meta : Meta string;
  item_event_name : option string;
  item_event_stock : Z }.

Record CartEvent : Type := {
  cart_event_id : string;
  cart_event_meta : Meta string;
  cart_event_item : CartItem }.

#[global] Instance item_event_persistable : Persistable ItemEvent :=
  item_event_id.
#[global] Instance item_event_tagged : Tagged ItemEvent := item_event_meta.
#[global] Instance cart_event_persistable : Persistable CartEvent :=
  cart_event_id.
#[global] Instance cart_event_tagged : Tagged CartEvent := cart_event_meta.
#[global] Instance row_handled : Handled Row :=
  {| deleted := row_deleted; entity_id := row_id |}.
(** A row is a record, never [null] or [undefined]. *)
#[global] Instance row_nullable : Nullable Row := λ _, None.

(** [MemoryEntity.shape] and [MemoryEntity.line] *)
Definition cart : string := "shape".
Definition item : string := "line".

(** Reading a property of [undefined]. *)
Definition cannot_read (property : string) : exn :=
  TypeError ("Cannot read properties of undefined (reading '" ++ property ++ "')").

Section Handlers.
Context {Any : Type}.

(** [(entity, event) => ({ ...entity, id: event.id,
      name: event.name || entity.name, stock: event.stock })].  An event that
    is an array has none of the properties read. *)
Definition setStock (entity : option Row) (event : EventOrCluster ItemEvent Any)
  : outcome Row :=
  let event_id :=
    match event with Single e => Some (item_event_id e) | Cluster _ _ => None end in
  let event_name :=
    match event with Single e => item_event_name e | Cluster _ _ => None end in
  let event_stock :=
    match event with
    | Single e => Some (Num (item_event_stock e))
    | Cluster _ _ => None
    end in
  if truthy event_name then
    Resolved {| row_id := event_id; row_name := event_name;
                row_stock := event_stock;
                row_items := entity ≫= row_items;
                row_deleted := entity ≫= row_deleted |}
  else
    match entity with
    | Some e =>
        Resolved {| row_id := event_id; row_name := row_name e;
                    row_stock := event_stock; row_items := row_items e;
                    row_deleted := row_deleted e |}
    | None => Rejected (cannot_read "name")
    end.

(** [(entity, event) => { let stock = entity.stock - event.stock;
      if (stock < 0) { stock = 0 }; return { ...entity, stock } }] *)
Definition decrementStock (entity : option Row)
    (event : EventOrCluster ItemEvent Any) : outcome Row :=
  match entity with
  | Some e =>
      let stock :=
        match row_stock e, event with
        | Some (Num s), Single ev => Num (s - item_event_stock ev)
        | _, _ => NaN
        end in
      let stock :=
        match stock with
        | Num n => if (n <? 0)%Z then Num 0 else Num n
        | NaN => NaN
        end in
      Resolved {| row_id := row_id e; row_name := row_name e;
                  row_stock := Some stock; row_items := row_items e;
                  row_deleted := row_deleted e |}
  | None => Rejected (cannot_read "stock")
  end.

(** [items.findIndex(i => i.id === event.item.id)]; [None] is [-1].  The
    callback throws on an element that is [undefined] and on an event without
    [item]. *)
Fixpoint findIndex (items : list (option CartItem)) (event_item : option CartItem)
  : outcome (option nat) :=
  match items with
  | [] => Resolved None
  | None :: _ => Rejected (cannot_read "id")
  | Some i :: rest =>
      match event_item with
      | None => Rejected (cannot_read "id")
      | Some it =>
          if (item_id i =? item_id it)%string then Resolved (Some 0)
          else match findIndex rest event_item with
               | Resolved index => Resolved (S <$> index)
               | Rejected err => Rejected err
               end
      end
  end.

(** [(entity, event) => { const items = [...entity?.items || []];
      const index = items.findIndex(i => i.id === event.item.id);
      if (index > -1) { items[index] = { ...items[index],
        quantity: items[index].quantity + event.item.quantity } }
      else { items.push(event.item) };
      return { ...entity, id: event.id, items } }] *)
Definition addItem (entity : option Row) (event : EventOrCluster CartEvent Any)
  : outcome Row :=
  let event_id :=
    match event with Single e => Some (cart_event_id e) | Cluster _ _ => None end in
  let event_item :=
    match event with Single e => Some (cart_event_item e) | Cluster _ _ => None end in
  let items := default [] (entity ≫= row_items) in
  match findIndex items event_item with
  | Rejected err => Rejected err
  | Resolved index =>
      let updated :=
        match index with
        | Some index =>
            match items !! index, event_item with
            | Some (Some i), Some it =>
                Resolved
                  (<[index := Some {| item_id := item_id i;
                                      quantity := quantity i + quantity it |}]>
                     items)
            | _, _ => Rejected (cannot_read "quantity")
            end
        | None => Resolved (items ++ [event_item])
        end in
      match updated with
      | Resolved items =>
          Resolved {| row_id := event_id; row_name := entity ≫= row_name;
                      row_stock := entity ≫= row_stock;
                      row_items := Some items;
                      row_deleted := entity ≫= row_deleted |}
      | Rejected err => Rejected err
      end
  end.

(** [(entity) => ({ ...entity, deleted: true })] *)
Definition removeItem (entity : option Row)
    (event : EventOrCluster CartEvent Any) : outcome Row :=
  Resolved {| row_id := entity ≫= row_id; row_name := entity ≫= row_name;
              row_stock := entity ≫= row_stock;
              row_items := entity ≫= row_items; row_deleted := Some true |}.

Definition cartEventHandlers
  : gmap string (EntityEventHandler CartEvent Any Row) :=
  <["addItem" := addItem]> (<["removeItem" := removeItem]> ∅).

(** [entity.items.filter(i => i.id === id).map(i => i.quantity)] *)
Fixpoint quantitiesWithId (items : list (option CartItem)) (id : string)
  : outcome (list Z) :=
  match items with
  | [] => Resolved []
  | None :: _ => Rejected (cannot_read "id")
  | Some i :: rest =>
      match quantitiesWithId rest id with
      | Resolved quantities =>
          Resolved (if (item_id i =? id)%string then quantity i :: quantities
                    else quantities)
      | Rejected err => Rejected err
      end
  end.

(** [quantities.reduce((acc, current) => acc + current)] *)
Definition reduce (quantities : list Z) : outcome Z :=
  match quantities with
  | [] => Rejected (TypeError "Reduce of empty array with no initial value")
  | first :: rest => Resolved (fold_left Z.add rest first)
  end.

(** [quantity > itemEntity.stock] *)
Definition exceeds (quantity : Z) (stock : option number) : bool :=
  match stock with
  | Some (Num s) => (s <? quantity)%Z
  | Some NaN | None => false
  end.

(** The aggregate handler for [addItem]; [memoryDB] is the store that
    [memoryDB$] replays.
    [async (_, event, entity) => {
       const memoryDB = await firstValueFrom(memoryDB$);
       const itemEntity = await memoryDB.get(item, event.item.id);
       const cartItemsWithId = entity.items.filter(i => i.id === event.item.id);
       const quantity = cartItemsWithId.map(i => i.quantity)
                          .reduce((acc, current) => acc + current);
       if (quantity > itemEntity.stock) { throw new Error('Invalid stock') };
       return entity }] *)
Definition checkStock (memoryDB : handle)
  : SideEventHandler CartEvent Any Row string :=
  λ _ event entity,
    match event with
    | Cluster _ _ => Raise (cannot_read "id")
    | Single e =>
        itemEntity ←
          await (Get memoryDB item (item_id (cart_event_item e)));
        lift
          match row_items entity with
          | None => Rejected (cannot_read "filter")
          | Some items =>
              match quantitiesWithId items (item_id (cart_event_item e)) with
              | Rejected err => Rejected err
              | Resolved quantities =>
                  match reduce quantities with
                  | Rejected err => Rejected err
                  | Resolved quantity =>
                      match itemEntity with
                      | None => Rejected (cannot_read "stock")
                      | Some itemEntity =>
                          if exceeds quantity (row_stock itemEntity)
                          then Rejected (Error "Invalid stock")
                          else Resolved entity
                      end
                  end
              end
          end
    end.

Definition cartAggregateHandlers (memoryDB : handle)
  : gmap string (SideEventHandler CartEvent Any Row string) :=
  {["addItem" := checkStock memoryDB]}.
End Handlers.

(** How many of the item [id] a list of cart items holds. *)
Definition held (id : string) (items : list (option CartItem)) : Z :=
  foldr (λ i total,
           match i with
           | Some i => if (item_id i =? id)%string then quantity i + total
                       else total
           | None => total
           end)%Z 0%Z items.

(** The ids of the items of a cart. *)
Definition ids (items : list (option CartItem)) : list string :=
  omap (λ i : option CartItem, item_id <$> i) items.

(** A stock that is a number and not negative. *)
Definition in_stock (stock : option number) : Prop :=
  ∃ n, stock = Some (Num n) ∧ (0 ≤ n)%Z.

(** [{ id: 'sku1', name: 'Something super interesting', stock: 2 }], the first
    of the available items of the tests. *)
Definition sku1 : Row :=
  {| row_id := Some "sku1"; row_name := Some "Something super interesting";
     row_stock := Some (Num 2); row_items := None; row_deleted := None |}.

(** The cart of the tests with one of that item in it. *)
Definition cart1 : Row :=
  {| row_id := Some "cart1"; row_name := None; row_stock := None;
     row_items := Some [Some {| item_id := "sku1"; quantity := 1 |}];
     row_deleted := None |}.

(** The store with its tables empty; with the available item; and with the
    available item and the cart. *)
Definition memoryDB : World (gmap (string * string) Row) := λ _, ∅.

Definition stocked : World (gmap (string * string) Row) :=
  λ _, {[ (item, "sku1") := sku1 ]}.

Definition stockedWithCart : World (gmap (string * string) Row) :=
  λ _, <[(cart, "cart1") := cart1]> {[ (item, "sku1") := sku1 ]}.

(** [{ id: 'cart1', meta: { entity: cart, eventType: 'addItem' },
       item: { id: 'sku1', quantity } }] *)
Definition addToCart (quantity : Z) : CartEvent :=
  {| cart_event_id := "cart1";
     cart_event_meta := {| entity := cart; eventType := "addItem" |};
     cart_event_item := {| item_id := "sku1"; quantity := quantity |} |}.

(** An item event for ['sku1'] that carries no name. *)
Definition stockEvent (type : string) (stock : Z) : ItemEvent :=
  {| item_event_id := "sku1";
     item_event_meta := {| entity := item; eventType := type |};
     item_event_name := None; item_event_stock := stock |}.
End Shop.

(** * Running one cycle *)

Section RunLemmas.
Context {EntityType PersistenceEntityType Store : Type}.
Context `{!Persistence EntityType PersistenceEntityType Store}.
Local Abbreviation Task := (Async EntityType PersistenceEntityType).

Lemma run_bind {A B} (m : Task A) (f : A → Task B) (w : World Store) :
  run (m ≫= f) w =
  match run m w with
  | (Resolved a, w1, j) =>
      let '(o, w2, j2) := run (f a) w1 in (o, w2, j ++ j2)
  | (Rejected e, w1, j) => (Rejected e, w1, j)
  end.
Proof.
  revert w. induction m as [a|e|op k IH]; intros w; cbn.
  - unfold mbind, async_bind. cbn. by destruct (run (f a) w) as [[o w2] j2].
  - done.
  - unfold mbind, async_bind in *. cbn. destruct (perform op w) as [r w1].
    rewrite IH. destruct (run (k r) w1) as [[[a|e] w2] j]; cbn; [|done].
    by destruct (run (f a) w2) as [[o w3] j3].
Qed.

Lemma perform_get h c i (w : World Store) :
  perform (Get h c i) w = (get (w h) c i, w).
Proof. done. Qed.

Lemma writes_app (j1 j2 : list (Op EntityType PersistenceEntityType * reply EntityType)) :
  writes (j1 ++ j2) = writes j1 ++ writes j2.
Proof. apply filter_app. Qed.

Lemma writes_get h c i r (j : list (Op EntityType PersistenceEntityType * reply EntityType)) :
  writes ((Get h c i, r) :: j) = writes j.
Proof. unfold writes. by rewrite filter_cons_False. Qed.

(** A computation that only reads leaves every store as it was. *)
Lemma run_read_only {A} (m : Task A) (w : World Store) :
  ReadOnly m → (run m w).1.2 = w ∧ writes (run m w).2 = [].
Proof.
  intros Hro. revert w.
  induction Hro as [a|e|h c i k _ IH]; intros w; [done..|].
  cbn [run]. rewrite perform_get. specialize (IH (get (w h) c i) w).
  destruct (run (k (get (w h) c i)) w) as [[o w2] j].
  cbn [fst snd] in *. by rewrite writes_get.
Qed.
End RunLemmas.

Section Cycle.
Context {EventType EntityType PersistenceEntityType Any Store : Type}.
Context `{!Persistable EventType, !Tagged EventType, !Handled EntityType}.
Context `{!Persistence EntityType PersistenceEntityType Store}.
Local Abbreviation Event := (EventOrCluster EventType Any).
Local Abbreviation Transitions :=
  (gmap string (option EntityType → Event → outcome EntityType)).
Local Abbreviation Coordinations :=
  (gmap string (option EntityType → Event → EntityType
                → Async EntityType PersistenceEntityType EntityType)).
Implicit Types (ev : Event) (w : World Store) (h : handle).
Implicit Types (c : PersistenceEntityType) (hs : Transitions).
Implicit Types (sh : option Coordinations) (cur : option EntityType).
Implicit Types (table : Coordinations) (f : option EntityType → Event → outcome EntityType).
Implicit Types (side : option EntityType → Event → EntityType
                → Async EntityType PersistenceEntityType EntityType).

Local Abbreviation id_ ev := (id_of (first_event ev)).
Local Abbreviation type_ ev := (eventType (meta_of (first_event ev))).

(** The cycle starts with the fetch, under the id of the first element. *)
Lemma run_handler h c hs ev sh w :
  run (SideHandlers.entityEventHandler h c hs ev sh) w =
  let '(o, w1, j) :=
    run (resume (SideHandlers.entityEventHandler h c hs ev sh)
           (get (w h) c (id_ ev))) w in
  (o, w1, (Get h c (id_ ev), get (w h) c (id_ ev)) :: j).
Proof. by destruct ev. Qed.

Lemma resume_rejected h c hs ev sh err :
  resume (SideHandlers.entityEventHandler h c hs ev sh) (Rejected err) =
  if (type_ ev =? "add")%string
  then resume (SideHandlers.entityEventHandler h c hs ev sh) (Resolved None)
  else Raise err.
Proof. destruct ev; cbn; by destruct (_ =? _)%string. Qed.

Lemma resume_checks_out h c hs ev sh r cur :
  checks_out "add" (type_ ev) r cur →
  resume (SideHandlers.entityEventHandler h c hs ev sh) r =
  resume (SideHandlers.entityEventHandler h c hs ev sh) (Resolved cur).
Proof.
  intros [->|(err & -> & Htype & ->)]; [done|].
  rewrite resume_rejected, Htype. done.
Qed.

Lemma run_after_checkout h c hs ev sh cur w :
  run (resume (SideHandlers.entityEventHandler h c hs ev sh) (Resolved cur)) w =
  match hs !! type_ ev with
  | None => (Rejected not_a_function, w, [])
  | Some f =>
      match f cur ev with
      | Rejected err => (Rejected err, w, [])
      | Resolved upd =>
          match run (match sh ≫= (λ table, table !! type_ ev) with
                     | Some side => side cur ev upd
                     | None => Return upd
                     end) w with
          | (Rejected err, w1, js) => (Rejected err, w1, js)
          | (Resolved handled, w1, js) =>
              let '(o, w2, jp) :=
                persist_step h c (id_ ev) (type_ ev) handled w1 in
              (o, w2, js ++ jp)
          end
      end
  end.
Proof.
  assert (resume (SideHandlers.entityEventHandler h c hs ev sh) (Resolved cur) =
    (updatedEntity ←
      match hs !! type_ ev with
      | Some handler => lift (handler cur ev)
      | None => Raise not_a_function
      end;
    handledEntity ←
      match sh ≫= (λ table, table !! type_ ev) with
      | Some side => side cur ev updatedEntity
      | None => Return updatedEntity
      end;
    if truthy (deleted handledEntity) then
      _ ← await (Remove h c (id_ ev));
      Return {| value_of := handledEntity;
                meta := {| entity := c; eventType := type_ ev |} |}
    else
      match entity_id handledEntity with
      | Some i =>
          if negb (truthy i) then Raise cannot_save
          else
            _ ← await (Put h c i handledEntity);
            Return {| value_of := handledEntity;
                      meta := {| entity := c; eventType := type_ ev |} |}
      | None => Raise cannot_save
      end)) as ->.
  { by destruct ev. }
  rewrite run_bind. unfold persist_step.
  destruct (hs !! _) as [f|]; [|done].
  destruct (f cur ev) as [upd|err]; cbn; [|done].
  rewrite run_bind.
  destruct (run _ w) as [[[handled|err] w1] js]; [|done].
  destruct (truthy (deleted handled)).
  - cbn. destruct (perform _ w1) as [[v|err] w2]; cbn; done.
  - destruct (entity_id handled) as [i|]; cbn; [|done].
    destruct (truthy i); cbn; [|done].
    destruct (perform _ w1) as [[v|err] w2]; cbn; done.
Qed.

(** The packaged handler goes on after the fetch as the other one does with
    no coordination table. *)
Lemma package_resume_resolved h c hs ev cur :
  resume (Package.entityEventHandler h c hs ev) (Resolved cur) =
  resume (SideHandlers.entityEventHandler h c hs ev None) (Resolved cur).
Proof. by destruct ev. Qed.

Lemma package_resume_rejected h c hs ev err :
  resume (Package.entityEventHandler h c hs ev) (Rejected err) =
  if (type_ ev =? "new")%string
  then resume (Package.entityEventHandler h c hs ev) (Resolved None)
  else Raise err.
Proof. destruct ev; cbn; by destruct (_ =? _)%string. Qed.

Lemma package_run_handler h c hs ev w :
  run (Package.entityEventHandler h c hs ev) w =
  let '(o, w1, j) :=
    run (resume (Package.entityEventHandler h c hs ev)
           (get (w h) c (id_ ev))) w in
  (o, w1, (Get h c (id_ ev), get (w h) c (id_ ev)) :: j).
Proof. by destruct ev. Qed.

Lemma package_resume_checks_out h c hs ev r cur :
  checks_out "new" (type_ ev) r cur →
  resume (Package.entityEventHandler h c hs ev) r =
  resume (Package.entityEventHandler h c hs ev) (Resolved cur).
Proof.
  intros [->|(err & -> & Htype & ->)]; [done|].
  rewrite package_resume_rejected, Htype. done.
Qed.

(** One whole cycle, phase by phase. *)
Lemma run_cycle h c hs ev sh w cur f upd o w1 js :
  checks_out "add" (type_ ev) (get (w h) c (id_ ev)) cur →
  hs !! type_ ev = Some f →
  f cur ev = Resolved upd →
  run (match sh ≫= (λ table, table !! type_ ev) with
       | Some side => side cur ev upd
       | None => Return upd
       end) w = (o, w1, js) →
  run (SideHandlers.entityEventHandler h c hs ev sh) w =
  match o with
  | Rejected err =>
      (Rejected err, w1, (Get h c (id_ ev), get (w h) c (id_ ev)) :: js)
  | Resolved handled =>
      let '(o2, w2, jp) := persist_step h c (id_ ev) (type_ ev) handled w1 in
      (o2, w2, (Get h c (id_ ev), get (w h) c (id_ ev)) :: js ++ jp)
  end.
Proof.
  intros Hcur Hf Hupd Hside.
  rewrite run_handler, (resume_checks_out _ _ _ _ _ _ _ Hcur).
  rewrite run_after_checkout, Hf, Hupd, Hside.
  destruct o as [handled|err]; [|done].
  by destruct (persist_step _ _ _ _ _ _) as [[o2 w2] jp].
Qed.

Lemma package_run_cycle h c hs ev w cur f upd :
  checks_out "new" (type_ ev) (get (w h) c (id_ ev)) cur →
  hs !! type_ ev = Some f →
  f cur ev = Resolved upd →
  run (Package.entityEventHandler h c hs ev) w =
  let '(o2, w2, jp) := persist_step h c (id_ ev) (type_ ev) upd w in
  (o2, w2, (Get h c (id_ ev), get (w h) c (id_ ev)) :: jp).
Proof.
  intros Hcur Hf Hupd.
  rewrite package_run_handler, (package_resume_checks_out _ _ _ _ _ _ Hcur).
  rewrite package_resume_resolved, run_after_checkout, Hf, Hupd. cbn.
  by destruct (persist_step _ _ _ _ _ _) as [[o2 w2] jp].
Qed.

(** What a cycle does once the fetch has answered, whatever the answer. *)
Lemma run_handler_cases h c hs ev sh w :
  let fetch := (Get h c (id_ ev), get (w h) c (id_ ev)) in
  (∃ err, get (w h) c (id_ ev) = Rejected err ∧ (type_ ev =? "add")%string = false
     ∧ run (SideHandlers.entityEventHandler h c hs ev sh) w
       = (Rejected err, w, [fetch]))
  ∨ (∃ cur, checks_out "add" (type_ ev) (get (w h) c (id_ ev)) cur
     ∧ run (SideHandlers.entityEventHandler h c hs ev sh) w =
       let '(o, w1, j) :=
         run (resume (SideHandlers.entityEventHandler h c hs ev sh)
                (Resolved cur)) w in
       (o, w1, fetch :: j)).
Proof.
  intros fetch. subst fetch. rewrite run_handler.
  destruct (get (w h) c (id_ ev)) as [cur|err] eqn:Hget.
  - right. exists cur. split; [by left|done].
  - rewrite resume_rejected. destruct (type_ ev =? "add")%string eqn:Htype.
    + right. exists None. split; [|done].
      right. exists err. by apply String.eqb_eq in Htype.
    + left. exists err. done.
Qed.

Lemma package_run_handler_cases h c hs ev w :
  let fetch := (Get h c (id_ ev), get (w h) c (id_ ev)) in
  (∃ err, get (w h) c (id_ ev) = Rejected err ∧ (type_ ev =? "new")%string = false
     ∧ run (Package.entityEventHandler h c hs ev) w = (Rejected err, w, [fetch]))
  ∨ (∃ cur, checks_out "new" (type_ ev) (get (w h) c (id_ ev)) cur
     ∧ run (Package.entityEventHandler h c hs ev) w =
       let '(o, w1, j) :=
         run (resume (SideHandlers.entityEventHandler h c hs ev None)
                (Resolved cur)) w in
       (o, w1, fetch :: j)).
Proof.
  intros fetch. subst fetch. rewrite package_run_handler.
  destruct (get (w h) c (id_ ev)) as [cur|err] eqn:Hget.
  - right. exists cur. split; [by left|]. by rewrite package_resume_resolved.
  - rewrite package_resume_rejected.
    destruct (type_ ev =? "new")%string eqn:Htype.
    + right. exists None. split; [|by rewrite package_resume_resolved].
      right. exists err. by apply String.eqb_eq in Htype.
    + left. exists err. done.
Qed.

(** The persist step makes one store call that takes effect, or none. *)
Lemma persist_step_writes h c i type (handled : EntityType) w :
  match persist_step h c i type handled w with
  | (Resolved _, w', j) =>
      ∃ op, j = [(op, Resolved None)] ∧ is_write op ∧ w' = (perform op w).2
  | (Rejected _, w', j) => writes j = [] ∧ w' = w
  end.
Proof.
  unfold persist_step. destruct (truthy (deleted handled)).
  - destruct (perform (Remove h c i) w) as [r w'] eqn:Hp.
    unfold perform in Hp. destruct (remove (w h) c i) as [s|err] eqn:Hr.
    + injection Hp as <- <-. cbn. eexists. split; [done|]. split; [constructor|].
      unfold perform. by rewrite Hr.
    + by injection Hp as <- <-.
  - destruct (entity_id handled) as [i'|]; [|done].
    destruct (truthy i'); [|done].
    destruct (perform (Put h c i' handled) w) as [r w'] eqn:Hp.
    unfold perform in Hp. destruct (put (w h) c i' handled) as [s|err] eqn:Hr.
    + injection Hp as <- <-. cbn. eexists. split; [done|]. split; [constructor|].
      unfold perform. by rewrite Hr.
    + by injection Hp as <- <-.
Qed.

(** All or nothing, for coordination functions that only read. *)
Lemma after_checkout_all_or_nothing h c hs ev sh cur w :
  (∀ table side upd,
     sh = Some table → table !! type_ ev = Some side →
     ReadOnly (side cur ev upd)) →
  match run (resume (SideHandlers.entityEventHandler h c hs ev sh)
               (Resolved cur)) w with
  | (Resolved _, w', j) =>
      ∃ op, writes j = [(op, Resolved None)] ∧ is_write op
            ∧ w' = (perform op w).2
  | (Rejected _, w', j) => writes j = [] ∧ w' = w
  end.
Proof.
  intros Hro. rewrite run_after_checkout.
  destruct (hs !! type_ ev) as [f|]; [|done].
  destruct (f cur ev) as [upd|err]; [|done].
  assert (ReadOnly (match sh ≫= (λ table, table !! type_ ev) with
                    | Some side => side cur ev upd
                    | None => Return upd
                    end)) as Hside.
  { destruct sh as [table|]; cbn; [|constructor].
    destruct (table !! type_ ev) as [side|] eqn:Hs; [|constructor]. eauto. }
  pose proof (run_read_only _ w Hside) as [Hw Hj].
  destruct (run _ w) as [[[handled|err] w1] js]; cbn [fst snd] in Hw, Hj; subst w1;
    [|done].
  pose proof (persist_step_writes h c (id_ ev) (type_ ev) handled w) as Hp.
  destruct (persist_step _ _ _ _ _ _) as [[[settled|err] w2] jp].
  - destruct Hp as (op & -> & Hop & ->). exists op.
    rewrite writes_app, Hj. split; [|done].
    unfold writes. rewrite filter_cons_True; [done|]. by destruct Hop.
  - destruct Hp as [Hjp ->]. by rewrite writes_app, Hj, Hjp.
Qed.

(** ** The claims about one cycle *)

(** C3 (as amended).  When the fetch fails, the cycle goes on exactly as if
    the fetch had resolved with no record if and only if the event type is the
    literal of the handler, ['add'] in the handler with coordination handlers
    and ['new'] in the packaged one; for every other event type the fetch
    error is re-raised as it is, the fetch is the only store call made and the
    world is unchanged. *)
Theorem failed_fetch_tolerated_for_the_literal_type h c hs ev sh w err :
  get (w h) c (id_ ev) = Rejected err →
  run (SideHandlers.entityEventHandler h c hs ev sh) w =
    (if (type_ ev =? "add")%string then
       let '(o, w1, j) :=
         run (resume (SideHandlers.entityEventHandler h c hs ev sh)
                (Resolved None)) w in
       (o, w1, (Get h c (id_ ev), Rejected err) :: j)
     else (Rejected err, w, [(Get h c (id_ ev), Rejected err)]))
  ∧ run (Package.entityEventHandler h c hs ev) w =
    (if (type_ ev =? "new")%string then
       let '(o, w1, j) :=
         run (resume (Package.entityEventHandler h c hs ev)
                (Resolved None)) w in
       (o, w1, (Get h c (id_ ev), Rejected err) :: j)
     else (Rejected err, w, [(Get h c (id_ ev), Rejected err)])).
Proof.
  intros Hget. split.
  - rewrite run_handler, Hget, resume_rejected.
    by destruct (type_ ev =? "add")%string.
  - rewrite package_run_handler, Hget, package_resume_rejected.
    by destruct (type_ ev =? "new")%string.
Qed.

(** C4.  A coordination function registered for the event type is called with
    the current entity, the event and the updated entity; what it resolves
    with is the entity that is persisted; when it rejects, the cycle rejects
    with the same error having made no store call after the coordination
    function's own, so that the world is the one the coordination function
    left, the world before the cycle when it only reads. *)
Theorem coordination_result_is_persisted_and_rejection_aborts
    h c hs ev table side w cur f upd o w1 js :
  checks_out "add" (type_ ev) (get (w h) c (id_ ev)) cur →
  hs !! type_ ev = Some f →
  f cur ev = Resolved upd →
  table !! type_ ev = Some side →
  run (side cur ev upd) w = (o, w1, js) →
  let fetch := (Get h c (id_ ev), get (w h) c (id_ ev)) in
  run (SideHandlers.entityEventHandler h c hs ev (Some table)) w =
    match o with
    | Resolved handled =>
        let '(o2, w2, jp) :=
          persist_step h c (id_ ev) (type_ ev) handled w1 in
        (o2, w2, fetch :: js ++ jp)
    | Rejected err => (Rejected err, w1, fetch :: js)
    end
  ∧ (∀ err, o = Rejected err → ReadOnly (side cur ev upd) →
       w1 = w ∧ writes (fetch :: js) = []).
Proof.
  intros Hcur Hf Hupd Hside Hrun fetch. split.
  - apply (run_cycle h c hs ev (Some table) w cur f upd); [done..|].
    cbn [mbind option_bind]. by rewrite Hside.
  - intros err -> Hro. pose proof (run_read_only _ w Hro) as [Hw Hj].
    rewrite Hrun in Hw, Hj. cbn [fst snd] in Hw, Hj.
    subst fetch. by rewrite writes_get.
Qed.



End Cycle.

(** * One cycle on tables that are object literals *)

Section LiteralCycle.
Context {EventType EntityType PersistenceEntityType Any Store : Type}.
Context `{!Persistable EventType, !Tagged EventType, !Handled EntityType}.
Context `{!Nullable EntityType}.
Context `{!Persistence EntityType PersistenceEntityType Store}.
Local Abbreviation Event := (EventOrCluster EventType Any).
Local Abbreviation Transitions :=
  (gmap string (option EntityType → Event → outcome EntityType)).
Local Abbreviation Coordinations :=
  (gmap string (option EntityType → Event → EntityType
                → Async EntityType PersistenceEntityType EntityType)).
Implicit Types (ev : Event) (w : World Store) (h : handle).
Implicit Types (c : PersistenceEntityType) (hs : Transitions).
Implicit Types (sh : option Coordinations) (cur : option EntityType).
Implicit Types (table : Coordinations).

Local Abbreviation id_ ev := (id_of (first_event ev)).
Local Abbreviation type_ ev := (eventType (meta_of (first_event ev))).

Lemma property_missing {V} (table : gmap string V) key :
  table !! key = None → Object_prototype !! key = None →
  property table key = Missing.
Proof. unfold property. by intros -> ->. Qed.

Lemma property_own {V} (table : gmap string V) key v :
  table !! key = Some v → property table key = Own v.
Proof. unfold property. by intros ->. Qed.

Lemma literal_run_handler h c hs ev sh w :
  run (Literal.SideHandlers.entityEventHandler h c hs ev sh) w =
  let '(o, w1, j) :=
    run (resume (Literal.SideHandlers.entityEventHandler h c hs ev sh)
           (get (w h) c (id_ ev))) w in
  (o, w1, (Get h c (id_ ev), get (w h) c (id_ ev)) :: j).
Proof. by destruct ev. Qed.

Lemma literal_resume_rejected h c hs ev sh err :
  resume (Literal.SideHandlers.entityEventHandler h c hs ev sh) (Rejected err) =
  if (type_ ev =? "add")%string
  then resume (Literal.SideHandlers.entityEventHandler h c hs ev sh)
         (Resolved None)
  else Raise err.
Proof. destruct ev; cbn; by destruct (_ =? _)%string. Qed.

Lemma literal_resume_missing h c hs ev sh cur :
  property hs (type_ ev) = Missing →
  resume (Literal.SideHandlers.entityEventHandler h c hs ev sh) (Resolved cur)
  = Raise not_a_function.
Proof. intros Hm. destruct ev; cbn in *; by rewrite Hm. Qed.

Lemma literal_package_run_handler h c hs ev w :
  run (Literal.Package.entityEventHandler h c hs ev) w =
  let '(o, w1, j) :=
    run (resume (Literal.Package.entityEventHandler h c hs ev)
           (get (w h) c (id_ ev))) w in
  (o, w1, (Get h c (id_ ev), get (w h) c (id_ ev)) :: j).
Proof. by destruct ev. Qed.

Lemma literal_package_resume_rejected h c hs ev err :
  resume (Literal.Package.entityEventHandler h c hs ev) (Rejected err) =
  if (type_ ev =? "new")%string
  then resume (Literal.Package.entityEventHandler h c hs ev) (Resolved None)
  else Raise err.
Proof. destruct ev; cbn; by destruct (_ =? _)%string. Qed.

Lemma literal_package_resume_missing h c hs ev cur :
  property hs (type_ ev) = Missing →
  resume (Literal.Package.entityEventHandler h c hs ev) (Resolved cur)
  = Raise not_a_function.
Proof. intros Hm. destruct ev; cbn in *; by rewrite Hm. Qed.

Lemma literal_package_resume_resolved h c hs ev cur :
  resume (Literal.Package.entityEventHandler h c hs ev) (Resolved cur) =
  resume (Literal.SideHandlers.entityEventHandler h c hs ev None) (Resolved cur).
Proof. by destruct ev. Qed.

Lemma literal_run_after_checkout h c hs ev sh cur w :
  run (resume (Literal.SideHandlers.entityEventHandler h c hs ev sh)
         (Resolved cur)) w =
  match Literal.transition hs ev cur with
  | Rejected err => (Rejected err, w, [])
  | Resolved updated =>
      match run (Literal.coordination sh ev cur updated) w with
      | (Rejected err, w1, js) => (Rejected err, w1, js)
      | (Resolved handled, w1, js) =>
          let '(o, w2, jp) :=
            Literal.persist_step h c (id_ ev) (type_ ev) handled w1 in
          (o, w2, js ++ jp)
      end
  end.
Proof.
  assert (resume (Literal.SideHandlers.entityEventHandler h c hs ev sh)
            (Resolved cur) =
    (updatedEntity ← lift (Literal.transition hs ev cur);
     handledEntity ← Literal.coordination sh ev cur updatedEntity;
     match handledEntity with
     | AnEntity handledEntity =>
         match nullish handledEntity with
         | Some value => Raise (cannot_read_of value "deleted")
         | None =>
             if truthy (deleted handledEntity) then
               _ ← await (Remove h c (id_ ev));
               Return (Some {| value_of := handledEntity;
                               meta := {| entity := c;
                                          eventType := type_ ev |} |})
             else
               match entity_id handledEntity with
               | Some i =>
                   if negb (truthy i) then Raise cannot_save
                   else
                     _ ← await (Put h c i handledEntity);
                     Return (Some {| value_of := handledEntity;
                                     meta := {| entity := c;
                                                eventType := type_ ev |} |})
               | None => Raise cannot_save
               end
         end
     | Bare => Raise cannot_save
     | Nothing => Raise (cannot_read_of undefined "deleted")
     | Outside => Return None
     end)) as ->.
  { unfold Literal.transition, Literal.coordination.
    destruct ev; cbn [resume Literal.SideHandlers.entityEventHandler first_event];
      cbn; destruct (property hs _) as [f|m|]; try done;
      by destruct (f cur _). }
  rewrite run_bind.
  destruct (Literal.transition hs ev cur) as [updated|err]; cbn [lift run];
    [|done].
  rewrite run_bind.
  destruct (run _ w) as [[[handled|err] w1] js]; [|done].
  unfold Literal.persist_step, persist_step.
  destruct handled as [e| | |]; cbn; try by rewrite ?app_nil_r.
  destruct (nullish e); cbn; [by rewrite app_nil_r|].
  destruct (truthy (deleted e)).
  - cbn. destruct (perform _ w1) as [[v|err] w2]; cbn; done.
  - destruct (entity_id e) as [i|]; cbn; [|by rewrite app_nil_r].
    destruct (truthy i); cbn; [|by rewrite app_nil_r].
    destruct (perform _ w1) as [[v|err] w2]; cbn; done.
Qed.
End LiteralCycle.


(** * One cycle at a time *)

Section StreamProperties.
Context {Input R EntityType PersistenceEntityType Store : Type}.
Context `{!Persistence EntityType PersistenceEntityType Store}.
Variable project : Input * handle → Async EntityType PersistenceEntityType R.

Local Abbreviation Pipe' := (Pipe Input R EntityType PersistenceEntityType Store).
Local Abbreviation Mark' := (Mark EntityType PersistenceEntityType).
Implicit Types (p : Pipe') (w : World Store) (xs : list (Input * handle)).
Implicit Types (J : list Mark') (acts : list (Action Input)).

Lemma marks_app n (j1 j2 : list (Op EntityType PersistenceEntityType * reply EntityType)) :
  marks n (j1 ++ j2) = marks n j1 ++ marks n j2.
Proof. apply fmap_app. Qed.

Lemma sequentially_app n xs ys w :
  sequentially project n (xs ++ ys) w =
  let '(j1, w1, o1, e1) := sequentially project n xs w in
  match e1 with
  | Some _ => (j1, w1, o1, e1)
  | None =>
      let '(j2, w2, o2, e2) := sequentially project (n + length xs) ys w1 in
      (j1 ++ j2, w2, o1 ++ o2, e2)
  end.
Proof.
  revert n w. induction xs as [|x xs IH]; intros n w; cbn [sequentially app].
  - rewrite Nat.add_0_r. cbn.
    by destruct (sequentially project n ys w) as [[[j2 w2] o2] e2].
  - destruct (run (project x) w) as [[[a|e] w1] j]; [|done].
    rewrite IH. cbn [length]. rewrite Nat.add_succ_r.
    destruct (sequentially project (S n) xs w1) as [[[j1 w2] o1] [e1|]]; [done|].
    cbn [Nat.add].
    destruct (sequentially project (S (n + length xs)) ys w2) as [[[j2 w3] o2] e2].
    cbn. by rewrite <-!app_assoc.
Qed.

Lemma sequentially_failed n xs ys w J W O e :
  sequentially project n xs w = (J, W, O, Some e) →
  sequentially project n (xs ++ ys) w = (J, W, O, Some e).
Proof. intros H. by rewrite sequentially_app, H. Qed.

Lemma serial_subscribed w0 : Serial project w0 [] (subscribed_pipe w0).
Proof. by apply serial_idle. Qed.

Lemma drain_latest n waiting p : latest (drain project n waiting p) = latest p.
Proof.
  revert p. induction waiting as [|x rest IH]; intros p; cbn [drain]; [done|].
  destruct (size (active p) <? n); [|done]. by rewrite IH.
Qed.

Lemma mergeMap_latest n a p :
  latest (mergeMap project n a p) =
  match a with PersistenceEmits h => Some h | _ => latest p end.
Proof.
  destruct a as [h|event|k]; cbn [mergeMap]; [done| |].
  - unfold withLatestFrom. destruct (failure p); [done|].
    destruct (latest p) as [h|] eqn:Hl; [|done].
    destruct (size (active p) <? n); [|done]. by rewrite <-Hl.
  - destruct (active p !! k) as [[a|e|op cont]|].
    + destruct (failure p); [done|]. by rewrite drain_latest.
    + by destruct (failure p).
    + by destruct (perform op (world p)).
    + done.
Qed.

Lemma serial_step w0 xs p a :
  Serial project w0 xs p →
  Serial project w0 (xs ++ accepts a p) (concatMap project a p).
Proof.
  intros HS. destruct a as [h|event|n].
  - (* the store stream emits *)
    cbn. rewrite app_nil_r.
    destruct HS as [? ? ? ? ?|pre x m j0 wk jdone jrest o w' ? ? ? ? ? ? ? ?|e ? ? ? ?].
    + by apply serial_idle.
    + by eapply serial_busy.
    + by eapply serial_failed.
  - (* an event arrives *)
    unfold concatMap, mergeMap, accepts, withLatestFrom.
    destruct HS as [Hf Ha Hb Hs Hseq|pre x m j0 wk jdone jrest o w' Hf Ha Hs Hxs Hseq Hrun Hm Hj|e Hf Ha Hb Hseq].
    + rewrite Hf. destruct (latest p) as [h|]; [|rewrite app_nil_r; by apply serial_idle].
      rewrite Ha, map_size_empty. cbn [Nat.ltb Nat.leb].
      destruct (run (project (event, h)) (world p)) as [[o w'] j] eqn:Hrun.
      eapply (serial_busy xs (event, h) (project (event, h)) (journal p)
                (world p) [] j o w'); cbn.
      * done.
      * by rewrite Ha, Hs, insert_empty.
      * by rewrite Hs.
      * by rewrite Hb.
      * done.
      * done.
      * done.
      * by rewrite Hs.
    + rewrite Hf. destruct (latest p) as [h|]; [|rewrite app_nil_r; by eapply serial_busy].
      rewrite Ha, map_size_singleton. cbn [Nat.ltb Nat.leb].
      eapply (serial_busy pre x m j0 wk jdone jrest o w'); cbn; try done.
      rewrite Hxs. by rewrite <-app_assoc.
    + rewrite Hf. destruct (latest p) as [h|].
      * eapply serial_failed; try done. by apply sequentially_failed.
      * rewrite app_nil_r. by eapply serial_failed.
  - (* the promise in flight advances *)
    cbn [accepts]. rewrite app_nil_r. unfold concatMap, mergeMap.
    destruct HS as [Hf Ha Hb Hs Hseq|pre x m j0 wk jdone jrest o w' Hf Ha Hs Hxs Hseq Hrun Hm Hj|e Hf Ha Hb Hseq].
    + rewrite Ha, lookup_empty. by apply serial_idle.
    + rewrite Ha. destruct (decide (n = length pre)) as [->|Hne].
      2:{ rewrite lookup_singleton_ne by done. by eapply serial_busy. }
      rewrite lookup_singleton_eq. destruct m as [a|e|op cont].
      * (* the promise resolves *)
        rewrite Hf. cbn in Hm. injection Hm as <- <- <-.
        rewrite app_nil_r in Hrun.
        assert (sequentially project 0 (pre ++ [x]) w0 =
                (journal p ++ [Emitted (length pre)], world p, out p ++ [a], None))
          as Hdone.
        { rewrite sequentially_app, Hseq. cbn. rewrite Hrun, Hj.
          by rewrite <-app_assoc. }
        rewrite delete_singleton_eq.
        destruct (buffer p) as [|y rest] eqn:Hb; cbn.
        -- apply serial_idle; cbn; try done.
           ++ rewrite Hxs, !length_app. cbn. lia.
           ++ by rewrite Hxs.
        -- rewrite map_size_empty. cbn [Nat.ltb Nat.leb].
           assert (drain project 1 rest
             (doInnerSub project y
                {| latest := latest p; buffer := y :: rest; active := ∅;
                   subscribed := subscribed p; out := out p ++ [a];
                   failure := None; world := world p;
                   journal := journal p ++ [Emitted (length pre)] |}) =
             {| latest := latest p; buffer := rest;
                active := {[S (length pre) := project y]};
                subscribed := S (S (length pre)); out := out p ++ [a];
                failure := None; world := world p;
                journal := (journal p ++ [Emitted (length pre)])
                           ++ [Started (S (length pre))] |}) as ->.
           { unfold doInnerSub. cbn. rewrite Hs, insert_empty.
             destruct rest as [|z rest]; cbn; [done|].
             by rewrite map_size_singleton. }
           destruct (run (project y) (world p)) as [[o2 w2] j2] eqn:Hrun2.
           eapply (serial_busy (pre ++ [x]) y (project y)
                     (journal p ++ [Emitted (length pre)]) (world p) [] j2 o2 w2);
             cbn; try done.
           ++ rewrite length_app. cbn. by rewrite Nat.add_1_r.
           ++ rewrite length_app. cbn. by rewrite Nat.add_1_r.
           ++ rewrite Hxs. by rewrite <-app_assoc.
           ++ rewrite length_app. cbn. by rewrite Nat.add_1_r.
      * (* the promise rejects *)
        rewrite Hf. cbn in Hm. injection Hm as <- <- <-.
        rewrite app_nil_r in Hrun. rewrite delete_singleton_eq.
        eapply serial_failed; cbn; try done.
        rewrite Hxs, sequentially_app, Hseq. cbn. rewrite Hrun, Hj.
        by rewrite <-app_assoc, app_nil_r.
      * (* a store call completes *)
        cbn [run] in Hm. destruct (perform op (world p)) as [r w1] eqn:Hp.
        destruct (run (cont r) w1) as [[o1 w2] j1] eqn:Hcont.
        injection Hm as <- <- <-.
        eapply (serial_busy pre x (cont r) j0 wk (jdone ++ [(op, r)]) j1 o1 w2);
          cbn; try done.
        -- by rewrite insert_singleton_eq.
        -- by rewrite <-app_assoc.
        -- rewrite Hj, marks_app. by rewrite <-app_assoc.
    + rewrite Ha, lookup_empty. by eapply serial_failed.
Qed.

Lemma serial_schedule w0 acts xs p :
  Serial project w0 xs p →
  Serial project w0 (xs ++ accepted (latest p) acts)
    (schedule (concatMap project) acts p).
Proof.
  revert xs p. induction acts as [|a acts IH]; intros xs p HS.
  - cbn. by rewrite app_nil_r.
  - cbn [schedule fold_left]. apply (serial_step _ _ _ a) in HS.
    apply IH in HS.
    assert (latest (concatMap project a p) =
            match a with PersistenceEmits h => Some h | _ => latest p end)
      as Hl by apply mergeMap_latest.
    rewrite Hl in HS.
    replace (xs ++ accepted (latest p) (a :: acts))
      with ((xs ++ accepts a p) ++
            accepted match a with
                     | PersistenceEmits h => Some h
                     | _ => latest p
                     end acts); [done|].
    rewrite <-app_assoc. f_equal.
    destruct a as [h|event|n]; cbn; [done| |done]. by destruct (latest p).
Qed.

(** The journal of a subscription is an initial part of the journal of the
    one-after-the-other reference, and all of it once nothing is in flight. *)
Lemma serial_prefix w0 xs p :
  Serial project w0 xs p →
  size (active p) ≤ 1
  ∧ journal p `prefix_of` (sequentially project 0 xs w0).1.1.1
  ∧ (quiescent p ∨ failure p ≠ None →
     sequentially project 0 xs w0 = (journal p, world p, out p, failure p)).
Proof.
  intros [Hf Ha Hb Hs Hseq|pre x m j0 wk jdone jrest o w' Hf Ha Hs Hxs Hseq Hrun Hm Hj|e Hf Ha Hb Hseq].
  - rewrite Ha, map_size_empty, Hseq, Hf. split; [lia|]. by split.
  - rewrite Ha, map_size_singleton. split; [lia|]. split.
    + rewrite Hxs, sequentially_app, Hseq. cbn [sequentially].
      rewrite Nat.add_0_l, Hrun, Hj, marks_app.
      destruct o as [a|e].
      * destruct (sequentially project (S (length pre)) (buffer p) w')
          as [[[j2 w2] o2] e2]. cbn.
        apply prefix_app, prefix_cons.
        rewrite <-app_assoc. by apply prefix_app_r.
      * cbn. apply prefix_app, prefix_cons.
        rewrite <-app_assoc. by apply prefix_app_r.
    + intros [[Hq _]|Hq]; [|done]. rewrite Ha in Hq.
      by apply (map_non_empty_singleton (length pre) m) in Hq.
  - rewrite Ha, map_size_empty, Hseq, Hf. split; [lia|]. by split.
Qed.

Lemma block_lookup n (j : list (Op EntityType PersistenceEntityType * reply EntityType))
    i (m : Mark') :
  (Started n :: marks n j) !! i = Some m →
  m = Started n ∨ ∃ op r, m = Performed n op r.
Proof.
  destruct i as [|i]; simpl.
  - intros [= <-]. by left.
  - unfold marks. rewrite list_lookup_fmap.
    destruct (j !! i) as [[op r]|]; [|done]. intros [= <-]. right. eauto.
Qed.

(** The shape of the reference journal: a block per cycle. *)
Lemma sequentially_journal n x xs w :
  ∃ tail,
    (sequentially project n (x :: xs) w).1.1.1
    = (Started n :: marks n (run (project x) w).2) ++ tail
    ∧ ((∃ e, tail = [Aborted n e])
       ∨ tail = Emitted n
                  :: (sequentially project (S n) xs (run (project x) w).1.2).1.1.1).
Proof.
  cbn [sequentially].
  destruct (run (project x) w) as [[[a|e] w1] j]; cbn [fst snd].
  - destruct (sequentially project (S n) xs w1) as [[[js w2] outs] err].
    eexists. split; [done|]. by right.
  - eexists. split; [done|]. left. eauto.
Qed.

(** In the reference journal every mark of a cycle comes after the previous
    cycle has emitted, and nothing comes after an abort. *)
Lemma sequentially_order n xs w i (m : Mark') :
  (sequentially project n xs w).1.1.1 !! i = Some m →
  n ≤ cycle_of m
  ∧ (∀ k, cycle_of m = S k → n ≤ k →
       ∃ j, j < i
            ∧ (sequentially project n xs w).1.1.1 !! j = Some (Emitted k))
  ∧ (∀ k e, m = Aborted k e →
       length (sequentially project n xs w).1.1.1 = S i).
Proof.
  revert n w i. induction xs as [|x xs IH]; intros n w i; [done|].
  destruct (sequentially_journal n x xs w) as (tail & -> & Htail).
  set (B := Started n :: marks n (run (project x) w).2) in *.
  rewrite lookup_app_Some. intros [Hi|[Hlen Hi]].
  - (* in the block of cycle n *)
    apply block_lookup in Hi as Hm.
    assert (cycle_of m = n) as Hc by (by destruct Hm as [->|(? & ? & ->)]).
    split; [lia|]. split; [intros; lia|].
    intros k e ->. by destruct Hm as [|(? & ? & ?)].
  - destruct Htail as [[e ->]| ->].
    + (* the abort of cycle n *)
      apply list_lookup_singleton_Some in Hi as [Hi <-]. cbn [cycle_of].
      split; [lia|]. split; [intros; lia|].
      intros _ _ _. rewrite length_app. cbn [length]. lia.
    + apply lookup_cons_Some in Hi as [[Hi <-]|[Hpos Hi]].
      * (* the emission of cycle n *)
        cbn [cycle_of]. split; [lia|]. split; [intros; lia|]. done.
      * (* a later cycle *)
        destruct (IH _ _ _ Hi) as (Hge & Hbefore & Hlast).
        split; [lia|]. split.
        -- intros k Hk Hnk. destruct (decide (k = n)) as [->|Hne].
           ++ exists (length B). split; [lia|].
              rewrite lookup_app_r by lia. by rewrite Nat.sub_diag.
           ++ destruct (Hbefore k Hk) as (j' & Hj' & Hem); [lia|].
              exists (length B + S j'). split; [lia|].
              rewrite lookup_app_r by lia.
              replace (length B + S j' - length B) with (S j') by lia.
              done.
        -- intros k e ->. rewrite length_app. cbn [length].
           rewrite (Hlast k e eq_refl). lia.
Qed.

(** *** What every schedule of one subscription satisfies *)

Lemma concatMap_serializes w0 acts :
  let p := schedule (concatMap project) acts (subscribed_pipe w0) in
  let reference := sequentially project 0 (accepted None acts) w0 in
  size (active p) ≤ 1
  ∧ journal p `prefix_of` reference.1.1.1
  ∧ (∀ i m k, journal p !! i = Some m → cycle_of m = S k →
       ∃ j, j < i ∧ journal p !! j = Some (Emitted k))
  ∧ (∀ i k e, journal p !! i = Some (Aborted k e) →
       length (journal p) = S i)
  ∧ (quiescent p ∨ failure p ≠ None →
     (journal p, world p, out p, failure p) = reference).
Proof.
  intros p reference.
  pose proof (serial_schedule w0 acts [] _ (serial_subscribed w0)) as HS.
  cbn [app] in HS. change (latest (subscribed_pipe w0)) with (@None handle) in HS.
  fold p in HS. destruct (serial_prefix _ _ _ HS) as (Hsize & Hpre & Hq).
  fold reference in Hpre, Hq.
  split; [done|]. split; [done|]. split; [|split].
  - intros i m k Hi Hk.
    pose proof (prefix_lookup_Some _ _ _ _ Hi Hpre) as HJ.
    destruct (sequentially_order _ _ _ _ _ HJ) as (_ & Hbefore & _).
    destruct (Hbefore k Hk) as (j & Hj & Hem); [lia|].
    exists j. split; [done|].
    destruct Hpre as [rest Hrest]. fold reference in Hem.
    rewrite Hrest, lookup_app_l in Hem; [done|].
    apply lookup_lt_Some in Hi. lia.
  - intros i k e Hi.
    pose proof (prefix_lookup_Some _ _ _ _ Hi Hpre) as HJ.
    destruct (sequentially_order _ _ _ _ _ HJ) as (_ & _ & Hlast).
    specialize (Hlast k e eq_refl). fold reference in Hlast.
    apply prefix_length in Hpre. apply lookup_lt_Some in Hi. lia.
  - intros H. by rewrite Hq.
Qed.
End StreamProperties.

(** * Folding the transitions *)

Section FoldProperties.
Context {EventType EntityType PersistenceEntityType Any Store : Type}.
Context `{!Persistable EventType, !Tagged EventType, !Handled EntityType}.
Context `{!Persistence EntityType PersistenceEntityType Store}.
Local Abbreviation Event := (EventOrCluster EventType Any).
Local Abbreviation id_ ev := (id_of (first_event ev)).
Local Abbreviation type_ ev := (eventType (meta_of (first_event ev))).

Variable project :
  Event * handle
  → Async EntityType PersistenceEntityType (WithMeta EntityType PersistenceEntityType).
Variable creation : string.
Variable c : PersistenceEntityType.
Variable hs : gmap string (EntityEventHandler EventType Any EntityType).
Variable h : handle.
Variable i : string.

(** The cycle that [project] runs, when the transition applies. *)
Hypothesis project_cycle : ∀ (ev : Event) (w : World Store) cur f upd,
  checks_out creation (type_ ev) (get (w h) c (id_ ev)) cur →
  hs !! type_ ev = Some f →
  f cur ev = Resolved upd →
  run (project (ev, h)) w =
  let '(o2, w2, jp) := persist_step h c (id_ ev) (type_ ev) upd w in
  (o2, w2, (Get h c (id_ ev), get (w h) c (id_ ev)) :: jp).

(** The store keeps what is put under [i]. *)
Hypothesis put_get : ∀ (s : Store) e,
  ∃ s', put s c i e = Resolved s' ∧ get s' c i = Resolved (Some e).

Hypothesis id_non_empty : truthy i = true.

Lemma fold_transitions_cons cur (ev : Event) events :
  fold_transitions hs cur (ev :: events) =
  match transition hs (Resolved cur) ev with
  | Resolved next => fold_transitions hs next events
  | Rejected err => Rejected err
  end.
Proof.
  unfold fold_transitions. cbn [fold_left].
  destruct (transition hs (Resolved cur) ev) as [next|err]; [done|].
  induction events as [|ev' events IH]; [done|]. cbn. apply IH.
Qed.

Lemma sequentially_folds (events : list Event) n (w : World Store) cur :
  (∀ ev, ev ∈ events → id_ ev = i) →
  (∀ first, head events = Some first →
     checks_out creation (type_ first) (get (w h) c i) cur) →
  (∀ k, k < length events →
     kept_under i (fold_transitions hs cur (take (S k) events))) →
  events ≠ [] →
  ∃ J W O final,
    sequentially project n ((λ ev, (ev, h)) <$> events) w = (J, W, O, None)
    ∧ fold_transitions hs cur events = Resolved (Some final)
    ∧ get (W h) c i = Resolved (Some final)
    ∧ value_of <$> last O = Some final.
Proof.
  revert n w cur. induction events as [|ev events IH]; intros n w cur Hid Hfirst Hkept Hne;
    [done|]. clear Hne.
  assert (id_ ev = i) as Hev by (apply Hid; left).
  specialize (Hfirst ev eq_refl).
  pose proof (Hkept 0 ltac:(cbn; lia)) as (e & Hstep & Hdel & Heid).
  cbn [take] in Hstep. rewrite fold_transitions_cons in Hstep.
  unfold transition in Hstep.
  destruct (hs !! type_ ev) as [f|] eqn:Hf; [|done].
  destruct (f cur ev) as [upd|err] eqn:Hupd; [|done].
  cbn in Hstep. injection Hstep as ->.
  rewrite <-Hev in Hfirst.
  pose proof (project_cycle ev w cur f e Hfirst Hf Hupd) as Hrun.
  unfold persist_step in Hrun. rewrite Hdel, Heid, id_non_empty in Hrun.
  destruct (put_get (w h) e) as (s' & Hput & Hget).
  unfold perform in Hrun. rewrite Hput in Hrun.
  rewrite fmap_cons. cbn [sequentially]. rewrite Hrun.
  rewrite fold_transitions_cons. unfold transition. rewrite Hf, Hupd.
  destruct events as [|ev2 events].
  - cbn. eexists _, _, _, e. split; [done|]. split; [done|].
    rewrite fn_lookup_insert. done.
  - destruct (IH (S n) (<[h:=s']> w) (Some e)) as (J & W & O & final & Hseq & Hfold & HW & HO).
    + intros ev' Hin. apply Hid. by right.
    + intros first _. rewrite fn_lookup_insert, Hget. by left.
    + intros k Hk. specialize (Hkept (S k) ltac:(cbn in *; lia)).
      cbn [take] in Hkept. rewrite fold_transitions_cons in Hkept.
      unfold transition in Hkept. by rewrite Hf, Hupd in Hkept.
    + done.
    + rewrite Hseq.
      eexists _, _, _, final. split; [done|]. split; [done|]. split; [done|].
      rewrite last_cons. destruct (last O); [done|]. done.
Qed.
End FoldProperties.

(** * The deduplication filter *)

Section DedupProperties.
Context {T : Type} `{!Persistable T}.
Implicit Types (map : gmap string bool) (events : list T).

Lemma previouslyUnseen_keep map event :
  (previouslyUnseen map event).1 = bool_decide (map !! id_of event = None).
Proof.
  unfold previouslyUnseen. destruct (map !! id_of event) as [b|] eqn:Hm.
  - rewrite bool_decide_true by eauto. by rewrite bool_decide_false.
  - rewrite bool_decide_false by apply is_Some_None. by rewrite bool_decide_true.
Qed.

Lemma previouslyUnseen_map map event i :
  (previouslyUnseen map event).2 !! i = None ↔
  map !! i = None ∧ i ≠ id_of event.
Proof.
  unfold previouslyUnseen. destruct (map !! id_of event) as [b|] eqn:Hm.
  - rewrite bool_decide_true by eauto. cbn. split; [|tauto].
    intros Hi. split; [done|]. intros ->. congruence.
  - rewrite bool_decide_false by apply is_Some_None. cbn.
    rewrite lookup_insert_None. split; intros [? ?]; split; congruence.
Qed.

Lemma feed_map map events i :
  (feed map events).2 !! i = None ↔
  map !! i = None ∧ i ∉ id_of <$> events.
Proof.
  revert map. induction events as [|event rest IH]; intros map; cbn [feed].
  - cbn. rewrite elem_of_nil. tauto.
  - pose proof (previouslyUnseen_map map event i) as Hstep.
    destruct (previouslyUnseen map event) as [keep map1].
    specialize (IH map1). destruct (feed map1 rest) as [passed map2].
    cbn [fst snd] in *. rewrite IH, Hstep, fmap_cons, elem_of_cons. tauto.
Qed.

Lemma verdicts_length map events : length (verdicts map events) = length events.
Proof.
  revert map. induction events as [|event rest IH]; intros map; [done|].
  cbn [verdicts]. destruct (previouslyUnseen map event) as [keep map1].
  cbn. by rewrite IH.
Qed.

Lemma verdicts_lookup map events i event :
  events !! i = Some event →
  verdicts map events !! i =
  Some (bool_decide (map !! id_of event = None
                     ∧ id_of event ∉ id_of <$> take i events)).
Proof.
  revert map i. induction events as [|first rest IH]; intros map i; [done|].
  cbn [verdicts].
  pose proof (previouslyUnseen_keep map first) as Hkeep.
  pose proof (previouslyUnseen_map map first) as Hmap.
  destruct (previouslyUnseen map first) as [keep map1]. cbn [fst snd] in *.
  destruct i as [|i]; simpl.
  - intros [= ->]. f_equal. rewrite Hkeep. apply bool_decide_ext.
    rewrite elem_of_nil. tauto.
  - intros Hev. rewrite (IH map1 i Hev). f_equal. apply bool_decide_ext.
    rewrite Hmap, elem_of_cons. tauto.
Qed.

Lemma feed_passed map events :
  (feed map events).1 =
  (filter (λ x, x.2 = true) (zip events (verdicts map events))).*1.
Proof.
  revert map. induction events as [|event rest IH]; intros map; [done|].
  cbn [feed verdicts]. destruct (previouslyUnseen map event) as [keep map1].
  specialize (IH map1). destruct (feed map1 rest) as [passed map2].
  cbn [fst snd] in *. cbn [zip zip_with].
  destruct keep.
  - rewrite filter_cons_True by done. cbn. by rewrite IH.
  - rewrite filter_cons_False by done. done.
Qed.

Lemma feed_app map events1 events2 :
  feed map (events1 ++ events2) =
  ((feed map events1).1 ++ (feed (feed map events1).2 events2).1,
   (feed (feed map events1).2 events2).2).
Proof.
  revert map. induction events1 as [|event rest IH]; intros map; cbn [feed app].
  - cbn. by destruct (feed map events2).
  - destruct (previouslyUnseen map event) as [keep map1].
    rewrite IH. destruct (feed map1 rest) as [passed map2]. cbn [fst snd].
    by destruct keep.
Qed.

(** C8.  Through one instance, starting from its empty [Map], the predicate
    answers true for a value exactly when no earlier value carried the same
    id, and the values passed on are those for which it answered true, in
    order: the first value of each id passes and every later one is dropped.
    The [Map] belongs to the instance: it starts empty, it holds exactly the
    ids seen so far, and feeding a second batch through the same instance
    continues from the [Map] the first batch left. *)
Theorem first_value_of_each_id_passes events :
  (∀ i event, events !! i = Some event →
     verdicts filterPreviouslySeenIds events !! i =
     Some (bool_decide (id_of event ∉ id_of <$> take i events)))
  ∧ (feed filterPreviouslySeenIds events).1 =
    (filter (λ x, x.2 = true)
       (zip events (verdicts filterPreviouslySeenIds events))).*1
  ∧ (@filterPreviouslySeenIds = ∅)
  ∧ (∀ i, is_Some ((feed filterPreviouslySeenIds events).2 !! i)
          ↔ i ∈ id_of <$> events)
  ∧ (∀ later,
       feed filterPreviouslySeenIds (events ++ later) =
       ((feed filterPreviouslySeenIds events).1
          ++ (feed (feed filterPreviouslySeenIds events).2 later).1,
        (feed (feed filterPreviouslySeenIds events).2 later).2)).
Proof.
  split; [|split; [|split; [|split]]].
  - intros i event Hev. rewrite (verdicts_lookup _ _ _ _ Hev). f_equal.
    apply bool_decide_ext. unfold filterPreviouslySeenIds.
    rewrite lookup_empty. tauto.
  - apply feed_passed.
  - done.
  - intros i. rewrite <-not_eq_None_Some, feed_map.
    unfold filterPreviouslySeenIds. rewrite lookup_empty.
    destruct (decide (i ∈ id_of <$> events)); tauto.
  - intros later. apply feed_app.
Qed.
End DedupProperties.

(** * The subject factories *)

(** C10.  Both factories choose the kind of subject by the truthiness of the
    default value.  A default that is falsy gives a plain subject, whose
    subscriber receives nothing on subscription and only what is added later:
    so it is for the defaults [0], [""] and [false] of [subjectFactory]; a
    truthy default gives a replaying subject, whose subscriber receives the
    default at once and then what is added.  A default of [eventFactory] is by
    its type an object carrying [meta], which is truthy whenever it is
    supplied: the subject of [eventFactory] is plain exactly when no default
    is supplied, every default that is supplied is replayed to the subscriber,
    and what [addEvent] sends is the event with the [meta] of the factory. *)
Theorem falsy_default_gives_a_plain_subject
    {T} `{!Truthy T} (defaultValue : option T) :
  truthy defaultValue = false →
  (subjectFactory defaultValue).1 = Subject []
  ∧ received (subscribe (subjectFactory defaultValue).1) = [[]]
  ∧ (∀ event,
       received ((subjectFactory defaultValue).2 event
                   (subscribe (subjectFactory defaultValue).1)) = [[event]])
  ∧ received (subscribe (subjectFactory (Some 0%Z)).1) = [[]]
  ∧ received (subscribe (subjectFactory (Some ""%string)).1) = [[]]
  ∧ received (subscribe (subjectFactory (Some false)).1) = [[]]
  ∧ (∀ value, truthy (Some value) = true →
       (subjectFactory (Some value)).1 = BehaviorSubject value []
       ∧ received (subscribe (subjectFactory (Some value)).1) = [[value]]
       ∧ ∀ event,
           received ((subjectFactory (Some value)).2 event
                       (subscribe (subjectFactory (Some value)).1))
           = [[value; event]])
  ∧ (∀ (meta : Meta string) (default : option (WithMeta T string)),
       (truthy default = false ↔ default = None)
       ∧ (eventFactory meta default).1
         = match default with
           | Some value => BehaviorSubject value []
           | None => Subject []
           end
       ∧ received (subscribe (eventFactory meta default).1)
         = [option_list default]
       ∧ ∀ event,
           received ((eventFactory meta default).2 event
                       (subscribe (eventFactory meta default).1))
           = [option_list default ++ [addMeta event meta]]).
Proof.
  intros Hfalsy.
  assert ((subjectFactory defaultValue).1 = Subject []) as Hplain.
  { unfold subjectFactory. cbn [fst].
    destruct defaultValue; [by rewrite Hfalsy|done]. }
  rewrite Hplain. split; [done|]. split; [done|]. split; [done|].
  split; [done|]. split; [done|]. split; [done|]. split.
  - intros value Hvalue.
    assert ((subjectFactory (Some value)).1 = BehaviorSubject value []) as ->;
      [|done].
    unfold subjectFactory. cbn [fst]. by rewrite Hvalue.
  - intros meta default. split; [by destruct default|].
    by destruct default.
Qed.

(** * The service *)

Section ServiceProperties.
Context {EventType EntityType PersistenceEntityType Any Store R : Type}.
Context `{!Persistable EventType}.
Context `{!Persistence EntityType PersistenceEntityType Store}.
Local Abbreviation Event := (EventOrCluster EventType Any).
Variable project : Event * handle → Async EntityType PersistenceEntityType R.
Variable c : PersistenceEntityType.

(** Every cycle of [project] starts with the fetch. *)
Hypothesis project_fetches : ∀ (event : Event) persistence (w : World Store),
  ∃ j, (run (project (event, persistence)) w).2
       = (Get persistence c (id_of (first_event event)),
          get (w persistence) c (id_of (first_event event))) :: j.

Lemma sequentially_fetch pre event persistence post (w0 : World Store)
    (m : Mark EntityType PersistenceEntityType) :
  (sequentially project 0 (pre ++ (event, persistence) :: post) w0).1.1.1
    !! (length (sequentially project 0 pre w0).1.1.1 + 1) = Some m →
  m = Performed (length pre)
        (Get persistence c (id_of (first_event event)))
        (get ((sequentially project 0 pre w0).1.1.2 persistence) c
           (id_of (first_event event))).
Proof.
  rewrite sequentially_app.
  destruct (sequentially project 0 pre w0) as [[[J0 W0] O0] [e0|]]; cbn [fst snd].
  { intros Hm. apply lookup_lt_Some in Hm. lia. }
  destruct (sequentially_journal project (0 + length pre) (event, persistence) post W0)
    as (tail & HJ & _).
  destruct (sequentially project (0 + length pre) _ W0) as [[[J2 W2] O2] e2].
  cbn [fst snd] in *. subst J2.
  rewrite lookup_app_r by lia.
  replace (length J0 + 1 - length J0) with 1 by lia.
  destruct (project_fetches event persistence W0) as [j' ->].
  cbn. by intros [= <-].
Qed.

Lemma concatMap_one_at_a_time (w0 : World Store) acts :
  one_at_a_time (concatMap project) project c w0 acts.
Proof.
  destruct (concatMap_serializes project w0 acts)
    as (Hsize & Hpre & Horder & Hlast & Hq).
  unfold one_at_a_time.
  split; [done|]. split; [done|]. split; [done|]. split; [done|].
  split; [done|].
  intros pre event persistence post m Hacc Hm.
  pose proof (prefix_lookup_Some _ _ _ _ Hm Hpre) as HJ.
  rewrite Hacc in HJ. by apply sequentially_fetch in HJ.
Qed.
End ServiceProperties.

Section Services.
Context {EventType EntityType PersistenceEntityType Any Store : Type}.
Context `{!Persistable EventType, !Tagged EventType, !Handled EntityType}.
Context `{!Persistence EntityType PersistenceEntityType Store}.
Local Abbreviation Event := (EventOrCluster EventType Any).
Implicit Types (hs : gmap string (EntityEventHandler EventType Any EntityType)).
Implicit Types
  (sh : option (gmap string
                  (SideEventHandler EventType Any EntityType
                     PersistenceEntityType))).
Implicit Types
  (wrapper : option ((unit → EntityEventHandler EventType Any EntityType)
                     → EntityEventHandler EventType Any EntityType)).
Implicit Types (c : PersistenceEntityType) (w : World Store).

Lemma side_project_fetches c hs sh (event : Event) persistence w :
  ∃ j, (run (SideHandlers.entityEventHandler persistence c hs event sh) w).2
       = (Get persistence c (id_of (first_event event)),
          get (w persistence) c (id_of (first_event event))) :: j.
Proof.
  rewrite run_handler. destruct (run _ w) as [[o w1] j]. by exists j.
Qed.

Lemma package_project_fetches c hs (event : Event) persistence w :
  ∃ j, (run (Package.entityEventHandler persistence c hs event) w).2
       = (Get persistence c (id_of (first_event event)),
          get (w persistence) c (id_of (first_event event))) :: j.
Proof.
  rewrite package_run_handler. destruct (run _ w) as [[o w1] j]. by exists j.
Qed.

Lemma side_service_one_at_a_time c hs sh w0
    (acts : list (Action Event)) :
  one_at_a_time (SideHandlers.entityServiceFactory c hs sh)
    (λ '(event, persistence),
       SideHandlers.entityEventHandler persistence c hs event sh) c w0 acts.
Proof.
  apply concatMap_one_at_a_time. intros event persistence w.
  apply side_project_fetches.
Qed.

Lemma package_service_one_at_a_time c hs wrapper w0
    (acts : list (Action Event)) :
  one_at_a_time (Package.entityServiceFactory c hs wrapper)
    (λ '(event, persistence),
       Package.entityEventHandler persistence c (effectiveHandlers wrapper hs)
         event) c w0 acts.
Proof.
  unfold Package.entityServiceFactory.
  replace (λ '(event, persistence),
             match wrapper with
             | Some wr =>
                 Package.entityEventHandler persistence c
                   (Package.wrappedEventHandlers wr hs) event
             | None => Package.entityEventHandler persistence c hs event
             end)
    with (λ '(event, persistence),
            Package.entityEventHandler (Any:=Any) persistence c
              (effectiveHandlers wrapper hs) event).
  - apply concatMap_one_at_a_time. intros event persistence w.
    apply package_project_fetches.
  - by destruct wrapper.
Qed.
End Services.

(** * The claims about the service *)

Section ServiceClaims.
Context {EventType EntityType PersistenceEntityType Any Store : Type}.
Context `{!Persistable EventType, !Tagged EventType, !Handled EntityType}.
Context `{!Persistence EntityType PersistenceEntityType Store}.
Local Abbreviation Event := (EventOrCluster EventType Any).
Local Abbreviation id_ ev := (id_of (first_event ev)).
Local Abbreviation type_ ev := (eventType (meta_of (first_event ev))).
Implicit Types (hs : gmap string (EntityEventHandler EventType Any EntityType)).
Implicit Types
  (sh : option (gmap string
                  (SideEventHandler EventType Any EntityType
                     PersistenceEntityType))).
Implicit Types
  (wrapper : option ((unit → EntityEventHandler EventType Any EntityType)
                     → EntityEventHandler EventType Any EntityType)).
Implicit Types (c : PersistenceEntityType) (w : World Store).


Lemma package_project_cycle c hs wrapper h (ev : Event) w cur f upd :
  checks_out "new" (type_ ev) (get (w h) c (id_ ev)) cur →
  effectiveHandlers wrapper hs !! type_ ev = Some f →
  f cur ev = Resolved upd →
  run (Package.entityEventHandler h c (effectiveHandlers wrapper hs) ev) w =
  let '(o2, w2, jp) := persist_step h c (id_ ev) (type_ ev) upd w in
  (o2, w2, (Get h c (id_ ev), get (w h) c (id_ ev)) :: jp).
Proof. apply package_run_cycle. Qed.

Lemma fold_transitions_snoc hs cur (events : list Event) ev :
  fold_transitions hs cur (events ++ [ev])
  = transition hs (fold_transitions hs cur events) ev.
Proof. unfold fold_transitions. by rewrite fold_left_app. Qed.

(** The cycles of the handler with coordination handlers, run one after the
    other, follow the fold as long as each coordination function called hands
    the updated entity back. *)
Lemma side_sequentially_folds c hs sh (h : handle) (i : string)
    (events : list Event) w0 :
  truthy i = true →
  (∀ (s : Store) e, ∃ s', put s c i e = Resolved s'
                          ∧ get s' c i = Resolved (Some e)) →
  (∀ ev, ev ∈ events → id_ ev = i) →
  (∀ first, head events = Some first →
     checks_out "add" (type_ first) (get (w0 h) c i) None) →
  (∀ k, k < length events →
     kept_under i (fold_transitions hs None (take (S k) events))) →
  (∀ k ev cur upd table side,
     events !! k = Some ev →
     fold_transitions hs None (take k events) = Resolved cur →
     fold_transitions hs None (take (S k) events) = Resolved (Some upd) →
     sh = Some table → table !! type_ ev = Some side →
     ∃ w1 js,
       run (side cur ev upd)
         (sequentially
            (λ '(event, persistence),
               SideHandlers.entityEventHandler persistence c hs event sh)
            0 ((λ ev, (ev, h)) <$> take k events) w0).1.1.2
       = (Resolved upd, w1, js)) →
  ∀ k, k ≤ length events →
    ∃ J W O cur,
      sequentially
        (λ '(event, persistence),
           SideHandlers.entityEventHandler persistence c hs event sh)
        0 ((λ ev, (ev, h)) <$> take k events) w0 = (J, W, O, None)
      ∧ fold_transitions hs None (take k events) = Resolved cur
      ∧ (k = 0
         ∨ ∃ final, cur = Some final ∧ get (W h) c i = Resolved (Some final)
                    ∧ value_of <$> last O = Some final).
Proof.
  intros Hi Hput Hid Hfirst Hkept Hside k.
  induction k as [|k IH]; intros Hk.
  { exists [], w0, [], None. split; [done|]. split; [done|]. by left. }
  destruct IH as (J & W & O & cur & Hseq & Hfold & Hcur); [lia|].
  destruct (lookup_lt_is_Some_2 events k) as [ev Hev]; [lia|].
  assert (id_ ev = i) as Hevid.
  { apply Hid. by eapply list_elem_of_lookup_2. }
  destruct (Hkept k) as (e & Hstep & Hdel & Heid); [lia|].
  pose proof Hstep as Hstep'.
  rewrite (take_S_r _ _ _ Hev), fold_transitions_snoc, Hfold in Hstep'.
  unfold transition in Hstep'.
  destruct (hs !! type_ ev) as [f|] eqn:Hf; [|done].
  destruct (f cur ev) as [upd|err] eqn:Hupd; [|done].
  injection Hstep' as ->.
  assert (checks_out "add" (type_ ev) (get (W h) c (id_ ev)) cur) as Hchecks.
  { rewrite Hevid. destruct Hcur as [->|(final & -> & Hget & _)]; [|by left].
    cbn in Hseq, Hfold. injection Hseq as _ <- _. injection Hfold as <-.
    apply Hfirst. by rewrite head_lookup. }
  assert (∃ w1 js,
            run (match sh ≫= (λ table, table !! type_ ev) with
                 | Some side => side cur ev e
                 | None => Return e
                 end) W = (Resolved e, w1, js)) as (w1 & js & Hrun).
  { destruct sh as [table|]; cbn [mbind option_bind]; [|by eexists _, _].
    destruct (table !! type_ ev) as [side|] eqn:Hs; [|by eexists _, _].
    destruct (Hside k ev cur e table side Hev Hfold Hstep eq_refl Hs)
      as (w1 & js & Hrun).
    rewrite Hseq in Hrun. eauto. }
  pose proof (run_cycle h c hs ev sh W cur f e _ _ _ Hchecks Hf Hupd Hrun)
    as Hcycle.
  unfold persist_step in Hcycle. rewrite Hdel, Heid, Hi in Hcycle.
  destruct (Hput (w1 h) e) as (s' & Hs' & Hget).
  unfold perform in Hcycle. rewrite Hs' in Hcycle.
  rewrite (take_S_r _ _ _ Hev), fmap_app, sequentially_app, Hseq.
  cbn [fmap list_fmap sequentially]. rewrite Hcycle.
  eexists _, _, _, (Some e). split; [done|].
  split; [by rewrite fold_transitions_snoc, Hfold; unfold transition; rewrite Hf, Hupd|].
  right. exists e. split; [done|]. split.
  - by rewrite fn_lookup_insert.
  - by rewrite last_snoc.
Qed.
End ServiceClaims.

(** * The claims at work on the calculator *)

Lemma memory_put_get {EntityType} (c i : string)
    (s : gmap (string * string) EntityType) (e : EntityType) :
  ∃ s', put s c i e = Resolved s' ∧ get s' c i = Resolved (Some e).
Proof.
  exists (<[(c, i) := e]> s). split; [done|]. cbn. by rewrite lookup_insert_eq.
Qed.

(** The creation type cannot be chosen by the caller: an event of a type
    ['create'] that the caller and the transition table share is not
    tolerated on a missing record by either handler, the handler with
    coordination handlers does not tolerate ['new'], and the packaged handler
    does not tolerate ['add']. *)
Lemma creation_type_is_fixed_in_each_handler :
  (run (SideHandlers.entityEventHandler 0 Calculator.memoryCalcTable
          (<["create" := Calculator.addition]> Calculator.eventHandlers)
          (Calculator.event_of "create" 1) None) Calculator.memoryDB).1.1
  = Rejected not_found
  ∧ (run (Package.entityEventHandler 0 Calculator.memoryCalcTable
            (<["create" := Calculator.addition]> Calculator.eventHandlers)
            (Calculator.event_of "create" 1)) Calculator.memoryDB).1.1
    = Rejected not_found
  ∧ (run (SideHandlers.entityEventHandler 0 Calculator.memoryCalcTable
            Calculator.eventHandlers (Calculator.event_of "new" 1) None)
       Calculator.memoryDB).1.1
    = Rejected not_found
  ∧ (run (Package.entityEventHandler 0 Calculator.memoryCalcTable
            Calculator.eventHandlers (Calculator.event_of "add" 1))
       Calculator.memoryDB).1.1
    = Rejected not_found.
Proof. by vm_compute. Qed.

Lemma failed_fetch_tolerated_for_the_literal_type_witness :
  get (Calculator.memoryDB 0) Calculator.memoryCalcTable "test-1"
  = Rejected not_found
  ∧ (run (SideHandlers.entityEventHandler 0 Calculator.memoryCalcTable
            Calculator.eventHandlers (Calculator.event_of "add" 1) None)
       Calculator.memoryDB).2
    = [(Get 0 Calculator.memoryCalcTable "test-1", Rejected not_found);
       (Put 0 Calculator.memoryCalcTable "test-1"
          {| Calculator.calc_id := Some "test-1"; Calculator.calc_amount := 1;
             Calculator.calc_deleted := None |}, Resolved None)]
  ∧ (run (Package.entityEventHandler 0 Calculator.memoryCalcTable
            Calculator.eventHandlers (Calculator.event_of "add" 1))
       Calculator.memoryDB).2
    = [(Get 0 Calculator.memoryCalcTable "test-1", Rejected not_found)].
Proof.
  split; [reflexivity|].
  destruct (failed_fetch_tolerated_for_the_literal_type
              0 Calculator.memoryCalcTable Calculator.eventHandlers
              (Calculator.event_of "add" 1) None Calculator.memoryDB not_found)
    as [-> ->]; [reflexivity|].
  split; reflexivity.
Defined.

Lemma coordination_result_is_persisted_and_rejection_aborts_witness :
  run (SideHandlers.entityEventHandler 0 Calculator.memoryCalcTable
         Calculator.eventHandlers (Calculator.event_of "add" 9)
         (Some Calculator.sideHandlers)) Calculator.memoryDB
  = (Rejected (Error "Invalid stock"), Calculator.memoryDB,
     [(Get 0 Calculator.memoryCalcTable "test-1", Rejected not_found);
      (Get 0 "shape" "sku1", Rejected not_found)]).
Proof.
  refine (proj1 (coordination_result_is_persisted_and_rejection_aborts
                   0 Calculator.memoryCalcTable Calculator.eventHandlers
                   (Calculator.event_of "add" 9) Calculator.sideHandlers
                   Calculator.stockCheck Calculator.memoryDB None
                   Calculator.addition
                   {| Calculator.calc_id := Some "test-1";
                      Calculator.calc_amount := 9;
                      Calculator.calc_deleted := None |}
                   (Rejected (Error "Invalid stock")) Calculator.memoryDB
                   [(Get 0 "shape" "sku1", Rejected not_found)]
                   _ _ _ _ _)).
  - right. exists not_found. repeat split; reflexivity.
  - reflexivity.
  - reflexivity.
  - reflexivity.
  - reflexivity.
Defined.





Lemma falsy_default_gives_a_plain_subject_witness :
  truthy (Some 0%Z) = false
  ∧ received (subscribe (subjectFactory (Some 0%Z)).1) = [[]].
Proof.
  split; [reflexivity|].
  refine (proj1 (proj2 (falsy_default_gives_a_plain_subject (Some 0%Z) _))).
  reflexivity.
Defined.


(** The serialisation is the work of [concatMap]: were two cycles allowed in
    flight, both additions of the test suite could fetch before either has
    put, and the first sum would be lost. *)
Example two_cycles_in_flight_lose_an_update :
  get (world (schedule
         (mergeMap (λ '(event, persistence),
              SideHandlers.entityEventHandler persistence
                Calculator.memoryCalcTable Calculator.eventHandlers event None)
            2)
         [PersistenceEmits 0; EventArrives (Calculator.event_of "add" 3);
          EventArrives (Calculator.event_of "add" 4);
          PromiseAdvances 0; PromiseAdvances 1; PromiseAdvances 0;
          PromiseAdvances 1; PromiseAdvances 0; PromiseAdvances 1]
         (subscribed_pipe Calculator.memoryDB)) 0)
    Calculator.memoryCalcTable "test-1"
  = Resolved (Some {| Calculator.calc_id := Some "test-1";
                      Calculator.calc_amount := 4;
                      Calculator.calc_deleted := None |}).
Proof. by vm_compute. Qed.



(** * More about one cycle *)

Section CycleContract.
Context {EventType EntityType PersistenceEntityType Any Store : Type}.
Context `{!Persistable EventType, !Tagged EventType, !Handled EntityType}.
Context `{!Persistence EntityType PersistenceEntityType Store}.
Local Abbreviation Event := (EventOrCluster EventType Any).
Local Abbreviation Transitions :=
  (gmap string (option EntityType → Event → outcome EntityType)).
Local Abbreviation Coordinations :=
  (gmap string (option EntityType → Event → EntityType
                → Async EntityType PersistenceEntityType EntityType)).
Implicit Types (ev : Event) (w : World Store) (h : handle).
Implicit Types (c : PersistenceEntityType) (hs : Transitions).
Implicit Types (sh : option Coordinations) (cur : option EntityType).
Implicit Types (table : Coordinations) (f : option EntityType → Event → outcome EntityType).
Implicit Types (side : option EntityType → Event → EntityType
                → Async EntityType PersistenceEntityType EntityType).

Local Abbreviation id_ ev := (id_of (first_event ev)).
Local Abbreviation type_ ev := (eventType (meta_of (first_event ev))).

(** What the persist step has done when it resolves, and why it rejects. *)
Lemma persist_step_cases h c i type (handled : EntityType) w o w' j :
  persist_step h c i type handled w = (o, w', j) →
  (truthy (deleted handled) = true
   ∧ ((∃ s, remove (w h) c i = Resolved s ∧ w' = <[h := s]> w
            ∧ o = Resolved {| value_of := handled;
                              meta := {| entity := c; eventType := type |} |}
            ∧ j = [(Remove h c i, Resolved None)])
      ∨ (∃ err, remove (w h) c i = Rejected err ∧ w' = w ∧ o = Rejected err
                ∧ j = [(Remove h c i, Rejected err)])))
  ∨ (truthy (deleted handled) = false ∧ truthy (entity_id handled) = false
     ∧ o = Rejected cannot_save ∧ w' = w ∧ j = [])
  ∨ (truthy (deleted handled) = false
     ∧ ∃ i', entity_id handled = Some i' ∧ truthy i' = true
       ∧ ((∃ s, put (w h) c i' handled = Resolved s ∧ w' = <[h := s]> w
                ∧ o = Resolved {| value_of := handled;
                                  meta := {| entity := c; eventType := type |} |}
                ∧ j = [(Put h c i' handled, Resolved None)])
          ∨ (∃ err, put (w h) c i' handled = Rejected err ∧ w' = w
                    ∧ o = Rejected err
                    ∧ j = [(Put h c i' handled, Rejected err)]))).
Proof.
  unfold persist_step, perform.
  destruct (truthy (deleted handled)).
  - intros Hp. left. split; [done|].
    destruct (remove (w h) c i) as [s|err]; injection Hp as <- <- <-;
      [left|right]; eauto 10.
  - destruct (entity_id handled) as [i'|] eqn:Hid; cbn.
    2:{ intros [= <- <- <-]. right. left. done. }
    destruct (truthy i') eqn:Hi'.
    2:{ intros [= <- <- <-]. right. left. done. }
    intros Hp. right. right. split; [done|]. exists i'. split; [done|]. split; [done|].
    destruct (put (w h) c i' handled) as [s|err]; injection Hp as <- <- <-;
      [left|right]; eauto 10.
Qed.

(** One cycle of the handler with coordination handlers, whatever happens. *)
Lemma run_handler_inv h c hs ev sh w o w' j :
  run (SideHandlers.entityEventHandler h c hs ev sh) w = (o, w', j) →
  let fetch := (Get h c (id_ ev), get (w h) c (id_ ev)) in
  (∃ err, get (w h) c (id_ ev) = Rejected err ∧ type_ ev ≠ "add"
          ∧ o = Rejected err ∧ w' = w ∧ j = [fetch])
  ∨ ∃ cur, checks_out "add" (type_ ev) (get (w h) c (id_ ev)) cur
     ∧ ((hs !! type_ ev = None ∧ o = Rejected not_a_function ∧ w' = w
         ∧ j = [fetch])
        ∨ ∃ f, hs !! type_ ev = Some f
           ∧ ((∃ err, f cur ev = Rejected err ∧ o = Rejected err ∧ w' = w
                      ∧ j = [fetch])
              ∨ ∃ upd, f cur ev = Resolved upd
                 ∧ ((∃ err js,
                       run (coordination sh ev cur upd) w = (Rejected err, w', js)
                       ∧ o = Rejected err ∧ j = fetch :: js)
                    ∨ ∃ handled w1 js jp,
                        run (coordination sh ev cur upd) w
                        = (Resolved handled, w1, js)
                        ∧ persist_step h c (id_ ev) (type_ ev) handled w1
                          = (o, w', jp)
                        ∧ j = fetch :: js ++ jp))).
Proof.
  intros Hrun fetch. subst fetch.
  destruct (run_handler_cases h c hs ev sh w)
    as [(err & Hget & Htype & Hr)|(cur & Hcur & Hr)]; rewrite Hr in Hrun.
  { injection Hrun as <- <- <-. left. exists err.
    apply String.eqb_neq in Htype. done. }
  right. exists cur. split; [done|].
  rewrite run_after_checkout in Hrun.
  destruct (hs !! type_ ev) as [f|]; [|injection Hrun as <- <- <-; by left].
  right. exists f. split; [done|].
  destruct (f cur ev) as [upd|err]; [|injection Hrun as <- <- <-; left; eauto].
  right. exists upd. split; [done|]. unfold coordination.
  destruct (run _ w) as [[[handled|err] w1] js].
  - right. exists handled, w1, js.
    destruct (persist_step _ _ _ _ _ _) as [[o2 w2] jp].
    injection Hrun as <- <- <-. eauto.
  - left. injection Hrun as <- <- <-. eauto.
Qed.

Lemma package_run_handler_inv h c hs ev w o w' j :
  run (Package.entityEventHandler h c hs ev) w = (o, w', j) →
  let fetch := (Get h c (id_ ev), get (w h) c (id_ ev)) in
  (∃ err, get (w h) c (id_ ev) = Rejected err ∧ type_ ev ≠ "new"
          ∧ o = Rejected err ∧ w' = w ∧ j = [fetch])
  ∨ ∃ cur, checks_out "new" (type_ ev) (get (w h) c (id_ ev)) cur
     ∧ ((hs !! type_ ev = None ∧ o = Rejected not_a_function ∧ w' = w
         ∧ j = [fetch])
        ∨ ∃ f, hs !! type_ ev = Some f
           ∧ ((∃ err, f cur ev = Rejected err ∧ o = Rejected err ∧ w' = w
                      ∧ j = [fetch])
              ∨ ∃ upd jp, f cur ev = Resolved upd
                 ∧ persist_step h c (id_ ev) (type_ ev) upd w = (o, w', jp)
                 ∧ j = fetch :: jp)).
Proof.
  intros Hrun fetch. subst fetch.
  destruct (package_run_handler_cases h c hs ev w)
    as [(err & Hget & Htype & Hr)|(cur & Hcur & Hr)]; rewrite Hr in Hrun.
  { injection Hrun as <- <- <-. left. exists err.
    apply String.eqb_neq in Htype. done. }
  right. exists cur. split; [done|].
  rewrite run_after_checkout in Hrun.
  destruct (hs !! type_ ev) as [f|]; [|injection Hrun as <- <- <-; by left].
  right. exists f. split; [done|].
  destruct (f cur ev) as [upd|err]; [|injection Hrun as <- <- <-; left; eauto].
  right. exists upd. cbn in Hrun.
  destruct (persist_step _ _ _ _ _ _) as [[o2 w2] jp].
  injection Hrun as <- <- <-. eauto.
Qed.

(** X1.  A transition function that throws aborts the cycle with what it
    threw: once the fetch has checked out, the cycle rejects with that error,
    the fetch is the only store call made, no coordination function runs and
    the world is as it was. *)
Theorem transition_error_aborts_the_cycle h c hs ev sh w cur f err :
  hs !! type_ ev = Some f →
  f cur ev = Rejected err →
  let fetch := (Get h c (id_ ev), get (w h) c (id_ ev)) in
  (checks_out "add" (type_ ev) (get (w h) c (id_ ev)) cur →
   run (SideHandlers.entityEventHandler h c hs ev sh) w
   = (Rejected err, w, [fetch]))
  ∧ (checks_out "new" (type_ ev) (get (w h) c (id_ ev)) cur →
     run (Package.entityEventHandler h c hs ev) w
     = (Rejected err, w, [fetch])).
Proof.
  intros Hf Herr fetch. subst fetch. split; intros Hcur.
  - rewrite run_handler, (resume_checks_out _ _ _ _ _ _ _ Hcur).
    by rewrite run_after_checkout, Hf, Herr.
  - rewrite package_run_handler, (package_resume_checks_out _ _ _ _ _ _ Hcur).
    by rewrite package_resume_resolved, run_after_checkout, Hf, Herr.
Qed.

(** What a resolved persist step has done. *)
Lemma persist_step_resolved h c i type (handled : EntityType) w r w' j :
  persist_step h c i type handled w = (Resolved r, w', j) →
  r = {| value_of := handled; meta := {| entity := c; eventType := type |} |}
  ∧ ∃ op, j = [(op, Resolved None)] ∧ w' = (perform op w).2
     ∧ ((op = Remove h c i ∧ truthy (deleted handled) = true)
        ∨ ∃ i', op = Put h c i' handled ∧ truthy (deleted handled) = false
                ∧ entity_id handled = Some i' ∧ truthy i' = true).
Proof.
  intros Hp.
  destruct (persist_step_cases _ _ _ _ _ _ _ _ _ Hp)
    as [[Hdel [(s & Hrem & -> & [= ->] & ->)|(e & _ & _ & ? & _)]]
       |[(Hdel & Hid & ? & _)
        |(Hdel & i' & Hid & Hi & [(s & Hput & -> & [= ->] & ->)|(e & _ & _ & ? & _)])]];
    try done.
  - split; [done|]. exists (Remove h c i). split; [done|].
    unfold perform. rewrite Hrem. split; [done|]. by left.
  - split; [done|]. exists (Put h c i' handled). split; [done|].
    unfold perform. rewrite Hput. split; [done|]. right. eauto.
Qed.


(** X4.  Read your write: on a store that gives back under an id what was
    put under it, after a cycle that resolved with an entity not marked
    deleted the store holds, under the id of that entity, exactly the entity
    the cycle returned. *)
Theorem stored_record_is_the_entity_returned h c hs ev sh w r w' j :
  (∀ (s s' : Store) i e,
     put s c i e = Resolved s' → get s' c i = Resolved (Some e)) →
  truthy (deleted (value_of r)) = false →
  run (Package.entityEventHandler h c hs ev) w = (Resolved r, w', j)
  ∨ run (SideHandlers.entityEventHandler h c hs ev sh) w = (Resolved r, w', j) →
  ∃ i, entity_id (value_of r) = Some i ∧ truthy i = true
       ∧ get (w' h) c i = Resolved (Some (value_of r)).
Proof.
  intros Hlaw Hkept Hrun.
  assert (∃ handled w1 jp,
            persist_step h c (id_ ev) (type_ ev) handled w1 = (Resolved r, w', jp))
    as (handled & w1 & jp & Hp).
  { destruct Hrun as [Hrun|Hrun].
    - destruct (package_run_handler_inv _ _ _ _ _ _ _ _ Hrun)
        as [(e & _ & _ & ? & _)
           |(cur & Hcur & [(_ & ? & _)
                          |(f & Hf & [(e & _ & ? & _)|(upd & jp & Hupd & Hp & ->)])])];
        try done.
      eauto.
    - destruct (run_handler_inv _ _ _ _ _ _ _ _ _ Hrun)
        as [(e & _ & _ & ? & _)
           |(cur & Hcur & [(_ & ? & _)
                          |(f & Hf & [(e & _ & ? & _)
                                     |(upd & Hupd & [(e & js & _ & ? & _)
                                                    |(handled & w1 & js & jp & Hside & Hp & ->)])])])];
        try done.
      eauto. }
  destruct (persist_step_cases _ _ _ _ _ _ _ _ _ Hp)
    as [[Hdel [(s & _ & _ & [= ->] & _)|(e & _ & _ & ? & _)]]
       |[(Hdel & Hid & ? & _)
        |(Hdel & i & Hid & Hi & [(s & Hput & -> & [= ->] & _)|(e & _ & _ & ? & _)])]];
    try done.
  { cbn in Hkept. congruence. }
  exists i. split; [done|]. split; [done|]. cbn.
  rewrite fn_lookup_insert. by apply (Hlaw (w1 h)).
Qed.

(** The persist step addresses the store it is given and changes no other. *)
Lemma persist_step_frame h c i type (handled : EntityType) w :
  Forall (λ entry, addressed entry.1 = (h, c))
    (persist_step h c i type handled w).2
  ∧ ∀ h', h' ≠ h → (persist_step h c i type handled w).1.2 h' = w h'.
Proof.
  destruct (persist_step h c i type handled w) as [[o w'] j] eqn:Hp.
  cbn [fst snd].
  destruct (persist_step_cases _ _ _ _ _ _ _ _ _ Hp)
    as [[Hdel [(s & _ & -> & _ & ->)|(e & _ & -> & _ & ->)]]
       |[(Hdel & Hid & _ & -> & ->)
        |(Hdel & i' & Hid & Hi & [(s & _ & -> & _ & ->)|(e & _ & -> & _ & ->)])]];
    (split; [repeat constructor|]); intros h' Hne;
    by rewrite ?fn_lookup_insert_ne.
Qed.

(** X5.  A cycle stays within its store.  Every store call of the packaged
    cycle addresses the persistence object and the collection the handler was
    given, and the cycle leaves every other persistence object as it was; so
    does the cycle with coordination handlers when they only read. *)
Theorem cycle_touches_only_its_store h c hs ev sh w :
  Forall (λ entry, addressed entry.1 = (h, c))
    (run (Package.entityEventHandler h c hs ev) w).2
  ∧ (∀ h', h' ≠ h →
       (run (Package.entityEventHandler h c hs ev) w).1.2 h' = w h')
  ∧ ((∀ cur upd, ReadOnly (coordination sh ev cur upd)) →
     ∀ h', h' ≠ h →
       (run (SideHandlers.entityEventHandler h c hs ev sh) w).1.2 h' = w h').
Proof.
  split; [|split].
  - destruct (run (Package.entityEventHandler h c hs ev) w) as [[o w'] j] eqn:Hrun.
    destruct (package_run_handler_inv _ _ _ _ _ _ _ _ Hrun)
      as [(e & _ & _ & _ & _ & ->)
         |(cur & Hcur & [(_ & _ & _ & ->)
                        |(f & Hf & [(e & _ & _ & _ & ->)|(upd & jp & Hupd & Hp & ->)])])];
      cbn [snd]; try by repeat constructor.
    constructor; [done|].
    pose proof (persist_step_frame h c (id_ ev) (type_ ev) upd w) as [Hj _].
    by rewrite Hp in Hj.
  - intros h' Hne.
    destruct (run (Package.entityEventHandler h c hs ev) w) as [[o w'] j] eqn:Hrun.
    destruct (package_run_handler_inv _ _ _ _ _ _ _ _ Hrun)
      as [(e & _ & _ & _ & -> & _)
         |(cur & Hcur & [(_ & _ & -> & _)
                        |(f & Hf & [(e & _ & _ & -> & _)|(upd & jp & Hupd & Hp & _)])])];
      cbn [fst snd]; try done.
    pose proof (persist_step_frame h c (id_ ev) (type_ ev) upd w) as [_ Hw].
    rewrite Hp in Hw. by apply Hw.
  - intros Hro h' Hne.
    destruct (run (SideHandlers.entityEventHandler h c hs ev sh) w)
      as [[o w'] j] eqn:Hrun.
    destruct (run_handler_inv _ _ _ _ _ _ _ _ _ Hrun)
      as [(e & _ & _ & _ & -> & _)
         |(cur & Hcur & [(_ & _ & -> & _)
                        |(f & Hf & [(e & _ & _ & -> & _)
                                   |(upd & Hupd & [(e & js & Hside & _)
                                                  |(handled & w1 & js & jp & Hside & Hp & _)])])])];
      cbn [fst snd]; try done.
    + pose proof (run_read_only _ w (Hro cur upd)) as [Hw _].
      rewrite Hside in Hw. cbn in Hw. by subst w'.
    + pose proof (run_read_only _ w (Hro cur upd)) as [Hw _].
      rewrite Hside in Hw. cbn in Hw. subst w1.
      pose proof (persist_step_frame h c (id_ ev) (type_ ev) handled w) as [_ Hw].
      rewrite Hp in Hw. by apply Hw.
Qed.

End CycleContract.

(** * More about one cycle on tables that are object literals *)

Section LiteralContract.
Context {EventType EntityType PersistenceEntityType Any Store : Type}.
Context `{!Persistable EventType, !Tagged EventType, !Handled EntityType}.
Context `{!Nullable EntityType}.
Context `{!Persistence EntityType PersistenceEntityType Store}.
Local Abbreviation Event := (EventOrCluster EventType Any).
Local Abbreviation Transitions :=
  (gmap string (option EntityType → Event → outcome EntityType)).
Local Abbreviation Coordinations :=
  (gmap string (option EntityType → Event → EntityType
                → Async EntityType PersistenceEntityType EntityType)).
Implicit Types (ev : Event) (w : World Store) (h : handle).
Implicit Types (c : PersistenceEntityType) (hs : Transitions).
Implicit Types (sh : option Coordinations) (cur : option EntityType).
Implicit Types (table : Coordinations) (f : option EntityType → Event → outcome EntityType).

Local Abbreviation id_ ev := (id_of (first_event ev)).
Local Abbreviation type_ ev := (eventType (meta_of (first_event ev))).

(** Where a table is read under a key that is an entry of it, or the name of
    no member of [Object.prototype], the steps are those of the handlers that
    read their tables by own entries. *)
Lemma literal_transition_own hs ev cur :
  (hs !! type_ ev = None → Object_prototype !! type_ ev = None) →
  Literal.transition hs ev cur
  = match hs !! type_ ev with
    | Some f =>
        match f cur ev with
        | Resolved upd => Resolved (AnEntity upd)
        | Rejected err => Rejected err
        end
    | None => Rejected not_a_function
    end.
Proof.
  intros Hproto. unfold Literal.transition, property.
  destruct (hs !! type_ ev) as [f|]; [done|]. by rewrite Hproto.
Qed.

Lemma literal_coordination_own sh ev cur upd w :
  (∀ table, sh = Some table → table !! type_ ev = None →
     Object_prototype !! type_ ev = None) →
  run (Literal.coordination sh ev cur (AnEntity upd)) w
  = let '(o, w1, js) := run (coordination sh ev cur upd) w in
    (match o with
     | Resolved handled => Resolved (AnEntity handled)
     | Rejected err => Rejected err
     end, w1, js).
Proof.
  intros Hproto. unfold Literal.coordination, coordination, property.
  destruct sh as [table|]; cbn [mbind option_bind]; [|done].
  destruct (table !! type_ ev) as [side|] eqn:Hs.
  - rewrite run_bind.
    destruct (run (side cur ev upd) w) as [[[handled|err] w1] js]; cbn;
      by rewrite ?app_nil_r.
  - by rewrite (Hproto table eq_refl Hs).
Qed.

(** What a cycle does once the fetch has answered, whatever the answer. *)
Lemma literal_run_handler_cases h c hs ev sh w :
  let fetch := (Get h c (id_ ev), get (w h) c (id_ ev)) in
  (∃ err, get (w h) c (id_ ev) = Rejected err ∧ type_ ev ≠ "add"
     ∧ run (Literal.SideHandlers.entityEventHandler h c hs ev sh) w
       = (Rejected err, w, [fetch]))
  ∨ (∃ cur, checks_out "add" (type_ ev) (get (w h) c (id_ ev)) cur
     ∧ run (Literal.SideHandlers.entityEventHandler h c hs ev sh) w =
       let '(o, w1, j) :=
         run (resume (Literal.SideHandlers.entityEventHandler h c hs ev sh)
                (Resolved cur)) w in
       (o, w1, fetch :: j)).
Proof.
  intros fetch. subst fetch. rewrite literal_run_handler.
  destruct (get (w h) c (id_ ev)) as [cur|err] eqn:Hget.
  - right. exists cur. split; [by left|done].
  - rewrite literal_resume_rejected.
    destruct (type_ ev =? "add")%string eqn:Htype.
    + right. exists None. split; [|done].
      right. exists err. by apply String.eqb_eq in Htype.
    + left. exists err. by apply String.eqb_neq in Htype.
Qed.

Lemma literal_package_run_handler_cases h c hs ev w :
  let fetch := (Get h c (id_ ev), get (w h) c (id_ ev)) in
  (∃ err, get (w h) c (id_ ev) = Rejected err ∧ type_ ev ≠ "new"
     ∧ run (Literal.Package.entityEventHandler h c hs ev) w
       = (Rejected err, w, [fetch]))
  ∨ (∃ cur, checks_out "new" (type_ ev) (get (w h) c (id_ ev)) cur
     ∧ run (Literal.Package.entityEventHandler h c hs ev) w =
       let '(o, w1, j) :=
         run (resume (Literal.SideHandlers.entityEventHandler h c hs ev None)
                (Resolved cur)) w in
       (o, w1, fetch :: j)).
Proof.
  intros fetch. subst fetch. rewrite literal_package_run_handler.
  destruct (get (w h) c (id_ ev)) as [cur|err] eqn:Hget.
  - right. exists cur. split; [by left|].
    by rewrite literal_package_resume_resolved.
  - rewrite literal_package_resume_rejected.
    destruct (type_ ev =? "new")%string eqn:Htype.
    + right. exists None. split; [|by rewrite literal_package_resume_resolved].
      right. exists err. by apply String.eqb_eq in Htype.
    + left. exists err. by apply String.eqb_neq in Htype.
Qed.

(** The fetch decides how the cycle goes on. *)
Lemma checks_out_unique creation type (r : reply EntityType) cur cur' :
  checks_out creation type r cur → checks_out creation type r cur' →
  cur = cur'.
Proof.
  intros [->|(e & -> & _ & ->)] [H'|(e' & H' & _ & ->)]; congruence.
Qed.

Lemma literal_run_checked_out h c hs ev sh w cur :
  checks_out "add" (type_ ev) (get (w h) c (id_ ev)) cur →
  run (Literal.SideHandlers.entityEventHandler h c hs ev sh) w =
  let '(o, w1, j) :=
    run (resume (Literal.SideHandlers.entityEventHandler h c hs ev sh)
           (Resolved cur)) w in
  (o, w1, (Get h c (id_ ev), get (w h) c (id_ ev)) :: j).
Proof.
  intros Hcur.
  destruct (literal_run_handler_cases h c hs ev sh w)
    as [(e & Hget & Htype & _)|(cur' & Hcur' & ->)].
  - exfalso. rewrite Hget in Hcur.
    by destruct Hcur as [?|(e' & _ & ? & _)].
  - by rewrite (checks_out_unique _ _ _ _ _ Hcur Hcur').
Qed.

Lemma literal_package_run_checked_out h c hs ev w cur :
  checks_out "new" (type_ ev) (get (w h) c (id_ ev)) cur →
  run (Literal.Package.entityEventHandler h c hs ev) w =
  let '(o, w1, j) :=
    run (resume (Literal.SideHandlers.entityEventHandler h c hs ev None)
           (Resolved cur)) w in
  (o, w1, (Get h c (id_ ev), get (w h) c (id_ ev)) :: j).
Proof.
  intros Hcur.
  destruct (literal_package_run_handler_cases h c hs ev w)
    as [(e & Hget & Htype & _)|(cur' & Hcur' & ->)].
  - exfalso. rewrite Hget in Hcur.
    by destruct Hcur as [?|(e' & _ & ? & _)].
  - by rewrite (checks_out_unique _ _ _ _ _ Hcur Hcur').
Qed.

(** When the persist step on an entity rejects, and with what. *)
Lemma literal_persist_step_rejects h c i type (handled : EntityType) w err :
  (Literal.persist_step h c i type (AnEntity handled) w).1.1 = Rejected err
  ↔ (∃ value, nullish handled = Some value
              ∧ err = cannot_read_of value "deleted")
    ∨ (nullish handled = None
       ∧ ((truthy (deleted handled) = true
           ∧ remove (w h) c i = Rejected err)
          ∨ (truthy (deleted handled) = false
             ∧ truthy (entity_id handled) = false
             ∧ err = cannot_save)
          ∨ (truthy (deleted handled) = false
             ∧ ∃ i', entity_id handled = Some i' ∧ truthy i' = true
                     ∧ put (w h) c i' handled = Rejected err))).
Proof.
  unfold Literal.persist_step, persist_step, perform.
  destruct (nullish handled) as [value|].
  { cbn. split; [intros [= <-]; eauto|].
    by intros [(v & [= <-] & ->)|[? _]]. }
  split.
  - intros Hp. right. split; [done|].
    destruct (truthy (deleted handled)).
    + left. split; [done|].
      destruct (remove (w h) c i) as [s|e]; [done|]. by injection Hp as ->.
    + right. destruct (entity_id handled) as [i'|];
        [|left; by injection Hp as <-].
      destruct (truthy i') eqn:Hi'; [|left; by injection Hp as <-].
      right. split; [done|]. exists i'. split; [done|]. split; [done|].
      destruct (put (w h) c i' handled) as [s|e]; [done|].
      by injection Hp as ->.
  - intros [(v & ? & _)|[_ [[-> Hrem]|[(-> & Hid & ->)|(-> & i' & -> & -> & Hput)]]]];
      [done| | |].
    + by rewrite Hrem.
    + destruct (entity_id handled) as [i'|]; [|done]. cbn in Hid.
      by rewrite Hid.
    + by rewrite Hput.
Qed.

(** X2.  When a cycle rejects, and with what.  The tables being object
    literals, take an event whose type is an entry of the transition table.
    The packaged cycle rejects with an error exactly when that error is: the
    error of the fetch, on an event that is not of type ['new']; what the
    transition function threw; the TypeError of reading [deleted] of [null] or
    [undefined], when that is what the transition function returned; the
    error of the remove or of the put; or the missing-id error.  So does the
    cycle with coordination handlers, where the type of the event is an entry
    of the coordination table or no property of it, with ['add'] for ['new'],
    with what the coordination step resolved with for what the transition
    function returned, and with the error the coordination function rejected
    with.  No other error comes out of such a cycle, and none of these is
    swallowed. *)
Theorem cycle_rejects_only_for_a_reason_of_its_steps h c hs ev sh w f err :
  hs !! type_ ev = Some f →
  (∀ table, sh = Some table → table !! type_ ev = None →
     Object_prototype !! type_ ev = None) →
  ((run (Literal.Package.entityEventHandler h c hs ev) w).1.1 = Rejected err
   ↔ (get (w h) c (id_ ev) = Rejected err ∧ type_ ev ≠ "new")
     ∨ ∃ cur, checks_out "new" (type_ ev) (get (w h) c (id_ ev)) cur
        ∧ (f cur ev = Rejected err
           ∨ ∃ upd, f cur ev = Resolved upd
              ∧ ((∃ value, nullish upd = Some value
                           ∧ err = cannot_read_of value "deleted")
                 ∨ (nullish upd = None
                    ∧ ((truthy (deleted upd) = true
                        ∧ remove (w h) c (id_ ev) = Rejected err)
                       ∨ (truthy (deleted upd) = false
                          ∧ truthy (entity_id upd) = false
                          ∧ err = cannot_save)
                       ∨ (truthy (deleted upd) = false
                          ∧ ∃ i, entity_id upd = Some i ∧ truthy i = true
                                 ∧ put (w h) c i upd = Rejected err))))))
  ∧ ((run (Literal.SideHandlers.entityEventHandler h c hs ev sh) w).1.1
     = Rejected err
     ↔ (get (w h) c (id_ ev) = Rejected err ∧ type_ ev ≠ "add")
       ∨ ∃ cur, checks_out "add" (type_ ev) (get (w h) c (id_ ev)) cur
          ∧ (f cur ev = Rejected err
             ∨ ∃ upd, f cur ev = Resolved upd
                ∧ ((run (coordination sh ev cur upd) w).1.1 = Rejected err
                   ∨ ∃ handled w1,
                       (run (coordination sh ev cur upd) w).1
                       = (Resolved handled, w1)
                       ∧ ((∃ value, nullish handled = Some value
                                    ∧ err = cannot_read_of value "deleted")
                          ∨ (nullish handled = None
                             ∧ ((truthy (deleted handled) = true
                                 ∧ remove (w1 h) c (id_ ev) = Rejected err)
                                ∨ (truthy (deleted handled) = false
                                   ∧ truthy (entity_id handled) = false
                                   ∧ err = cannot_save)
                                ∨ (truthy (deleted handled) = false
                                   ∧ ∃ i, entity_id handled = Some i
                                          ∧ truthy i = true
                                          ∧ put (w1 h) c i handled
                                            = Rejected err))))))).
Proof.
  intros Hf Hside.
  assert (∀ cur, Literal.transition hs ev cur
                 = match f cur ev with
                   | Resolved upd => Resolved (AnEntity upd)
                   | Rejected e => Rejected e
                   end) as Htrans.
  { intros cur. rewrite literal_transition_own; by rewrite Hf. }
  assert (∀ sh' cur,
    (∀ table, sh' = Some table → table !! type_ ev = None →
       Object_prototype !! type_ ev = None) →
    (run (resume (Literal.SideHandlers.entityEventHandler h c hs ev sh')
            (Resolved cur)) w).1.1 = Rejected err
    ↔ (f cur ev = Rejected err
       ∨ ∃ upd, f cur ev = Resolved upd
          ∧ ((run (coordination sh' ev cur upd) w).1.1 = Rejected err
             ∨ ∃ handled w1,
                 (run (coordination sh' ev cur upd) w).1
                 = (Resolved handled, w1)
                 ∧ (Literal.persist_step h c (id_ ev) (type_ ev)
                      (AnEntity handled) w1).1.1 = Rejected err)))
    as Hafter.
  { intros sh' cur Hside'. rewrite literal_run_after_checkout, Htrans.
    destruct (f cur ev) as [upd|e].
    2:{ cbn. split; [intros [= ->]; by left|].
        by intros [[= ->]|(upd & ? & _)]. }
    rewrite (literal_coordination_own _ _ _ _ _ Hside').
    destruct (run (coordination sh' ev cur upd) w) as [[[handled|e] w1] js]
      eqn:Hc.
    2:{ cbn [fst]. split.
        - intros [= ->]. right. exists upd. split; [done|]. left.
          by rewrite Hc.
        - intros [?|(upd' & [= <-] & [Hrej|(handled & w1' & Hres & _)])];
            [done| |]; rewrite Hc in *; [by injection Hrej as ->|done]. }
    destruct (Literal.persist_step h c (id_ ev) (type_ ev) (AnEntity handled) w1)
      as [[o w2] jp] eqn:Hp. cbn [fst].
    split.
    - intros ->. right. exists upd. split; [done|]. right.
      exists handled, w1. rewrite Hc. by rewrite Hp.
    - intros [?|(upd' & [= <-] & [Hrej|(handled' & w1' & Hres & Hrej)])];
        [done| |]; rewrite Hc in *; [done|].
      injection Hres as <- <-. by rewrite Hp in Hrej. }
  split.
  - split.
    + destruct (literal_package_run_handler_cases h c hs ev w)
        as [(e & Hget & Htype & ->)|(cur & Hcur & ->)].
      { intros [= ->]. by left. }
      intros Hrun. right. exists cur. split; [done|].
      destruct (run (resume _ _) w) as [[o w1] j] eqn:Hr. cbn in Hrun. subst o.
      pose proof (proj1 (Hafter None cur ltac:(done))) as Hreason.
      rewrite Hr in Hreason.
      destruct (Hreason eq_refl)
        as [?|(upd & Hupd & [Hrej|(handled & w1' & [= <- <-] & Hrej)])];
        [by left|done|].
      right. exists upd. split; [done|].
      by apply (literal_persist_step_rejects h c (id_ ev) (type_ ev) upd w err).
    + intros [[Hget Htype]|(cur & Hcur & Hreason)].
      * rewrite literal_package_run_handler, Hget.
        rewrite literal_package_resume_rejected.
        apply String.eqb_neq in Htype. by rewrite Htype.
      * rewrite (literal_package_run_checked_out _ _ _ _ _ _ Hcur).
        destruct (run (resume _ _) w) as [[o w1] j] eqn:Hr. cbn.
        pose proof (proj2 (Hafter None cur ltac:(done))) as Hrej.
        rewrite Hr in Hrej. apply Hrej.
        destruct Hreason as [?|(upd & Hupd & Hreason)]; [by left|].
        right. exists upd. split; [done|]. right. exists upd, w.
        split; [done|].
        by apply (literal_persist_step_rejects h c (id_ ev) (type_ ev) upd w err).
  - split.
    + destruct (literal_run_handler_cases h c hs ev sh w)
        as [(e & Hget & Htype & ->)|(cur & Hcur & ->)].
      { intros [= ->]. by left. }
      intros Hrun. right. exists cur. split; [done|].
      destruct (run (resume _ _) w) as [[o w1] j] eqn:Hr. cbn in Hrun. subst o.
      pose proof (proj1 (Hafter sh cur Hside)) as Hreason.
      rewrite Hr in Hreason.
      destruct (Hreason eq_refl)
        as [?|(upd & Hupd & [Hrej|(handled & w1' & Hrun & Hrej)])];
        [by left| |].
      * right. exists upd. split; [done|]. by left.
      * right. exists upd. split; [done|]. right. exists handled, w1'.
        split; [done|].
        by apply (literal_persist_step_rejects h c (id_ ev) (type_ ev)
                    handled w1' err).
    + intros [[Hget Htype]|(cur & Hcur & Hreason)].
      * rewrite literal_run_handler, Hget, literal_resume_rejected.
        apply String.eqb_neq in Htype. by rewrite Htype.
      * rewrite (literal_run_checked_out _ _ _ _ _ _ _ Hcur).
        destruct (run (resume _ _) w) as [[o w1] j] eqn:Hr. cbn.
        pose proof (proj2 (Hafter sh cur Hside)) as Hrej.
        rewrite Hr in Hrej. apply Hrej.
        destruct Hreason as [?|(upd & Hupd & [?|(handled & w1' & Hrun & Hreason)])];
          [by left| |].
        -- right. exists upd. split; [done|]. by left.
        -- right. exists upd. split; [done|]. right. exists handled, w1'.
           split; [done|].
           by apply (literal_persist_step_rejects h c (id_ ev) (type_ ev)
                       handled w1' err).
Qed.

(** X6.  The two handlers and the coordination table, the tables being object
    literals.  A coordination table with no entry for the type of the event,
    where that type is not the name of a member of [Object.prototype], is as
    good as no table: the cycle is the same computation.  (Under such a name
    the member is found and called: with the empty table and the type
    ['valueOf'] the cycle rejects with the missing-id error what it persists
    without a table.)  The packaged handler is the handler with coordination
    handlers and no table, as a computation for every event whose type is
    neither ['add'] nor ['new'], and in what it does whenever the fetch
    resolves. *)
Theorem handlers_agree_without_coordination h c hs ev table :
  table !! type_ ev = None →
  Object_prototype !! type_ ev = None →
  Literal.SideHandlers.entityEventHandler h c hs ev (Some table)
  = Literal.SideHandlers.entityEventHandler h c hs ev None
  ∧ (type_ ev ≠ "add" → type_ ev ≠ "new" →
     Literal.Package.entityEventHandler h c hs ev
     = Literal.SideHandlers.entityEventHandler h c hs ev None)
  ∧ (∀ w cur, get (w h) c (id_ ev) = Resolved cur →
     run (Literal.Package.entityEventHandler h c hs ev) w
     = run (Literal.SideHandlers.entityEventHandler h c hs ev None) w)
  ∧ (run (Literal.SideHandlers.entityEventHandler 0 Calculator.memoryCalcTable
            {["valueOf" := Calculator.addition]}
            (Calculator.event_of "valueOf" 2) (Some ∅))
       Calculator.memoryDB1).1.1
    = Rejected cannot_save
  ∧ (run (Literal.SideHandlers.entityEventHandler 0 Calculator.memoryCalcTable
            {["valueOf" := Calculator.addition]}
            (Calculator.event_of "valueOf" 2) None)
       Calculator.memoryDB1).1.1
    = Resolved
        (Some {| value_of := {| Calculator.calc_id := Some "test-1";
                                Calculator.calc_amount := 3;
                                Calculator.calc_deleted := None |};
                 meta := {| entity := Calculator.memoryCalcTable;
                            eventType := "valueOf" |} |}).
Proof.
  intros Hnone Hproto. split; [|split; [|split; [|by vm_compute]]].
  - unfold Literal.SideHandlers.entityEventHandler.
    pose proof (property_missing table _ Hnone Hproto) as Hm.
    destruct ev; cbn [first_event] in Hm; rewrite Hm; done.
  - intros Hadd Hnew. apply String.eqb_neq in Hadd, Hnew.
    unfold Literal.SideHandlers.entityEventHandler,
      Literal.Package.entityEventHandler.
    destruct ev; cbn [first_event] in Hadd, Hnew; rewrite Hadd, Hnew; done.
  - intros w cur Hget.
    rewrite literal_package_run_handler, literal_run_handler, Hget.
    by rewrite literal_package_resume_resolved.
Qed.

(** X22.  Reading the tables by their own entries is exact outside the names
    of [Object.prototype].  The tables being object literals and no entity
    being [null] or [undefined]: whenever the type of the event is an entry of
    the transition table or not the name of an inherited member, and likewise
    for the coordination table where one is given, the cycle is the cycle of
    the handler that reads its tables by own entries, with the same outcome,
    the same world afterwards and the same store calls. *)
Theorem own_entries_decide_the_cycle h c hs ev sh w :
  (∀ e : EntityType, nullish e = None) →
  (hs !! type_ ev = None → Object_prototype !! type_ ev = None) →
  (∀ table, sh = Some table → table !! type_ ev = None →
     Object_prototype !! type_ ev = None) →
  run (Literal.SideHandlers.entityEventHandler h c hs ev sh) w
  = (let '(o, w', j) := run (SideHandlers.entityEventHandler h c hs ev sh) w in
     (match o with
      | Resolved r => Resolved (Some r)
      | Rejected err => Rejected err
      end, w', j))
  ∧ run (Literal.Package.entityEventHandler h c hs ev) w
    = (let '(o, w', j) := run (Package.entityEventHandler h c hs ev) w in
       (match o with
        | Resolved r => Resolved (Some r)
        | Rejected err => Rejected err
        end, w', j)).
Proof.
  intros Hnull Hproto Hside.
  assert (∀ sh' cur,
    (∀ table, sh' = Some table → table !! type_ ev = None →
       Object_prototype !! type_ ev = None) →
    run (resume (Literal.SideHandlers.entityEventHandler h c hs ev sh')
           (Resolved cur)) w
    = (let '(o, w', j) :=
         run (resume (SideHandlers.entityEventHandler h c hs ev sh')
                (Resolved cur)) w in
       (match o with
        | Resolved r => Resolved (Some r)
        | Rejected err => Rejected err
        end, w', j))) as Hresume.
  { intros sh' cur Hside'.
    rewrite literal_run_after_checkout, run_after_checkout.
    rewrite (literal_transition_own _ _ _ Hproto).
    destruct (hs !! type_ ev) as [f|]; [|done].
    destruct (f cur ev) as [upd|err]; [|done].
    rewrite (literal_coordination_own _ _ _ _ _ Hside').
    unfold coordination.
    destruct (run _ w) as [[[handled|err] w1] js]; [|done].
    unfold Literal.persist_step. rewrite Hnull.
    by destruct (persist_step _ _ _ _ _ _) as [[[r|err] w2] jp]. }
  split.
  - rewrite literal_run_handler, run_handler.
    destruct (get (w h) c (id_ ev)) as [cur|err].
    + rewrite (Hresume sh cur Hside).
      by destruct (run _ w) as [[o w'] j].
    + rewrite literal_resume_rejected, resume_rejected.
      destruct (type_ ev =? "add")%string; [|done].
      rewrite (Hresume sh None Hside).
      by destruct (run _ w) as [[o w'] j].
  - rewrite literal_package_run_handler, package_run_handler.
    destruct (get (w h) c (id_ ev)) as [cur|err].
    + rewrite literal_package_resume_resolved, package_resume_resolved.
      rewrite (Hresume None cur); [|done].
      by destruct (run _ w) as [[o w'] j].
    + rewrite literal_package_resume_rejected, package_resume_rejected.
      destruct (type_ ev =? "new")%string; [|done].
      rewrite literal_package_resume_resolved, package_resume_resolved.
      rewrite (Hresume None None); [|done].
      by destruct (run _ w) as [[o w'] j].
Qed.
End LiteralContract.

(** * More about the service *)

Section StreamExtras.
Context {Input R EntityType PersistenceEntityType Store : Type}.
Context `{!Persistence EntityType PersistenceEntityType Store}.
Variable project : Input * handle → Async EntityType PersistenceEntityType R.

Local Abbreviation Pipe' := (Pipe Input R EntityType PersistenceEntityType Store).
Implicit Types (p : Pipe') (w : World Store) (xs : list (Input * handle)).
Implicit Types (acts : list (Action Input)).

(** A failed subscription stays as it is, whatever happens. *)
Lemma concatMap_failed_step a p :
  failure p ≠ None → active p = ∅ → buffer p = [] →
  let q := concatMap project a p in
  failure q = failure p ∧ active q = ∅ ∧ buffer q = []
  ∧ journal q = journal p ∧ world q = world p ∧ out q = out p.
Proof.
  intros Hf Ha Hb q. subst q. destruct a as [h|event|n].
  - done.
  - unfold concatMap, mergeMap. by destruct (failure p) eqn:E.
  - unfold concatMap, mergeMap. by rewrite Ha, lookup_empty.
Qed.

Lemma concatMap_failed_schedule acts p :
  failure p ≠ None → active p = ∅ → buffer p = [] →
  let q := schedule (concatMap project) acts p in
  failure q = failure p ∧ active q = ∅ ∧ buffer q = []
  ∧ journal q = journal p ∧ world q = world p ∧ out q = out p.
Proof.
  revert p. induction acts as [|a acts IH]; intros p Hf Ha Hb; [done|].
  cbn [schedule fold_left].
  destruct (concatMap_failed_step a p Hf Ha Hb) as (Hf1 & Ha1 & Hb1 & Hj1 & Hw1 & Ho1).
  destruct (IH (concatMap project a p)) as (Hf2 & Ha2 & Hb2 & Hj2 & Hw2 & Ho2);
    [by rewrite Hf1|done..|].
  cbn zeta. unfold schedule in *.
  rewrite Hf2, Ha2, Hb2, Hj2, Hw2, Ho2. done.
Qed.

Lemma concatMap_failure_is_final w0 acts later :
  let p := schedule (concatMap project) acts (subscribed_pipe w0) in
  failure p ≠ None →
  let q := schedule (concatMap project) later p in
  failure q = failure p ∧ active q = ∅ ∧ buffer q = []
  ∧ journal q = journal p ∧ world q = world p ∧ out q = out p.
Proof.
  intros p Hf.
  pose proof (serial_schedule project w0 acts [] _ (serial_subscribed project w0)) as HS.
  fold p in HS.
  apply concatMap_failed_schedule; [done|..];
    destruct HS as [? ? ? ? ?|pre x m j0 wk jdone jrest o w' ? ? ? ? ? ? ? ?|e ? ? ? ?];
    done.
Qed.

(** The outputs of the reference: one per input, in order, until the first
    rejection. *)
Lemma sequentially_out n xs w i r :
  (sequentially project n xs w).1.2 !! i = Some r →
  ∃ x w', xs !! i = Some x ∧ (run (project x) w').1.1 = Resolved r.
Proof.
  revert n w i. induction xs as [|x xs IH]; intros n w i; [done|].
  cbn [sequentially].
  destruct (run (project x) w) as [[[a|e] w1] j] eqn:Hrun; [|done].
  specialize (IH (S n) w1).
  destruct (sequentially project (S n) xs w1) as [[[js w2] outs] err].
  cbn [fst snd] in *. destruct i as [|i]; simpl.
  - intros [= <-]. exists x, w. by rewrite Hrun.
  - intros Hr. destruct (IH i Hr) as (x' & w' & Hx & Hx'). eauto.
Qed.

Lemma sequentially_out_length n xs w J W O :
  sequentially project n xs w = (J, W, O, None) → length O = length xs.
Proof.
  revert n w J W O. induction xs as [|x xs IH]; intros n w J W O.
  - by intros [= <- <- <-].
  - cbn [sequentially].
    destruct (run (project x) w) as [[[a|e] w1] j]; [|done].
    specialize (IH (S n) w1).
    destruct (sequentially project (S n) xs w1) as [[[js w2] outs] err].
    intros [= <- <- <- ->]. cbn. f_equal. by eapply IH.
Qed.

(** What a subscription has emitted is what the reference emits on an initial
    part of the accepted inputs; and while it has not failed every accepted
    input is emitted, in flight or waiting. *)
Lemma serial_out w0 xs p :
  Serial project w0 xs p →
  (∃ pre, pre `prefix_of` xs ∧ out p = (sequentially project 0 pre w0).1.2)
  ∧ (failure p = None →
     length (out p) + size (active p) + length (buffer p) = length xs)
  ∧ (buffer p ≠ [] → size (active p) = 1).
Proof.
  intros [Hf Ha Hb Hs Hseq|pre x m j0 wk jdone jrest o w' Hf Ha Hs Hxs Hseq Hrun Hm Hj|e Hf Ha Hb Hseq].
  - split; [|split; [|done]].
    + exists xs. split; [done|]. by rewrite Hseq.
    + intros _. rewrite Ha, Hb, map_size_empty.
      apply sequentially_out_length in Hseq. cbn. lia.
  - split; [|split].
    + exists pre. split; [by eexists; exact Hxs|]. by rewrite Hseq.
    + intros _. rewrite Ha, map_size_singleton, Hxs, length_app.
      apply sequentially_out_length in Hseq. cbn. lia.
    + intros _. by rewrite Ha, map_size_singleton.
  - split; [|split; [by rewrite Hf|done]].
    exists xs. split; [done|]. by rewrite Hseq.
Qed.

Lemma concatMap_out w0 acts :
  let p := schedule (concatMap project) acts (subscribed_pipe w0) in
  (∀ i r, out p !! i = Some r →
     ∃ x w', accepted None acts !! i = Some x
             ∧ (run (project x) w').1.1 = Resolved r)
  ∧ (failure p = None →
     length (out p) + size (active p) + length (buffer p)
     = length (accepted None acts))
  ∧ (buffer p ≠ [] → size (active p) = 1).
Proof.
  intros p.
  pose proof (serial_schedule project w0 acts [] _ (serial_subscribed project w0)) as HS.
  fold p in HS. cbn [app] in HS.
  change (latest (subscribed_pipe w0)) with (@None handle) in HS.
  destruct (serial_out _ _ _ HS) as ((pre & Hpre & Hout) & Hcount & Hwait).
  split; [|done].
  intros i r Hr. rewrite Hout in Hr.
  destruct (sequentially_out _ _ _ _ _ Hr) as (x & w' & Hx & Hrun).
  exists x, w'. split; [|done]. by eapply prefix_lookup_Some.
Qed.
(** Promise steps let no event in. *)
Lemma accepted_promises seen acts more :
  Forall (λ a, ∃ n, a = PromiseAdvances n) more →
  accepted seen (acts ++ more) = accepted seen acts.
Proof.
  intros Hmore. revert seen. induction acts as [|a acts IH]; intros seen.
  - cbn. induction Hmore as [|a more [n ->] _ IH]; [done|]. exact IH.
  - destruct a as [h|event|n]; cbn; [apply IH| |apply IH].
    destruct seen; [|apply IH]. by rewrite IH.
Qed.

(** The promise in flight settles after finitely many steps, and the next
    value waiting, if there is one, is started. *)
Lemma promise_settles (m : Async EntityType PersistenceEntityType R) p n :
  active p = {[n := m]} → failure p = None →
  ∃ k,
    let q := schedule (concatMap project) (replicate k (PromiseAdvances n)) p in
    (active q = ∅ ∧ buffer q = [])
    ∨ (failure q = None
       ∧ ∃ x, head (buffer p) = Some x
              ∧ active q = {[subscribed p := project x]}
              ∧ buffer q = tail (buffer p)).
Proof.
  revert p. induction m as [a|e|op cont IH]; intros p Ha Hf.
  - exists 1. cbn. unfold concatMap, mergeMap.
    rewrite Ha, lookup_singleton_eq, Hf, delete_singleton_eq.
    destruct (buffer p) as [|x rest]; cbn; [by left|].
    rewrite map_size_empty. cbn [Nat.ltb Nat.leb].
    right. unfold doInnerSub. cbn.
    destruct rest as [|y rest]; cbn.
    + split; [done|]. exists x. by rewrite insert_empty.
    + rewrite insert_empty, map_size_singleton. cbn.
      split; [done|]. by exists x.
  - exists 1. cbn. unfold concatMap, mergeMap.
    rewrite Ha, lookup_singleton_eq, Hf, delete_singleton_eq. cbn. by left.
  - destruct (perform op (world p)) as [r w1] eqn:Hp.
    destruct (IH r {| latest := latest p; buffer := buffer p;
                      active := {[n := cont r]};
                      subscribed := subscribed p; out := out p;
                      failure := failure p; world := w1;
                      journal := journal p ++ [Performed n op r] |})
      as [k Hk]; [done..|].
    exists (S k). cbn [replicate schedule fold_left].
    assert (concatMap project (PromiseAdvances n) p
            = {| latest := latest p; buffer := buffer p;
                 active := {[n := cont r]};
                 subscribed := subscribed p; out := out p;
                 failure := failure p; world := w1;
                 journal := journal p ++ [Performed n op r] |}) as ->; [|exact Hk].
    unfold concatMap, mergeMap.
    rewrite Ha, lookup_singleton_eq, Hp. by rewrite insert_singleton_eq.
Qed.

Lemma replicate_promises k n :
  Forall (λ a : Action Input, ∃ n, a = PromiseAdvances n)
    (replicate k (PromiseAdvances n)).
Proof. apply Forall_replicate. by exists n. Qed.

(** With one promise in flight and values waiting, promise steps bring the
    subscription to rest. *)
Lemma busy_comes_to_rest (b : nat) p n m :
  length (buffer p) = b → active p = {[n := m]} → failure p = None →
  ∃ more,
    Forall (λ a, ∃ n, a = PromiseAdvances n) more
    ∧ quiescent (schedule (concatMap project) more p).
Proof.
  revert p n m. induction b as [|b IH]; intros p n m Hb Ha Hf.
  - destruct (promise_settles m p n Ha Hf) as [k [Hq|(_ & x & Hx & _)]].
    + exists (replicate k (PromiseAdvances n)).
      split; [apply replicate_promises|done].
    + by destruct (buffer p).
  - destruct (promise_settles m p n Ha Hf) as [k [Hq|(Hf' & x & Hx & Ha' & Hb')]].
    + exists (replicate k (PromiseAdvances n)).
      split; [apply replicate_promises|done].
    + destruct (IH _ _ _ ltac:(rewrite Hb'; destruct (buffer p); cbn in *; lia)
                  Ha' Hf')
        as (more & Hmore & Hq).
      exists (replicate k (PromiseAdvances n) ++ more).
      split; [apply Forall_app; split; [apply replicate_promises|done]|].
      unfold schedule in *. by rewrite fold_left_app.
Qed.

(** Whatever has happened, letting the promises advance brings the
    subscription to rest, with everything as the cycles run one after the
    other leave it. *)
Lemma concatMap_comes_to_rest w0 acts :
  ∃ more,
    Forall (λ a, ∃ n, a = PromiseAdvances n) more
    ∧ let p := schedule (concatMap project) (acts ++ more) (subscribed_pipe w0) in
      quiescent p
      ∧ (journal p, world p, out p, failure p)
        = sequentially project 0 (accepted None acts) w0.
Proof.
  pose proof (serial_schedule project w0 acts [] _ (serial_subscribed project w0)) as HS.
  assert (∃ more,
            Forall (λ a, ∃ n, a = PromiseAdvances n) more
            ∧ quiescent (schedule (concatMap project) more
                           (schedule (concatMap project) acts (subscribed_pipe w0))))
    as (more & Hmore & Hq).
  { destruct HS as [Hf Ha Hb Hs Hseq|pre x m j0 wk jdone jrest o w' Hf Ha Hs Hxs Hseq Hrun Hm Hj|e Hf Ha Hb Hseq].
    - exists []. split; [constructor|done].
    - by eapply busy_comes_to_rest.
    - exists []. split; [constructor|done]. }
  exists more. split; [done|]. intros p.
  assert (quiescent p) as Hq'.
  { subst p. unfold schedule in *. by rewrite fold_left_app. }
  split; [done|].
  destruct (concatMap_serializes project w0 (acts ++ more))
    as (_ & _ & _ & _ & Href).
  fold p in Href. rewrite (Href (or_introl Hq')).
  by rewrite accepted_promises.
Qed.
End StreamExtras.

Section ServiceExtras.
Context {EventType EntityType PersistenceEntityType Any Store : Type}.
Context `{!Persistable EventType, !Tagged EventType, !Handled EntityType}.
Context `{!Persistence EntityType PersistenceEntityType Store}.
Local Abbreviation Event := (EventOrCluster EventType Any).
Local Abbreviation id_ ev := (id_of (first_event ev)).
Local Abbreviation type_ ev := (eventType (meta_of (first_event ev))).
Implicit Types (hs : gmap string (EntityEventHandler EventType Any EntityType)).
Implicit Types
  (sh : option (gmap string
                  (SideEventHandler EventType Any EntityType
                     PersistenceEntityType))).
Implicit Types
  (wrapper : option ((unit → EntityEventHandler EventType Any EntityType)
                     → EntityEventHandler EventType Any EntityType)).
Implicit Types (c : PersistenceEntityType) (w : World Store).

(** The packaged service is [concatMap] over the handler with the table the
    wrapper leaves. *)
Lemma package_service_unfold c hs wrapper :
  Package.entityServiceFactory (Store:=Store) c hs wrapper
  = concatMap (λ '(event, persistence),
      Package.entityEventHandler (Any:=Any) persistence c
        (effectiveHandlers wrapper hs) event).
Proof. by destruct wrapper. Qed.

(** X7.  The wrapper.  A wrapper that calls the thunk it is given and returns
    the handler as it is changes nothing: the wrapped table is the table, and
    the service does at every step what the service without wrapper does.
    And no wrapper adds or removes an event type: the wrapped table has an
    entry exactly for the types the table has one for. *)
Theorem identity_wrapper_changes_nothing c hs
    (a : Action Event)
    (p : Pipe Event (WithMeta EntityType PersistenceEntityType) EntityType
           PersistenceEntityType Store) :
  Package.wrappedEventHandlers (λ thunk, thunk ()) hs = hs
  ∧ Package.entityServiceFactory c hs (Some (λ thunk, thunk ())) a p
    = Package.entityServiceFactory c hs None a p
  ∧ (∀ eventHandlerWrapper key,
       is_Some (Package.wrappedEventHandlers eventHandlerWrapper hs !! key)
       ↔ is_Some (hs !! key)).
Proof.
  assert (Package.wrappedEventHandlers (λ thunk, thunk ()) hs = hs) as Hid.
  { unfold Package.wrappedEventHandlers. apply map_fmap_id. }
  split; [done|]. split.
  - unfold Package.entityServiceFactory. by rewrite Hid.
  - intros eventHandlerWrapper key. unfold Package.wrappedEventHandlers.
    rewrite lookup_fmap. apply fmap_is_Some.
Qed.
(** X9.  A service that has failed is finished.  Once a cycle has rejected,
    nothing is in flight or waiting, and whatever arrives afterwards, events
    and stores alike, changes neither the stores, nor the outputs, nor the
    error: no later event is handled. *)
Theorem failed_service_ignores_what_follows c hs sh wrapper w0
    (acts later : list (Action Event)) :
  (let p := schedule (Package.entityServiceFactory c hs wrapper) acts
              (subscribed_pipe w0) in
   failure p ≠ None →
   let q := schedule (Package.entityServiceFactory c hs wrapper) later p in
   failure q = failure p ∧ active q = ∅ ∧ buffer q = []
   ∧ journal q = journal p ∧ world q = world p ∧ out q = out p)
  ∧ (let p := schedule (SideHandlers.entityServiceFactory c hs sh) acts
                (subscribed_pipe w0) in
     failure p ≠ None →
     let q := schedule (SideHandlers.entityServiceFactory c hs sh) later p in
     failure q = failure p ∧ active q = ∅ ∧ buffer q = []
     ∧ journal q = journal p ∧ world q = world p ∧ out q = out p).
Proof.
  split.
  - rewrite package_service_unfold. apply concatMap_failure_is_final.
  - apply concatMap_failure_is_final.
Qed.


(** X11.  No accepted event is lost or handled twice: while a service has not
    failed, every event that [withLatestFrom] let through has been emitted, is
    in flight or is waiting, each once; and an event waits only behind a
    cycle that is in flight, never while the service is idle. *)
Theorem no_accepted_event_is_lost c hs sh wrapper w0
    (acts : list (Action Event)) :
  (let p := schedule (Package.entityServiceFactory c hs wrapper) acts
              (subscribed_pipe w0) in
   (failure p = None →
    length (out p) + size (active p) + length (buffer p)
    = length (accepted None acts))
   ∧ (buffer p ≠ [] → size (active p) = 1))
  ∧ (let p := schedule (SideHandlers.entityServiceFactory c hs sh) acts
                (subscribed_pipe w0) in
     (failure p = None →
      length (out p) + size (active p) + length (buffer p)
      = length (accepted None acts))
     ∧ (buffer p ≠ [] → size (active p) = 1)).
Proof.
  split.
  - rewrite package_service_unfold. apply concatMap_out.
  - apply (concatMap_out
             (λ '(event, persistence),
                SideHandlers.entityEventHandler (Any:=Any) persistence c hs
                  event sh)).
Qed.

(** X12.  Letting the promises advance brings a service to rest.  Whatever
    has happened in a subscription, there are finitely many promise steps
    after which nothing is in flight or waiting; and then the journal, the
    stores, the outputs and the error, if any, are those of the cycles of the
    accepted events run one after the other in arrival order.  (The promises
    of the model always settle: a coordination function is a finite
    computation.) *)
Theorem promises_advancing_bring_the_service_to_rest c hs sh wrapper w0
    (acts : list (Action Event)) :
  (∃ more,
     Forall (λ a, ∃ n, a = PromiseAdvances n) more
     ∧ let p := schedule (Package.entityServiceFactory c hs wrapper)
                  (acts ++ more) (subscribed_pipe w0) in
       quiescent p
       ∧ (journal p, world p, out p, failure p)
         = sequentially
             (λ '(event, persistence),
                Package.entityEventHandler persistence c
                  (effectiveHandlers wrapper hs) event)
             0 (accepted None acts) w0)
  ∧ (∃ more,
       Forall (λ a, ∃ n, a = PromiseAdvances n) more
       ∧ let p := schedule (SideHandlers.entityServiceFactory c hs sh)
                    (acts ++ more) (subscribed_pipe w0) in
         quiescent p
         ∧ (journal p, world p, out p, failure p)
           = sequentially
               (λ '(event, persistence),
                  SideHandlers.entityEventHandler persistence c hs event sh)
               0 (accepted None acts) w0).
Proof.
  split.
  - rewrite package_service_unfold. apply concatMap_comes_to_rest.
  - apply (concatMap_comes_to_rest
             (λ '(event, persistence),
                SideHandlers.entityEventHandler (Any:=Any) persistence c hs
                  event sh)).
Qed.

End ServiceExtras.

(** * More about the deduplication filter *)

Section DedupExtras.
Context {T : Type} `{!Persistable T}.
Implicit Types (map : gmap string bool) (events : list T).

(** What passes was not in the [Map], and no two of the values that pass
    share an id. *)
Lemma feed_distinct map events :
  NoDup (id_of <$> (feed map events).1)
  ∧ (∀ i, i ∈ id_of <$> (feed map events).1 →
          map !! i = None ∧ i ∈ id_of <$> events)
  ∧ (feed map events).1 `sublist_of` events.
Proof.
  revert map. induction events as [|event rest IH]; intros map; cbn [feed].
  - cbn. split; [constructor|]. split; [|done].
    intros i Hi. by apply elem_of_nil in Hi.
  - pose proof (previouslyUnseen_keep map event) as Hkeep.
    pose proof (previouslyUnseen_map map event) as Hmap.
    destruct (previouslyUnseen map event) as [keep map1].
    destruct (IH map1) as (Hnd & Hin & Hsub).
    destruct (feed map1 rest) as [passed map2]. cbn [fst snd] in *.
    destruct keep.
    + symmetry in Hkeep. apply bool_decide_eq_true in Hkeep.
      split; [|split].
      * rewrite fmap_cons. constructor; [|done].
        intros Hi. apply Hin in Hi as [Hi _]. apply Hmap in Hi. tauto.
      * intros i. rewrite !fmap_cons, !elem_of_cons. intros [->|Hi]; [tauto|].
        apply Hin in Hi as [Hi ?]. apply Hmap in Hi. tauto.
      * by apply sublist_skip.
    + split; [done|]. split.
      * intros i Hi. apply Hin in Hi as [Hi ?]. apply Hmap in Hi.
        rewrite fmap_cons, elem_of_cons. tauto.
      * by apply sublist_cons.
Qed.

(** Every id that arrives and is not in the [Map] is among the ids that
    pass. *)
Lemma feed_covers map events i :
  i ∈ id_of <$> events → map !! i = None → i ∈ id_of <$> (feed map events).1.
Proof.
  revert map. induction events as [|event rest IH]; intros map; cbn [feed].
  - intros Hi. by apply elem_of_nil in Hi.
  - pose proof (previouslyUnseen_keep map event) as Hkeep.
    pose proof (previouslyUnseen_map map event i) as Hmap.
    destruct (previouslyUnseen map event) as [keep map1].
    specialize (IH map1).
    destruct (feed map1 rest) as [passed map2]. cbn [fst snd] in *.
    rewrite fmap_cons, elem_of_cons. intros Hi Hnone.
    destruct (decide (i = id_of event)) as [->|Hne].
    + rewrite bool_decide_true in Hkeep by done. subst keep.
      rewrite fmap_cons. by left.
    + destruct Hi as [?|Hi]; [done|].
      assert (i ∈ id_of <$> passed) by (apply IH; [done|]; apply Hmap; done).
      destruct keep; [|done]. rewrite fmap_cons. by right.
Qed.

(** Values whose ids are all in the [Map] are all dropped. *)
Lemma feed_seen map events :
  (∀ event, event ∈ events → is_Some (map !! id_of event)) →
  feed map events = ([], map).
Proof.
  induction events as [|event rest IH]; intros Hseen; [done|].
  cbn [feed]. unfold previouslyUnseen.
  rewrite bool_decide_true by (apply Hseen; by left).
  rewrite IH; [done|]. intros e He. apply Hseen. by right.
Qed.

(** Values with distinct ids none of which is in the [Map] all pass. *)
Lemma feed_fresh map events :
  NoDup (id_of <$> events) →
  (∀ event, event ∈ events → map !! id_of event = None) →
  (feed map events).1 = events.
Proof.
  revert map. induction events as [|event rest IH]; intros map Hnd Hfresh;
    [done|].
  cbn [feed]. unfold previouslyUnseen.
  rewrite bool_decide_false.
  2:{ rewrite (Hfresh event) by (by left). apply is_Some_None. }
  rewrite fmap_cons in Hnd. apply NoDup_cons in Hnd as [Hev Hnd].
  specialize (IH (<[id_of event := true]> map) Hnd).
  destruct (feed _ rest) as [passed map2]. cbn [fst] in *.
  rewrite IH; [done|]. intros e He.
  rewrite lookup_insert_ne; [apply Hfresh; by right|].
  intros Heq. apply Hev. rewrite Heq. by apply list_elem_of_fmap_2.
Qed.

(** X13.  What one instance of the filter passes on, from its empty [Map]:
    values with pairwise distinct ids, in the order in which they arrived;
    every id that arrived is among them; and the first value that arrives
    always passes. *)
Theorem passed_values_have_distinct_ids events :
  let passed := (feed filterPreviouslySeenIds events).1 in
  NoDup (id_of <$> passed)
  ∧ passed `sublist_of` events
  ∧ (∀ i, i ∈ id_of <$> passed ↔ i ∈ id_of <$> events)
  ∧ head passed = head events.
Proof.
  intros passed. subst passed.
  destruct (feed_distinct filterPreviouslySeenIds events) as (Hnd & Hin & Hsub).
  split; [done|]. split; [done|]. split.
  - intros i. split; [intros Hi; by apply Hin in Hi as [_ ?]|].
    intros Hi. by apply feed_covers.
  - destruct events as [|event rest]; [done|]. cbn [feed].
    unfold previouslyUnseen, filterPreviouslySeenIds.
    rewrite lookup_empty, bool_decide_false by apply is_Some_None.
    by destruct (feed _ rest).
Qed.

(** X14.  The [Map] is never emptied: values whose ids have all gone through
    an instance are all dropped by that instance, which stays as it is, so
    that replaying a batch through the same pipe yields nothing.  The [Map]
    is the instance's own: what one instance has passed on goes through a new
    instance whole. *)
Theorem replay_passes_nothing_and_a_new_instance_everything events again :
  (∀ event, event ∈ again → id_of event ∈ id_of <$> events) →
  feed (feed filterPreviouslySeenIds events).2 again
  = ([], (feed filterPreviouslySeenIds events).2)
  ∧ (feed filterPreviouslySeenIds (feed filterPreviouslySeenIds events).1).1
    = (feed filterPreviouslySeenIds events).1.
Proof.
  intros Hagain. split.
  - apply feed_seen. intros event Hev.
    rewrite <-not_eq_None_Some, feed_map. intros [_ Hnot].
    by apply Hnot, Hagain.
  - apply feed_fresh; [apply feed_distinct|].
    intros event _. apply lookup_empty.
Qed.
End DedupExtras.

(** * More about the subject factories *)

Section SubjectExtras.
Context {T : Type}.
Implicit Types (subject : SubjectLike T).

Lemma sent_next {E} (f : E → T) (events : list E) subject :
  received (sent (λ event, next (f event)) events subject)
  = (λ seen, seen ++ (f <$> events)) <$> received subject
  ∧ replayed (sent (λ event, next (f event)) events subject)
    = match subject with
      | BehaviorSubject current _ => [default current (last (f <$> events))]
      | Subject _ => []
      end.
Proof.
  revert subject. induction events as [|event rest IH]; intros subject.
  - cbn. split; [|by destruct subject].
    destruct subject as [current observers|observers]; cbn;
      rewrite <-(list_fmap_id observers) at 1; apply list_fmap_ext;
      intros ? seen _; by rewrite app_nil_r.
  - cbn [sent fold_left]. destruct (IH (next (f event) subject)) as [Hr Hc].
    unfold sent in *. rewrite Hr, Hc. split.
    + destruct subject as [current observers|observers]; cbn;
        rewrite <-list_fmap_compose; apply list_fmap_ext;
        intros ? seen _; cbn; by rewrite <-app_assoc.
    + destruct subject as [current observers|observers]; cbn [next]; [|done].
      rewrite fmap_cons, last_cons. by destruct (last (f <$> rest)).
Qed.

Lemma subscribe_received subject :
  received (subscribe subject) = received subject ++ [replayed subject].
Proof. by destruct subject. Qed.
End SubjectExtras.

(** X15.  What an observer of the observable of [subjectFactory] receives:
    with a truthy default, at once the latest of the default and the values
    added before it subscribed, and nothing of the earlier ones; with a falsy
    or no default, nothing of what was added before it subscribed; and in
    both cases every value added afterwards, in order. *)
Theorem subscriber_receives_the_latest_and_what_follows
    {T} `{!Truthy T} (defaultValue : option T) (before after : list T) :
  let subject := (subjectFactory defaultValue).1 in
  let addEvent := (subjectFactory defaultValue).2 in
  received (sent addEvent after (subscribe (sent addEvent before subject)))
  = [match defaultValue with
     | Some value =>
         if truthy value then [default value (last before)] else []
     | None => []
     end ++ after].
Proof.
  intros subject addEvent. subst subject addEvent. cbn [subjectFactory fst snd].
  pose proof (sent_next (λ event : T, event)) as Hid.
  rewrite (proj1 (Hid _ _)), subscribe_received, fmap_app.
  rewrite (proj1 (Hid _ _)), (proj2 (Hid _ _)), !list_fmap_id.
  destruct defaultValue as [value|]; [|done].
  change (truthy (Some value)) with (truthy value).
  by destruct (truthy value).
Qed.

(** X16.  Every value that [addEvent] of [eventFactory] sends reaches the
    observer with the [meta] the factory was made with; a default value is
    replayed as it was given, with the [meta] it carries.  [command] of
    [commandFactory] sends as [addEvent] of the event factory with the [meta]
    of the [eventType] and [entity] of its [params] does. *)
Theorem values_sent_carry_the_meta_of_the_factory
    {T} (meta : Meta string) (defaultValue : option (WithMeta T string))
    (events : list T) :
  let subject := (eventFactory meta defaultValue).1 in
  let addEvent := (eventFactory meta defaultValue).2 in
  received (sent addEvent events (subscribe subject))
  = [option_list defaultValue ++ ((λ event, addMeta event meta) <$> events)]
  ∧ received (sent (commandFactory meta) events (subscribe subject))
    = [option_list defaultValue ++ ((λ event, addMeta event meta) <$> events)].
Proof.
  intros subject addEvent. subst subject addEvent.
  assert (commandFactory (T:=T) meta = (eventFactory meta defaultValue).2) as ->.
  { by destruct meta. }
  cbn [eventFactory fst snd]. split.
  all: rewrite (proj1 (sent_next _ _ _)), subscribe_received;
    by destruct defaultValue.
Qed.

(** * The shop of the test suite at work *)

Section ShopProperties.
Context {Any : Type}.
Import Shop.
Implicit Types (items : list (option CartItem)) (it : CartItem).

(** X17.  The stock of an item never goes below zero: from no record or from
    a record whose stock is not negative, whatever sequence of [setStock]
    events with non-negative stocks and of [decrementStock] events the
    transition functions fold, the stock of the entity they arrive at is a
    number that is not negative. *)
Theorem stock_of_an_item_is_never_negative
    (hs : gmap string (EntityEventHandler ItemEvent Any Row))
    (events : list ItemEvent) (current : option Row) (final : Row) :
  hs !! "setStock" = Some setStock →
  hs !! "decrementStock" = Some decrementStock →
  Forall (λ e, (eventType (item_event_meta e) = "setStock"
                ∧ (0 ≤ item_event_stock e)%Z)
               ∨ eventType (item_event_meta e) = "decrementStock") events →
  (∀ e, current = Some e → in_stock (row_stock e)) →
  fold_transitions hs current (Single <$> events) = Resolved (Some final) →
  in_stock (row_stock final).
Proof.
  intros Hset Hdec Hevents. revert current.
  induction Hevents as [|e events He _ IH]; intros current Hcur.
  - intros [= ->]. by apply Hcur.
  - rewrite fmap_cons, fold_transitions_cons. unfold transition.
    cbn [first_event]. unfold meta_of, item_event_tagged.
    destruct He as [[-> Hpos]| ->].
    + rewrite Hset. unfold setStock.
      destruct (truthy (item_event_name e)).
      * apply IH. intros e' [= <-]. by eexists.
      * destruct current as [cur|]; [|done].
        apply IH. intros e' [= <-]. by eexists.
    + rewrite Hdec. unfold decrementStock.
      destruct current as [cur|]; [|done].
      apply IH. intros e' [= <-]. cbn.
      destruct (Hcur cur eq_refl) as (n & -> & Hn).
      destruct (n - item_event_stock e <? 0)%Z eqn:Hneg; eexists; split;
        try done.
      apply Z.ltb_ge in Hneg. lia.
Qed.


(** [findIndex] on a cart whose items are all there. *)
Lemma findIndex_found items it index :
  Forall is_Some items →
  findIndex items (Some it) = Resolved (Some index) →
  ∃ i, items !! index = Some (Some i) ∧ item_id i = item_id it
       ∧ item_id it ∉ ids (take index items).
Proof.
  revert index. induction items as [|[i|] rest IH]; intros index Hdef; [done| |].
  2:{ by apply Forall_cons in Hdef as [[? [=]] _]. }
  apply Forall_cons in Hdef as [_ Hdef]. cbn [findIndex].
  destruct (item_id i =? item_id it)%string eqn:Hid.
  - intros [= <-]. apply String.eqb_eq in Hid. exists i. cbn.
    split; [done|]. split; [done|]. apply not_elem_of_nil.
  - destruct (findIndex rest (Some it)) as [[k|]|err] eqn:Hfind; [|done..].
    intros [= <-]. destruct (IH k Hdef eq_refl) as (i' & Hk & Hi' & Hnot).
    exists i'. split; [done|]. split; [done|].
    cbn. unfold ids in *. cbn. rewrite elem_of_cons.
    apply String.eqb_neq in Hid. intros [Heq|?]; [congruence|done].
Qed.

Lemma findIndex_missing items it :
  Forall is_Some items →
  findIndex items (Some it) = Resolved None →
  item_id it ∉ ids items.
Proof.
  induction items as [|[i|] rest IH]; intros Hdef.
  - intros _. apply not_elem_of_nil.
  - apply Forall_cons in Hdef as [_ Hdef]. cbn [findIndex].
    destruct (item_id i =? item_id it)%string eqn:Hid; [done|].
    destruct (findIndex rest (Some it)) as [[k|]|err] eqn:Hfind; [done| |done].
    intros _. unfold ids in *. cbn. rewrite elem_of_cons.
    apply String.eqb_neq in Hid. intros [Heq|?]; [congruence|]. by apply IH.
  - by apply Forall_cons in Hdef as [[? [=]] _].
Qed.

Lemma findIndex_total items it :
  Forall is_Some items → ∃ index, findIndex items (Some it) = Resolved index.
Proof.
  induction items as [|[i|] rest IH]; intros Hdef; [by eexists| |].
  - apply Forall_cons in Hdef as [_ Hdef]. cbn [findIndex].
    destruct (item_id i =? item_id it)%string; [by eexists|].
    destruct (IH Hdef) as [index ->]. by eexists.
  - by apply Forall_cons in Hdef as [[? [=]] _].
Qed.

Lemma held_app id items1 items2 :
  held id (items1 ++ items2) = (held id items1 + held id items2)%Z.
Proof.
  induction items1 as [|[i|] rest IH]; cbn; [done| |done].
  unfold held in *. rewrite IH. destruct (item_id i =? id)%string; lia.
Qed.

Lemma held_absent id items : id ∉ ids items → held id items = 0%Z.
Proof.
  induction items as [|[i|] rest IH]; cbn; [done| |done].
  unfold ids. cbn. rewrite not_elem_of_cons. intros [Hne Hrest].
  apply String.eqb_neq in Hne. rewrite String.eqb_sym in Hne.
  unfold held in *. cbn. rewrite Hne. by apply IH.
Qed.

Lemma ids_app items1 items2 : ids (items1 ++ items2) = ids items1 ++ ids items2.
Proof. apply omap_app. Qed.

(** What replacing the item at [index] does to the quantities held and to the
    ids. *)
Lemma held_insert id items index i q :
  items !! index = Some (Some i) →
  held id (<[index := Some {| item_id := item_id i; quantity := quantity i + q |}]> items)
  = (held id items + if (item_id i =? id)%string then q else 0)%Z
  ∧ ids (<[index := Some {| item_id := item_id i; quantity := quantity i + q |}]> items)
    = ids items.
Proof.
  revert index. induction items as [|first rest IH]; intros index; [done|].
  destruct index as [|index]; simpl.
  - intros [= ->]. unfold held, ids. cbn.
    split; [|done]. destruct (item_id i =? id)%string; lia.
  - intros Hi. destruct (IH index Hi) as [Hheld Hids].
    unfold held, ids in *. cbn. rewrite Hheld, Hids. split; [|done].
    destruct first as [j|]; [|done].
    destruct (item_id j =? id)%string; lia.
Qed.

Lemma ids_lookup items index i :
  items !! index = Some (Some i) → item_id i ∈ ids items.
Proof.
  intros Hi. unfold ids. apply list_elem_of_omap. exists (Some i).
  split; [by eapply list_elem_of_lookup_2|done].
Qed.

(** [addItem] for a single event, on a cart whose items are all there. *)
Lemma addItem_single (entity : option Row)
    (e : CartEvent) :
  let items := default [] (entity ≫= row_items) in
  let it := cart_event_item e in
  Forall is_Some items →
  ∃ items',
    addItem (Any:=Any) entity (Single e)
    = Resolved {| row_id := Some (cart_event_id e);
                  row_name := entity ≫= row_name;
                  row_stock := entity ≫= row_stock;
                  row_items := Some items';
                  row_deleted := entity ≫= row_deleted |}
    ∧ Forall is_Some items'
    ∧ (∀ id, held id items'
             = (held id items
                + if (item_id it =? id)%string then quantity it else 0)%Z)
    ∧ (NoDup (ids items) → NoDup (ids items'))
    ∧ item_id it ∈ ids items'
    ∧ length items ≤ length items' ≤ S (length items).
Proof.
  intros items it Hdef. unfold addItem. fold items. fold it.
  destruct (findIndex_total items it Hdef) as [[index|] Hfind]; rewrite Hfind.
  - destruct (findIndex_found _ _ _ Hdef Hfind) as (i & Hi & Hid & _).
    rewrite Hi. eexists. split; [done|].
    split; [by apply Forall_insert|].
    split; [|split; [|split]].
    + intros id. rewrite (proj1 (held_insert id _ _ _ _ Hi)). by rewrite Hid.
    + by rewrite (proj2 (held_insert "" _ _ _ (quantity it) Hi)).
    + rewrite (proj2 (held_insert "" _ _ _ (quantity it) Hi)), <-Hid.
      by eapply ids_lookup.
    + rewrite length_insert. lia.
  - apply (findIndex_missing _ _ Hdef) in Hfind.
    eexists. split; [done|].
    split; [apply Forall_app; split; [done|]; by repeat constructor|].
    split; [|split; [|split]].
    + intros id. rewrite held_app. unfold held. cbn [foldr].
      destruct (item_id it =? id)%string; lia.
    + intros Hnd. rewrite ids_app. apply NoDup_app. split; [done|].
      split; [|apply NoDup_singleton].
      intros x Hx Hin. apply list_elem_of_singleton in Hin. by subst x.
    + rewrite ids_app, elem_of_app. right. by left.
    + rewrite length_app. cbn. lia.
Qed.

Lemma fold_left_add (quantities : list Z) (first : Z) :
  fold_left Z.add quantities first = (first + foldr Z.add 0 quantities)%Z.
Proof.
  revert first. induction quantities as [|q rest IH]; intros first; cbn; [lia|].
  rewrite IH. lia.
Qed.

Lemma quantitiesWithId_held items id :
  Forall is_Some items →
  ∃ quantities,
    quantitiesWithId items id = Resolved quantities
    ∧ foldr Z.add 0%Z quantities = held id items
    ∧ (quantities = [] → id ∉ ids items).
Proof.
  induction items as [|[i|] rest IH]; intros Hdef.
  - exists []. split; [done|]. split; [done|]. intros _. apply not_elem_of_nil.
  - apply Forall_cons in Hdef as [_ Hdef].
    destruct (IH Hdef) as (qs & Hqs & Hsum & Hnil).
    cbn [quantitiesWithId]. rewrite Hqs. eexists. split; [done|].
    unfold held, ids in *. cbn.
    destruct (item_id i =? id)%string eqn:Hid; cbn.
    + split; [by rewrite Hsum|done].
    + split; [done|]. intros Hq. rewrite not_elem_of_cons.
      apply String.eqb_neq in Hid. split; [congruence|by apply Hnil].
  - by apply Forall_cons in Hdef as [[? [=]] _].
Qed.

Lemma lift_read_only {E P A} (o : outcome A) :
  ReadOnly (lift (EntityType:=E) (PersistenceEntityType:=P) o).
Proof. destruct o; constructor. Qed.

(** The stock check, for a single event whose item is in the cart. *)
Lemma run_checkStock
    {Store} `{!Persistence Row string Store}
    (memoryDB : handle) (current : option Row) (e : CartEvent) (entity : Row)
    items (w : World Store) :
  let id := item_id (cart_event_item e) in
  row_items entity = Some items →
  Forall is_Some items →
  id ∈ ids items →
  (∀ event, ReadOnly (checkStock (Any:=Any) memoryDB current event entity))
  ∧ run (checkStock (Any:=Any) memoryDB current (Single e) entity) w
    = (match get (w memoryDB) item id with
       | Resolved (Some itemEntity) =>
           if exceeds (held id items) (row_stock itemEntity)
           then Rejected (Error "Invalid stock")
           else Resolved entity
       | Resolved None => Rejected (cannot_read "stock")
       | Rejected err => Rejected err
       end, w, [(Get memoryDB item id, get (w memoryDB) item id)]).
Proof.
  intros id Hitems Hdef Hin. split.
  - intros [ev|first rest]; [|constructor]. cbn.
    constructor. intros [itemEntity|err]; [|constructor]. cbn.
    apply lift_read_only.
  - cbn [checkStock]. fold id. rewrite run_bind. cbn [await run].
    rewrite perform_get.
    destruct (get (w memoryDB) item id) as [itemEntity|err]; cbn; [|done].
    rewrite Hitems.
    destruct (quantitiesWithId_held items id Hdef) as (qs & -> & Hsum & Hnil).
    destruct qs as [|q rest]; [by apply Hnil in Hin|]. cbn [reduce].
    rewrite fold_left_add. cbn in Hsum. rewrite Hsum.
    destruct itemEntity as [itemEntity|]; [|done].
    by destruct (exceeds _ _).
Qed.

(** X19.  [addItem] on a cart whose items are all there (or on no cart at
    all): it never throws; the cart it returns takes the id of the event and
    keeps the rest of the cart; it holds of the item of the event what the
    cart held plus the quantity of the event, and of every other item what
    the cart held; item ids that were pairwise distinct remain so; the item
    of the event is in the cart; and the cart has grown by at most one
    entry. *)
Theorem addItem_adds_the_quantity_to_the_cart (entity : option Row)
    (e : CartEvent) :
  let items := default [] (entity ≫= row_items) in
  let it := cart_event_item e in
  Forall is_Some items →
  ∃ items',
    addItem (Any:=Any) entity (Single e)
    = Resolved {| row_id := Some (cart_event_id e);
                  row_name := entity ≫= row_name;
                  row_stock := entity ≫= row_stock;
                  row_items := Some items';
                  row_deleted := entity ≫= row_deleted |}
    ∧ Forall is_Some items'
    ∧ (∀ id, held id items'
             = (held id items
                + if (item_id it =? id)%string then quantity it else 0)%Z)
    ∧ (NoDup (ids items) → NoDup (ids items'))
    ∧ item_id it ∈ ids items'
    ∧ length items ≤ length items' ≤ S (length items).
Proof. apply addItem_single. Qed.

(** X20.  The aggregate handler of the cart only reads the store, whatever
    the event; and for an event whose item is in the updated cart it makes
    one call, the fetch of that item from the item table, and then rejects
    with the error of the fetch, with a TypeError when there is no such item,
    with ['Invalid stock'] when the cart holds more of the item than the item
    has in stock, and resolves with the updated cart as it is otherwise. *)
Theorem checkStock_compares_the_cart_with_the_stock
    {Store} `{!Persistence Row string Store}
    (memoryDB : handle) (current : option Row) (e : CartEvent) (entity : Row)
    items (w : World Store) :
  let id := item_id (cart_event_item e) in
  row_items entity = Some items →
  Forall is_Some items →
  id ∈ ids items →
  (∀ event, ReadOnly (checkStock (Any:=Any) memoryDB current event entity))
  ∧ run (checkStock (Any:=Any) memoryDB current (Single e) entity) w
    = (match get (w memoryDB) item id with
       | Resolved (Some itemEntity) =>
           if exceeds (held id items) (row_stock itemEntity)
           then Rejected (Error "Invalid stock")
           else Resolved entity
       | Resolved None => Rejected (cannot_read "stock")
       | Rejected err => Rejected err
       end, w, [(Get memoryDB item id, get (w memoryDB) item id)]).
Proof. apply run_checkStock. Qed.

(** X21.  The cart service never persists a cart beyond the stock.  For an
    [addItem] event on a cart that is not marked deleted, with the item in
    store: when the cart would hold more of the item than the stock, the
    cycle rejects with ['Invalid stock'] after its two fetches and leaves the
    world as it was; otherwise the only write is the put of the cart that
    [addItem] returned, which holds of the item what was wanted. *)
Theorem cart_is_persisted_only_within_the_stock
    {Store} `{!Persistence Row string Store}
    (h : handle) (e : CartEvent) (w : World Store) (cur : option Row)
    (itemEntity : Row) (s : Z) :
  let id := item_id (cart_event_item e) in
  let wanted :=
    (held id (default [] (cur ≫= row_items)) + quantity (cart_event_item e))%Z in
  let fetches :=
    [(Get h cart (cart_event_id e), Resolved cur);
     (Get h item id, Resolved (Some itemEntity))] in
  let cycle :=
    run (SideHandlers.entityEventHandler (Any:=Any) h cart cartEventHandlers
           (Single e) (Some (cartAggregateHandlers h))) w in
  eventType (cart_event_meta e) = "addItem" →
  get (w h) cart (cart_event_id e) = Resolved cur →
  Forall is_Some (default [] (cur ≫= row_items)) →
  truthy (cur ≫= row_deleted) = false →
  truthy (cart_event_id e) = true →
  get (w h) item id = Resolved (Some itemEntity) →
  row_stock itemEntity = Some (Num s) →
  ((s < wanted)%Z → cycle = (Rejected (Error "Invalid stock"), w, fetches))
  ∧ ((wanted ≤ s)%Z →
     ∃ updated items',
       addItem (Any:=Any) cur (Single e) = Resolved updated
       ∧ row_items updated = Some items'
       ∧ held id items' = wanted
       ∧ cycle =
         let '(r, w2) := perform (Put h cart (cart_event_id e) updated) w in
         (settled_as cart "addItem" updated r, w2,
          fetches ++ [(Put h cart (cart_event_id e) updated, r)])).
Proof.
  intros id wanted fetches cycle Htype Hget Hdef Hdel Hid Hitem Hstock.
  destruct (addItem_single cur e Hdef)
    as (items' & Hadd & Hdef' & Hheld & _ & Hin & _).
  set (updated := {| row_id := Some (cart_event_id e);
                     row_name := cur ≫= row_name;
                     row_stock := cur ≫= row_stock;
                     row_items := Some items';
                     row_deleted := cur ≫= row_deleted |}) in *.
  pose proof (proj2 (run_checkStock h cur e updated items' w eq_refl Hdef' Hin))
    as Hside.
  fold id in Hside. rewrite Hitem, Hstock in Hside. cbn [exceeds] in Hside.
  specialize (Hheld id). fold id in Hheld. rewrite String.eqb_refl in Hheld.
  fold wanted in Hheld. rewrite Hheld in Hside.
  assert (∀ o w1 js,
    run (checkStock (Any:=Any) h cur (Single e) updated) w = (o, w1, js) →
    cycle =
    match o with
    | Rejected err =>
        (Rejected err, w1,
         (Get h cart (cart_event_id e), Resolved cur) :: js)
    | Resolved handled =>
        let '(o2, w2, jp) :=
          persist_step h cart (cart_event_id e) "addItem" handled w1 in
        (o2, w2, (Get h cart (cart_event_id e), Resolved cur) :: js ++ jp)
    end) as Hcycle.
  { intros o w1 js Hrun. subst cycle.
    rewrite (run_cycle h cart cartEventHandlers (Single e)
               (Some (cartAggregateHandlers h)) w cur addItem updated o w1 js);
      cbn [first_event]; unfold meta_of, cart_event_tagged, id_of,
        cart_event_persistable; rewrite ?Htype, ?Hget; try done.
    by left. }
  split.
  - intros Hlt. rewrite (proj2 (Z.ltb_lt _ _) Hlt) in Hside.
    by rewrite (Hcycle _ _ _ Hside).
  - intros Hle. exists updated, items'. split; [done|]. split; [done|].
    split; [done|].
    rewrite (proj2 (Z.ltb_ge _ _) Hle) in Hside.
    rewrite (Hcycle _ _ _ Hside). unfold persist_step.
    change (deleted updated) with (cur ≫= row_deleted). rewrite Hdel.
    change (entity_id updated) with (Some (cart_event_id e)).
    cbv beta iota. rewrite Hid. by destruct (perform _ w).
Qed.

End ShopProperties.

(** * The further properties at work *)

Lemma transition_error_aborts_the_cycle_witness :
  run (SideHandlers.entityEventHandler (Any:=Shop.ItemEvent) 0 Shop.item
         {["add" := Shop.setStock]} (Single (Shop.stockEvent "add" 2)) None)
    Shop.memoryDB
  = (Rejected (Shop.cannot_read "name"), Shop.memoryDB,
     [(Get 0 Shop.item "sku1", Rejected not_found)]).
Proof.
  destruct (transition_error_aborts_the_cycle (Any:=Shop.ItemEvent)
              0 Shop.item {["add" := Shop.setStock]}
              (Single (Shop.stockEvent "add" 2)) None
              Shop.memoryDB None Shop.setStock (Shop.cannot_read "name"))
    as [Hside _]; [reflexivity..|].
  apply Hside. right. exists not_found. repeat split; reflexivity.
Defined.

Lemma cycle_rejects_only_for_a_reason_of_its_steps_witness :
  ∃ cur,
    Shop.setStock (Any:=Shop.ItemEvent) cur
      (Single (Shop.stockEvent "new" 2))
    = Rejected (Shop.cannot_read "name").
Proof.
  pose proof (cycle_rejects_only_for_a_reason_of_its_steps
                (Any:=Shop.ItemEvent) 0 Shop.item {["new" := Shop.setStock]}
                (Single (Shop.stockEvent "new" 2)) None
                Shop.memoryDB Shop.setStock (Shop.cannot_read "name"))
    as Hreasons.
  destruct Hreasons as [Hpackage _]; [reflexivity|by intros table [=]|].
  destruct (proj1 Hpackage eq_refl)
    as [[Hget _]|(cur & Hcur & [Herr|(upd & Hupd & _)])].
  - discriminate Hget.
  - exists cur. exact Herr.
  - exfalso.
    destruct Hcur as [Hcur|(err & _ & _ & ->)]; [discriminate Hcur|].
    discriminate Hupd.
Defined.


Lemma stored_record_is_the_entity_returned_witness :
  ∃ i, Some "test-1" = Some i
       ∧ get ((run (SideHandlers.entityEventHandler 0
                      Calculator.memoryCalcTable Calculator.eventHandlers
                      (Calculator.event_of "add" 1) None)
                 Calculator.memoryDB).1.2 0) Calculator.memoryCalcTable i
         = Resolved (Some {| Calculator.calc_id := Some "test-1";
                             Calculator.calc_amount := 1;
                             Calculator.calc_deleted := None |}).
Proof.
  destruct (stored_record_is_the_entity_returned
              0 Calculator.memoryCalcTable Calculator.eventHandlers
              (Calculator.event_of "add" 1) None Calculator.memoryDB
              {| value_of := {| Calculator.calc_id := Some "test-1";
                                Calculator.calc_amount := 1;
                                Calculator.calc_deleted := None |};
                 meta := {| entity := Calculator.memoryCalcTable;
                            eventType := "add" |} |}
              (run (SideHandlers.entityEventHandler 0
                      Calculator.memoryCalcTable Calculator.eventHandlers
                      (Calculator.event_of "add" 1) None)
                 Calculator.memoryDB).1.2
              (run (SideHandlers.entityEventHandler 0
                      Calculator.memoryCalcTable Calculator.eventHandlers
                      (Calculator.event_of "add" 1) None)
                 Calculator.memoryDB).2)
    as (i & Hid & _ & Hget).
  - intros s s' i e [= <-]. cbn. rewrite lookup_insert_eq. reflexivity.
  - reflexivity.
  - right. reflexivity.
  - exists i. split; [exact Hid|exact Hget].
Defined.

Lemma handlers_agree_without_coordination_witness :
  Literal.SideHandlers.entityEventHandler 0 Calculator.memoryCalcTable
    Calculator.eventHandlers (Calculator.event_of "remove" 0)
    (Some Calculator.sideHandlers)
  = Literal.SideHandlers.entityEventHandler 0 Calculator.memoryCalcTable
      Calculator.eventHandlers (Calculator.event_of "remove" 0) None.
Proof.
  refine (proj1 (handlers_agree_without_coordination
                   0 Calculator.memoryCalcTable Calculator.eventHandlers
                   (Calculator.event_of "remove" 0) Calculator.sideHandlers
                   _ _)); reflexivity.
Defined.

Lemma own_entries_decide_the_cycle_witness :
  run (Literal.SideHandlers.entityEventHandler 0 Calculator.memoryCalcTable
         Calculator.eventHandlers (Calculator.event_of "add" 2)
         (Some Calculator.sideHandlers))
    Calculator.memoryDB1
  = (let '(o, w', j) :=
       run (SideHandlers.entityEventHandler 0 Calculator.memoryCalcTable
              Calculator.eventHandlers (Calculator.event_of "add" 2)
              (Some Calculator.sideHandlers))
         Calculator.memoryDB1 in
     (match o with
      | Resolved r => Resolved (Some r)
      | Rejected err => Rejected err
      end, w', j)).
Proof.
  refine (proj1 (own_entries_decide_the_cycle
                   0 Calculator.memoryCalcTable Calculator.eventHandlers
                   (Calculator.event_of "add" 2)
                   (Some Calculator.sideHandlers) Calculator.memoryDB1
                   _ _ _)).
  - intros e. reflexivity.
  - intros Hnone. discriminate Hnone.
  - intros table [= <-] Hnone. discriminate Hnone.
Defined.


Lemma failed_service_ignores_what_follows_witness :
  let service :=
    SideHandlers.entityServiceFactory Calculator.memoryCalcTable
      Calculator.eventHandlers None in
  let p := schedule service
             [PersistenceEmits 0; EventArrives (Calculator.event_of "remove" 0);
              PromiseAdvances 0; PromiseAdvances 0]
             (subscribed_pipe Calculator.memoryDB) in
  let q := schedule service
             [EventArrives (Calculator.event_of "add" 1); PromiseAdvances 1;
              PromiseAdvances 1; PromiseAdvances 1] p in
  failure q = Some not_found ∧ out q = []
  ∧ get (world q 0) Calculator.memoryCalcTable "test-1" = Rejected not_found.
Proof.
  intros service p q.
  destruct (failed_service_ignores_what_follows
              Calculator.memoryCalcTable Calculator.eventHandlers None None
              Calculator.memoryDB
              [PersistenceEmits 0; EventArrives (Calculator.event_of "remove" 0);
               PromiseAdvances 0; PromiseAdvances 0]
              [EventArrives (Calculator.event_of "add" 1); PromiseAdvances 1;
               PromiseAdvances 1; PromiseAdvances 1])
    as [_ Hside].
  destruct Hside as (Hf & _ & _ & _ & Hw & Ho); [discriminate|].
  fold service in Hf, Hw, Ho. fold p in Hf, Hw, Ho. fold q in Hf, Hw, Ho.
  rewrite Hf, Hw, Ho. repeat split; reflexivity.
Defined.


Lemma replay_passes_nothing_and_a_new_instance_everything_witness :
  feed (feed filterPreviouslySeenIds
          [Calculator.first_of (Calculator.event_of "add" 1)]).2
    [Calculator.first_of (Calculator.event_of "add" 2)]
  = ([], (feed filterPreviouslySeenIds
            [Calculator.first_of (Calculator.event_of "add" 1)]).2).
Proof.
  refine (proj1 (replay_passes_nothing_and_a_new_instance_everything
                   [Calculator.first_of (Calculator.event_of "add" 1)]
                   [Calculator.first_of (Calculator.event_of "add" 2)] _)).
  intros event Hin. apply list_elem_of_singleton in Hin. rewrite Hin.
  apply list_elem_of_singleton. reflexivity.
Defined.

Lemma stock_of_an_item_is_never_negative_witness :
  Shop.in_stock (Some (Shop.Num 0)).
Proof.
  refine (stock_of_an_item_is_never_negative (Any:=Shop.ItemEvent)
            (<["setStock" := Shop.setStock]>
               {["decrementStock" := Shop.decrementStock]})
            [Shop.stockEvent "setStock" 2; Shop.stockEvent "decrementStock" 5]
            (Some Shop.sku1)
            {| Shop.row_id := Some "sku1";
               Shop.row_name := Some "Something super interesting";
               Shop.row_stock := Some (Shop.Num 0); Shop.row_items := None;
               Shop.row_deleted := None |} _ _ _ _ _).
  - reflexivity.
  - reflexivity.
  - constructor; [left; split; [reflexivity|discriminate]|].
    constructor; [right; reflexivity|constructor].
  - intros e [= <-]. exists 2%Z. split; [reflexivity|discriminate].
  - reflexivity.
Defined.

Lemma addItem_adds_the_quantity_to_the_cart_witness :
  ∃ items',
    Shop.addItem (Any:=Shop.CartEvent) None (Single (Shop.addToCart 2))
    = Resolved {| Shop.row_id := Some "cart1"; Shop.row_name := None;
                  Shop.row_stock := None; Shop.row_items := Some items';
                  Shop.row_deleted := None |}
    ∧ Shop.held "sku1" items' = 2%Z.
Proof.
  destruct (addItem_adds_the_quantity_to_the_cart (Any:=Shop.CartEvent)
              None (Shop.addToCart 2))
    as (items' & Hadd & _ & Hheld & _); [constructor|].
  exists items'. split; [exact Hadd|]. rewrite Hheld. reflexivity.
Defined.

Lemma checkStock_compares_the_cart_with_the_stock_witness :
  run (Shop.checkStock (Any:=Shop.CartEvent) 0 None
         (Single (Shop.addToCart 10))
         {| Shop.row_id := Some "cart1"; Shop.row_name := None;
            Shop.row_stock := None;
            Shop.row_items :=
              Some [Some {| Shop.item_id := "sku1"; Shop.quantity := 10 |}];
            Shop.row_deleted := None |}) Shop.stocked
  = (Rejected (Error "Invalid stock"), Shop.stocked,
     [(Get 0 Shop.item "sku1", Resolved (Some Shop.sku1))]).
Proof.
  rewrite (proj2 (checkStock_compares_the_cart_with_the_stock
                    (Any:=Shop.CartEvent) 0 None (Shop.addToCart 10)
                    {| Shop.row_id := Some "cart1"; Shop.row_name := None;
                       Shop.row_stock := None;
                       Shop.row_items :=
                         Some [Some {| Shop.item_id := "sku1";
                                       Shop.quantity := 10 |}];
                       Shop.row_deleted := None |}
                    [Some {| Shop.item_id := "sku1"; Shop.quantity := 10 |}]
                    Shop.stocked eq_refl
                    ltac:(repeat constructor; eexists; reflexivity)
                    ltac:(left))).
  reflexivity.
Defined.

Lemma cart_is_persisted_only_within_the_stock_witness :
  run (SideHandlers.entityEventHandler (Any:=Shop.CartEvent) 0 Shop.cart
         Shop.cartEventHandlers (Single (Shop.addToCart 10))
         (Some (Shop.cartAggregateHandlers 0))) Shop.stockedWithCart
  = (Rejected (Error "Invalid stock"), Shop.stockedWithCart,
     [(Get 0 Shop.cart "cart1", Resolved (Some Shop.cart1));
      (Get 0 Shop.item "sku1", Resolved (Some Shop.sku1))]).
Proof.
  destruct (cart_is_persisted_only_within_the_stock (Any:=Shop.CartEvent)
              0 (Shop.addToCart 10) Shop.stockedWithCart (Some Shop.cart1)
              Shop.sku1 2)
    as [Hrejected _];
    [reflexivity|reflexivity|repeat constructor; eexists; reflexivity
    |reflexivity..|].
  apply Hrejected. reflexivity.
Defined.


Lemma cycle_touches_only_its_store_witness :
  (run (SideHandlers.entityEventHandler 0 Calculator.memoryCalcTable
          Calculator.eventHandlers (Calculator.event_of "add" 1)
          (Some Calculator.sideHandlers)) Calculator.memoryDB).1.2 1
  = Calculator.memoryDB 1.
Proof.
  destruct (cycle_touches_only_its_store 0 Calculator.memoryCalcTable
              Calculator.eventHandlers (Calculator.event_of "add" 1)
              (Some Calculator.sideHandlers) Calculator.memoryDB)
    as (_ & _ & Hside).
  apply Hside; [|discriminate].
  intros cur upd. constructor. intros r.
  destruct (5 <? Calculator.calc_amount upd)%Z; constructor.
Defined.

Lemma no_accepted_event_is_lost_witness :
  let p := schedule
             (SideHandlers.entityServiceFactory Calculator.memoryCalcTable
                Calculator.eventHandlers None)
             (Calculator.back_to_back (Calculator.event_of "add" 3)
                (Calculator.event_of "add" 4))
             (subscribed_pipe Calculator.memoryDB) in
  length (out p) + size (active p) + length (buffer p) = 2.
Proof.
  intros p.
  destruct (no_accepted_event_is_lost
              Calculator.memoryCalcTable Calculator.eventHandlers None None
              Calculator.memoryDB
              (Calculator.back_to_back (Calculator.event_of "add" 3)
                 (Calculator.event_of "add" 4)))
    as [_ [Hcount _]].
  apply Hcount. reflexivity.
Defined.
